(** * MichaelWalshOS: content cache, streaming generation and live audio

    A shallow embedding of the runtime core of the application:
    - [geminiService.ts]: the PCM helpers ([createPcmBlob], [decode],
      [decodeAudioData]) and the streaming generator [streamAppContent];
    - [App.tsx]: the component state, its handlers ([handleAppOpen],
      [handleInteraction], [handleCloseAppView], [internalHandleLlmRequest]),
      the cache-write effect and the playback cursor of the live session.

    Conventions.
    - A React state cell is a field of [AppState]; a setter is a function on
      [AppState]; one event-loop task is one [Event], whose state updates
      are batched, followed by the render that runs the cache-write effect.
    - A [Float32Array] element is a [sample]: a finite value is a rational
      (every finite binary32 is one, and [data[i] * 32768] and
      [x / 32768.0] are exact in binary64), or NaN, or an infinity.
    - An [Int16Array] element is a [Z] in [-32768, 32767]; a byte is a [Z] in
      [0, 255]; typed arrays are little-endian.
    - A time of the audio clock is a binary64 number, given by the rational
      it denotes; a sum or a quotient of times is rounded ([round64]).
    - [appContentCache] is a finite map: only the entries the effect has
      written are in it.
    - A call that throws returns [None]. *)

From Stdlib Require Import ZArith QArith Qabs Qminmax Qround Qpower SpecFloat.
From Stdlib Require Import Lia List String Ascii.
From stdpp Require Import gmap strings list.
From Stdlib Require Import Lqa.

(** ** Part I: definitions *)

(** *** Strings *)

(** JavaScript truthiness of a string. *)
Definition truthy (s : string) : bool :=
  match s with EmptyString => false | String _ _ => true end.

(** Truthiness of a possibly-undefined string ([undefined] is [None]). *)
Definition truthy_opt (o : option string) : bool :=
  match o with Some s => truthy s | None => false end.

(** *** Audio helpers ([geminiService.ts]) *)

Inductive sample : Type :=
| Finite (q : Q)
| NaN
| Infinite (negative : bool).

(** Truncation toward zero of a rational. *)
Definition trunc (q : Q) : Z := Z.quot (Qnum q) (Z.pos (Qden q)).

(** The integer modulo 2^16, read as a signed 16-bit value. *)
Definition wrap16 (n : Z) : Z :=
  let m := (n mod 65536)%Z in
  if (32768 <=? m)%Z then (m - 65536)%Z else m.

(** [data[i] * 32768] *)
Definition times32768 (s : sample) : sample :=
  match s with
  | Finite q => Finite (q * 32768)
  | NaN => NaN
  | Infinite b => Infinite b
  end.

(** The conversion done by a store into an [Int16Array]: NaN and the
    infinities become 0, a finite number is truncated and wrapped. *)
Definition ToInt16 (x : sample) : Z :=
  match x with
  | Finite q => wrap16 (trunc q)
  | NaN => 0%Z
  | Infinite _ => 0%Z
  end.

(** The first loop of [createPcmBlob]: [int16[i] = data[i] * 32768]. *)
Definition int16_of_sample (s : sample) : Z := ToInt16 (times32768 s).

Definition pcm_int16 (data : list sample) : list Z := map int16_of_sample data.

(** [new Uint8Array(int16.buffer)]: two bytes per element, low byte first. *)
Definition int16_bytes (v : Z) : list Z :=
  let u := (v mod 65536)%Z in [(u mod 256)%Z; (u / 256)%Z].

Definition Uint8_of_Int16 (l : list Z) : list Z := flat_map int16_bytes l.

(** [btoa]: the base64 alphabet and the encoder of a binary string, given
    here by its list of character codes. *)
Definition b64_alphabet : string :=
  "ABCDEFGHIJKLMNOPQRSTUVWXYZabcdefghijklmnopqrstuvwxyz0123456789+/".

Definition b64_char (n : Z) : ascii :=
  match String.get (Z.to_nat n) b64_alphabet with
  | Some c => c
  | None => "="%char
  end.

Fixpoint b64_index (c : ascii) (s : string) (i : Z) : option Z :=
  match s with
  | EmptyString => None
  | String c' s' => if Ascii.eqb c c' then Some i else b64_index c s' (i + 1)%Z
  end.

Definition b64_value (c : ascii) : option Z := b64_index c b64_alphabet 0%Z.

Fixpoint btoa (bs : list Z) : string :=
  match bs with
  | [] => EmptyString
  | [a] =>
      String (b64_char (a / 4)) (String (b64_char (a mod 4 * 16)) "==")
  | [a; b] =>
      String (b64_char (a / 4))
        (String (b64_char (a mod 4 * 16 + b / 16))
           (String (b64_char (b mod 16 * 4)) "="))
  | a :: b :: c :: rest =>
      String (b64_char (a / 4))
        (String (b64_char (a mod 4 * 16 + b / 16))
           (String (b64_char (b mod 16 * 4 + c / 64))
              (String (b64_char (c mod 64)) (btoa rest))))
  end%Z.

(** ASCII whitespace: tab, line feed, form feed, carriage return, space. *)
Definition is_ascii_whitespace (c : ascii) : bool :=
  Ascii.eqb c "009" || Ascii.eqb c "010" || Ascii.eqb c "012"
  || Ascii.eqb c "013" || Ascii.eqb c " ".

(** When the length is a multiple of four, one or two trailing padding
    characters are removed. *)
Definition remove_padding (data : list ascii) : list ascii :=
  if (length data mod 4 =? 0)%nat then
    match rev data with
    | c1 :: c2 :: r =>
        if Ascii.eqb c1 "=" then
          if Ascii.eqb c2 "=" then rev r else rev (c2 :: r)
        else data
    | _ => data
    end
  else data.

(** The six-bit value of every character; [None] when a character is not
    in the alphabet. *)
Fixpoint sextets (data : list ascii) : option (list Z) :=
  match data with
  | [] => Some []
  | c :: r =>
      match b64_value c, sextets r with
      | Some v, Some vs => Some (v :: vs)
      | _, _ => None
      end
  end.

(** Four six-bit values make three bytes; of a final group of three values
    the last two bits are discarded, of a final group of two the last
    four. *)
Fixpoint octets (v : list Z) : list Z :=
  match v with
  | a :: b :: c :: d :: rest =>
      (a * 4 + b / 16) :: (b mod 16 * 16 + c / 4) :: (c mod 4 * 64 + d)
        :: octets rest
  | [a; b; c] => [a * 4 + b / 16; b mod 16 * 16 + c / 4]
  | [a; b] => [a * 4 + b / 16]
  | _ => []
  end%Z.

(** [atob], the platform's forgiving base64 decoding: ASCII whitespace is
    dropped, then the padding; a remaining length of one modulo four and
    any character outside the alphabet (a padding character elsewhere
    included) make the call throw [InvalidCharacterError], which is
    [None]. *)
Definition atob (s : string) : option (list Z) :=
  let data :=
    remove_padding
      (List.filter (fun c => negb (is_ascii_whitespace c))
         (list_ascii_of_string s)) in
  if (length data mod 4 =? 1)%nat then None
  else match sextets data with
       | Some v => Some (octets v)
       | None => None
       end.

Record Blob : Type := { data : string; mimeType : string }.

Definition createPcmBlob (samples : list sample) : Blob :=
  {| data := btoa (Uint8_of_Int16 (pcm_int16 samples));
     mimeType := "audio/pcm;rate=16000" |}.

(** [decode]: [atob], then one byte per character code. *)
Definition decode (base64 : string) : option (list Z) := atob base64.

(** [new Int16Array(data.buffer)]: [None] is the [RangeError] raised for a
    byte length that is not a multiple of two. *)
Fixpoint Int16_of_Uint8 (bs : list Z) : option (list Z) :=
  match bs with
  | [] => Some []
  | lo :: hi :: rest =>
      match Int16_of_Uint8 rest with
      | Some tl => Some (wrap16 (lo + 256 * hi) :: tl)
      | None => None
      end
  | [_] => None
  end.

(** *** Numbers

    A JavaScript number is a binary64 value. The times of the audio clock
    are finite; they are given here by the rationals they denote, and the
    result of an arithmetic operation is the binary64 value nearest to the
    exact result, a tie going to the even significand. The exponent range
    has no upper end here: a sum of a finite time and a duration never
    overflows ([add64_stays_finite]). *)

(** The integer [k] with [2^k <= x < 2^(k+1)], for a positive [x]. *)
Definition ilog2 (x : Q) : Z :=
  let k := (Z.log2 (Qnum x) - Z.log2 (Z.pos (Qden x)))%Z in
  if Qle_bool (2 ^ k) x then k else (k - 1)%Z.

(** The nearest integer, a tie going to the even one. *)
Definition rne (q : Q) : Z :=
  let f := Qfloor q in
  match (q - inject_Z f ?= 1 # 2)%Q with
  | Lt => f
  | Gt => (f + 1)%Z
  | Eq => if Z.even f then f else (f + 1)%Z
  end.

(** The exponent of the last bit of the significand of [x]: 53 bits of
    precision, and the fixed exponent -1074 of the subnormal numbers. *)
Definition exponent (x : Q) : Z := Z.max (-1074) (ilog2 x - 52).

(** The rounding of a non-negative number. *)
Definition rnd (x : Q) : Q :=
  (inject_Z (rne (x / 2 ^ exponent x)) * 2 ^ exponent x)%Q.

(** The binary64 value nearest to [x]. *)
Definition round64 (x : Q) : Q :=
  if Qle_bool 0 x then rnd x else (- rnd (- x))%Q.

(** The largest finite binary64 number. *)
Definition max64 : Q := (inject_Z (2 ^ 53 - 1) * 2 ^ 971)%Q.

(** [x + y] on numbers. *)
Definition add64 (x y : Q) : Q := round64 (x + y).

(** The numbers a binary64 variable can hold. *)
Definition binary64 (x : Q) : Prop := (round64 x == x)%Q.

(** The rational a finite floating-point number of the Standard Library's
    specification of IEEE 754 arithmetic denotes. *)
Definition SF2Q (f : spec_float) : Q :=
  match f with
  | S754_finite s m e =>
      ((if s then -1 else 1) * inject_Z (Z.pos m) * 2 ^ e)%Q
  | _ => 0%Q
  end.

(** The binary64 number an integer rounds to, and binary64 division and
    addition, in that specification. *)
Definition SF_of_Z (n : Z) : spec_float := binary_normalize 53 1024 n 0 false.

Definition SFdiv64 (x y : spec_float) : spec_float := SFdiv 53 1024 x y.

Definition SFadd64 (x y : spec_float) : spec_float := SFadd 53 1024 x y.

(** *** Audio buffers *)

Record AudioBuffer : Type :=
  { sampleRate : positive; channels : list (list Q) }.

(** Number of sample-frames of a buffer. *)
Definition frames (b : AudioBuffer) : nat :=
  match channels b with
  | [] => 0
  | c :: _ => length c
  end.

(** The length of a buffer in seconds, in exact arithmetic. *)
Definition seconds (b : AudioBuffer) : Q :=
  Z.of_nat (frames b) # sampleRate b.

(** [audioBuffer.duration]: the number of sample-frames divided by the
    sample rate, a binary64 division. *)
Definition duration (b : AudioBuffer) : Q := round64 (seconds b).

(** The inner loop of [decodeAudioData] for one channel:
    [channelData[i] = dataInt16[i * numChannels + channel] / 32768.0]. *)
Definition channelData (dataInt16 : list Z)
    (numChannels frameCount channel : nat) : list Q :=
  map (fun i => nth (i * numChannels + channel) dataInt16 0%Z # 32768)
      (seq 0 frameCount).

(** [decodeAudioData]; [None] stands for a thrown exception: the
    [RangeError] of the [Int16Array] view, or the [NotSupportedError] of
    [createBuffer] for zero channels or zero frames. The model is of calls
    with a sample rate and a number of channels that the platform
    supports: every platform supports the rates from 8000 to 96000 Hz and
    up to 32 channels, and the application calls with 24000 Hz and one
    channel. The [NotSupportedError] of [createBuffer] for a rate or a
    number of channels outside the platform's range is not modelled.
    [frameCount] is what [createBuffer] makes of the quotient: its integer
    part. *)
Definition decodeAudioData (bytes : list Z) (rate : positive)
    (numChannels : nat) : option AudioBuffer :=
  match Int16_of_Uint8 bytes with
  | None => None
  | Some dataInt16 =>
      let frameCount := (length dataInt16 / numChannels)%nat in
      if (numChannels =? 0)%nat || (frameCount =? 0)%nat then None
      else Some {| sampleRate := rate;
                   channels := map (channelData dataInt16 numChannels frameCount)
                                   (seq 0 numChannels) |}
  end.

(** *** Playback scheduling (the [onmessage] callback of the live session) *)

(** One inbound server message as the callback sees it: the inline audio
    payload, whether [outputAudioContextRef.current] is set, and the
    reading of [outputAudioContextRef.current.currentTime]. *)
Record Inbound : Type :=
  { audioData : option string; outputOpen : bool; currentTime : Q }.

(** One call [source.start(when)] made at device time [clock]. *)
Record Scheduled : Type :=
  { when : Q; clock : Q; buffer : AudioBuffer }.

(** [AudioBufferSourceNode.start(when)]: a start time that has already
    passed means that the buffer starts playing immediately. *)
Definition playback_start (e : Scheduled) : Q := Qmax (clock e) (when e).

(** What the callback does with a payload: [decode], then
    [decodeAudioData] at 24 kHz and one channel. *)
Definition decodeInbound (base64 : string) : option AudioBuffer :=
  match decode base64 with
  | Some bytes => decodeAudioData bytes 24000 1
  | None => None
  end.

(** The callback: the new value of [nextStartTime] and the buffer handed to
    the device, if any. [Math.max] is exact; the sum is a binary64
    addition. *)
Definition onmessage (message : Inbound) (nextStartTime : Q)
  : Q * option Scheduled :=
  if truthy_opt (audioData message) && outputOpen message then
    match audioData message with
    | Some base64 =>
        match decodeInbound base64 with
        | Some audioBuffer =>
            (add64 (Qmax (currentTime message) nextStartTime)
                   (duration audioBuffer),
             Some {| when := nextStartTime;
                     clock := currentTime message;
                     buffer := audioBuffer |})
        | None => (nextStartTime, None)
        end
    | None => (nextStartTime, None)
    end
  else (nextStartTime, None).

(** The history of a session: for each message in receipt order, the cursor
    before it, what was scheduled, and the cursor after it. The program
    starts a session with [nextStartTime = 0]. *)
Record Tick : Type :=
  { cursor_before : Q; scheduled : option Scheduled; cursor_after : Q }.

Fixpoint live_session (messages : list Inbound) (nextStartTime : Q)
  : list Tick :=
  match messages with
  | [] => []
  | m :: rest =>
      let '(next, s) := onmessage m nextStartTime in
      {| cursor_before := nextStartTime; scheduled := s; cursor_after := next |}
        :: live_session rest next
  end.

(** The buffers handed to the device, in order. *)
Definition playlist (t : list Tick) : list Scheduled := omap scheduled t.

(** *** The streaming generator ([streamAppContent]) *)

Record InteractionData : Type :=
  { id : string;
    type : string;
    value : option string;
    elementType : string;
    elementText : string;
    appContext : option string }.

(** [chunkInfo.web]; a missing title is the empty string (both are falsy,
    and the title is only tested and rendered). *)
Record WebSource : Type := { uri : string; title : string }.

Record GroundingChunk : Type := { web : option WebSource }.

(** One element of the response stream: [chunk.text] and
    [chunk.candidates?.[0]?.groundingMetadata?.groundingChunks]. *)
Record GenerateContentResponse : Type :=
  { text : option string; groundingChunks : option (list GroundingChunk) }.

(** What the [catch] clause can receive. *)
Inductive Thrown : Type :=
| ErrorObject (message : string)   (* [error instanceof Error] *)
| MessageObject (message : string) (* an object with a string [message] *)
| ThrownString (s : string)
| ThrownOther.

(** The remote generator's answer: the elements delivered in order and, when
    the stream (or the request itself) fails, what was thrown after them. *)
Record ResponseStream : Type :=
  { delivered : list GenerateContentResponse; failure : option Thrown }.

(** A JavaScript [Map<string, string>]: entries in insertion order; [set] on
    an existing key replaces its value and keeps its position. *)
Fixpoint Map_set (k v : string) (m : list (string * string))
  : list (string * string) :=
  match m with
  | [] => [(k, v)]
  | (k', v') :: m' =>
      if String.eqb k' k then (k, v) :: m' else (k', v') :: Map_set k v m'
  end.

(** String literals of the source are written with an apostrophe where the
    source has a double quote; [html] puts the double quotes back. *)
Fixpoint html (s : string) : string :=
  match s with
  | EmptyString => EmptyString
  | String c s' =>
      String (if Ascii.eqb c "'" then ascii_of_nat 34 else c) (html s')
  end.

(** [s.replace(/</g, '&lt;').replace(/>/g, '&gt;')] *)
Fixpoint replace_char (c : ascii) (by_ : string) (s : string) : string :=
  match s with
  | EmptyString => EmptyString
  | String c' s' =>
      if Ascii.eqb c' c then by_ +:+ replace_char c by_ s'
      else String c' (replace_char c by_ s')
  end.

Definition escape_title (t : string) : string :=
  replace_char ">" "&gt;" (replace_char "<" "&lt;" t).

Definition config_error_block : string :=
  html "<div class='p-4 text-red-700 bg-red-100 rounded-lg'>
      <p class='font-bold text-lg'>Configuration Error</p>
      <p class='mt-2'>The API_KEY is not configured. Please set the API_KEY environment variable.</p>
    </div>".

Definition no_interaction_block : string :=
  html "<div class='p-4 text-orange-700 bg-orange-100 rounded-lg'>
      <p class='font-bold text-lg'>No interaction data provided.</p>
    </div>".

Definition errorMessage (e : Thrown) : string :=
  "An error occurred while generating content." +:+
  match e with
  | ErrorObject m => " Details: " +:+ m
  | MessageObject m => " Details: " +:+ m
  | ThrownString s => " Details: " +:+ s
  | ThrownOther => EmptyString
  end.

Definition error_block (e : Thrown) : string :=
  html "<div class='p-4 text-red-700 bg-red-100 rounded-lg'>
      <p class='font-bold text-lg'>Error Generating Content</p>
      <p class='mt-2'>" +:+ errorMessage e +:+ html "</p>
      <p class='mt-1'>This may be due to an API key issue, network problem, or misconfiguration. Please check the developer console for more details.</p>
    </div>".

(** [m.get(k)] *)
Definition Map_get (k : string) (m : list (string * string)) : option string :=
  snd <$> find (fun entry => String.eqb (fst entry) k) m.

(** The inner loop over [groundingMetadata.groundingChunks]. *)
Definition collect (g : option (list GroundingChunk))
    (allGroundingChunks : list (string * string)) : list (string * string) :=
  match g with
  | None => allGroundingChunks
  | Some l =>
      fold_left (fun m chunkInfo =>
                   match web chunkInfo with
                   | Some w => Map_set (uri w) (title w) m
                   | None => m
                   end) l allGroundingChunks
  end.

(** The [for await] loop: the fragments yielded so far and the map. *)
Fixpoint consume (response : list GenerateContentResponse)
    (allGroundingChunks : list (string * string))
  : list string * list (string * string) :=
  match response with
  | [] => ([], allGroundingChunks)
  | chunk :: rest =>
      let '(ys, m) := consume rest (collect (groundingChunks chunk)
                                            allGroundingChunks) in
      (match text chunk with
       | Some t => if truthy t then t :: ys else ys
       | None => ys
       end, m)
  end.

Definition sources_header : string :=
  html "<div class='llm-container mt-4 border-t pt-2'><h3 class='llm-title text-base'>Sources</h3><ul class='list-disc list-inside'>".

Definition sources_footer : string := "</ul></div>".

Section Generator.

(** The platform's [encodeURI]. *)
Variable encodeURI : string -> string.

Definition source_item (entry : string * string) : string :=
  let '(u, t) := entry in
  let safeUri := encodeURI u in
  let safeTitle := if truthy t then escape_title t else safeUri in
  html "<li class='llm-text text-sm ml-2'><a href='" +:+ safeUri +:+
  html "' target='_blank' rel='noopener noreferrer' class='text-blue-600 hover:underline'>"
  +:+ safeTitle +:+ "</a></li>".

Definition sourcesHtml (allGroundingChunks : list (string * string))
  : string :=
  sources_header
  +:+ String.concat EmptyString (map source_item allGroundingChunks)
  +:+ sources_footer.

(** The fragments yielded by the generator, in order. [API_KEY] tells
    whether [process.env.API_KEY] is set. The prompt sent to the remote
    generator is built from the three arguments; [response] is what the
    remote generator answers to it. *)
Definition streamAppContent (API_KEY : bool)
    (interactionHistory : list InteractionData)
    (currentMaxHistoryLength : Z) (previousContent : option string)
    (response : ResponseStream) : list string :=
  if negb API_KEY then [config_error_block]
  else if (length interactionHistory =? 0)%nat then [no_interaction_block]
  else
    let '(ys, allGroundingChunks) := consume (delivered response) [] in
    match failure response with
    | None =>
        if (0 <? length allGroundingChunks)%nat
        then ys ++ [sourcesHtml allGroundingChunks]
        else ys
    | Some e => ys ++ [error_block e]
    end.

End Generator.

(** *** The application state ([App.tsx]) *)

Record AppDefinition : Type :=
  { app_id : string;
    app_name : string;
    icon : string;
    description : string;
    color : string }.

(** The state cells of the [App] component that the handlers below use.
    [appContentCache] is the [Record<string, string>] keyed by the joined
    interaction path. *)
Record AppState : Type :=
  { activeApp : option AppDefinition;
    llmContent : string;
    isLoading : bool;
    error : option string;
    interactionHistory : list InteractionData;
    appContentCache : gmap string string;
    currentAppPath : list string }.

Definition initial_state : AppState :=
  {| activeApp := None;
     llmContent := EmptyString;
     isLoading := false;
     error := None;
     interactionHistory := [];
     appContentCache := ∅;
     currentAppPath := [] |}.

Definition setActiveApp (a : option AppDefinition) (st : AppState) : AppState :=
  {| activeApp := a;
     llmContent := llmContent st;
     isLoading := isLoading st;
     error := error st;
     interactionHistory := interactionHistory st;
     appContentCache := appContentCache st;
     currentAppPath := currentAppPath st |}.

(** [setLlmContent] with an updater function; a plain value [v] is the
    updater [fun _ => v]. *)
Definition setLlmContent (f : string -> string) (st : AppState) : AppState :=
  {| activeApp := activeApp st;
     llmContent := f (llmContent st);
     isLoading := isLoading st;
     error := error st;
     interactionHistory := interactionHistory st;
     appContentCache := appContentCache st;
     currentAppPath := currentAppPath st |}.

Definition setIsLoading (b : bool) (st : AppState) : AppState :=
  {| activeApp := activeApp st;
     llmContent := llmContent st;
     isLoading := b;
     error := error st;
     interactionHistory := interactionHistory st;
     appContentCache := appContentCache st;
     currentAppPath := currentAppPath st |}.

Definition setError (e : option string) (st : AppState) : AppState :=
  {| activeApp := activeApp st;
     llmContent := llmContent st;
     isLoading := isLoading st;
     error := e;
     interactionHistory := interactionHistory st;
     appContentCache := appContentCache st;
     currentAppPath := currentAppPath st |}.

Definition setInteractionHistory (h : list InteractionData) (st : AppState)
  : AppState :=
  {| activeApp := activeApp st;
     llmContent := llmContent st;
     isLoading := isLoading st;
     error := error st;
     interactionHistory := h;
     appContentCache := appContentCache st;
     currentAppPath := currentAppPath st |}.

Definition setAppContentCache (f : gmap string string -> gmap string string)
    (st : AppState) : AppState :=
  {| activeApp := activeApp st;
     llmContent := llmContent st;
     isLoading := isLoading st;
     error := error st;
     interactionHistory := interactionHistory st;
     appContentCache := f (appContentCache st);
     currentAppPath := currentAppPath st |}.

Definition setCurrentAppPath (p : list string) (st : AppState) : AppState :=
  {| activeApp := activeApp st;
     llmContent := llmContent st;
     isLoading := isLoading st;
     error := error st;
     interactionHistory := interactionHistory st;
     appContentCache := appContentCache st;
     currentAppPath := p |}.

(** [activeApp?.id] *)
Definition activeAppId (st : AppState) : option string :=
  match activeApp st with Some a => Some (app_id a) | None => None end.

Definition is_task_handoff (appId : option string) : bool :=
  match appId with
  | Some i => String.eqb i "task_handoff_app"
  | None => false
  end.

(** [path.join('__')] *)
Definition cacheKeyOf (path : list string) : string := String.concat "__" path.

(** The cache read of both handlers: [appContentCache[cacheKey]] when it is
    truthy and the app is not [task_handoff_app]. [handleInteraction] passes
    [activeApp?.id], [handleAppOpen] passes [app.id]. *)
Definition cache_read (cache : gmap string string) (appId : option string)
    (cacheKey : string) : option string :=
  match cache !! cacheKey with
  | Some c => if truthy c && negb (is_task_handoff appId) then Some c else None
  | None => None
  end.

(** The effect that caches content when loading finishes; it runs after
    every render. *)
Definition cacheEffect (st : AppState) : AppState :=
  if is_task_handoff (activeAppId st) then st
  else if negb (isLoading st) && (0 <? length (currentAppPath st))%nat
          && truthy (llmContent st) then
    let cacheKey := cacheKeyOf (currentAppPath st) in
    if bool_decide (appContentCache st !! cacheKey = Some (llmContent st))
    then st
    else setAppContentCache
           (fun prevCache => <[cacheKey := llmContent st]> prevCache) st
  else st.

(** [handleCloseAppView], without the audio handles. *)
Definition handleCloseAppView (st : AppState) : AppState :=
  setIsLoading false
    (setCurrentAppPath []
       (setInteractionHistory []
          (setError None
             (setLlmContent (fun _ => EmptyString) (setActiveApp None st))))).

(** The arguments of one call of [streamAppContent]. *)
Record GenRequest : Type :=
  { historyForLlm : list InteractionData;
    maxHistoryLength : Z;
    previousContent : option string }.

(** [internalHandleLlmRequest] up to its first suspension: the state it
    leaves and the stream it opened, if any. *)
Definition internalHandleLlmRequest (history : list InteractionData)
    (maxLen : Z) (previous : option string) (st : AppState)
  : AppState * option GenRequest :=
  if (length history =? 0)%nat
  then (setError (Some "No interaction data to process."%string) st, None)
  else (setError None (setIsLoading true st),
        Some {| historyForLlm := history;
                maxHistoryLength := maxLen;
                previousContent := previous |}).

(** The body of its [for await] loop, for one fragment. *)
Definition onChunk (chunk : string) (st : AppState) : AppState :=
  setLlmContent (fun prev => prev +:+ chunk) st.

Definition error_loading_block : string :=
  html "<div class='p-4 text-red-600 bg-red-100 rounded-md'>Error loading content.</div>".

(** Its [catch] clause. *)
Definition onStreamThrow (st : AppState) : AppState :=
  setLlmContent (fun _ => error_loading_block)
    (setError (Some "Failed to stream content from the API."%string) st).

(** Its [finally] clause. *)
Definition onStreamFinally (st : AppState) : AppState := setIsLoading false st.

(** [array.slice(0, e)] *)
Definition slice0 {A : Type} (l : list A) (e : Z) : list A :=
  let len := Z.of_nat (length l) in
  let k := if (e <? 0)%Z then Z.max (len + e) 0 else Z.min e len in
  firstn (Z.to_nat k) l.

(** The interactions that [handleInteraction] serves on their own branch
    (image, video, live session, app installation) and that return before
    the history and the path are touched. *)
Definition is_media_action (d : InteractionData) : bool :=
  (String.eqb (id d) "generate_imagen_action" && truthy_opt (value d))
  || (String.eqb (id d) "generate_veo_action" && truthy_opt (value d))
  || String.eqb (id d) "start-live-session"
  || String.eqb (id d) "stop-live-session"
  || (String.eqb (id d) "install_new_app_action" && truthy_opt (value d)).

(** The record [handleAppOpen] builds for the opened app. *)
Definition initialInteraction (app : AppDefinition) : InteractionData :=
  {| id := app_id app;
     type := "app_open";
     value := None;
     elementType := "icon";
     elementText := app_name app;
     appContext := Some (app_id app) |}.

Section App.

(** The constant of [constants.ts]. *)
Variable MAX_HISTORY_LENGTH : Z.

Definition handleAppOpen (app : AppDefinition) (st : AppState)
  : AppState * option GenRequest :=
  let newHistory := [initialInteraction app] in
  let st1 := setInteractionHistory newHistory st in
  let appPath := [app_id app] in
  let st2 := setCurrentAppPath appPath st1 in
  let cacheKey := cacheKeyOf appPath in
  let st3 :=
    setError None
      (setLlmContent (fun _ => EmptyString) (setActiveApp (Some app) st2)) in
  match cache_read (appContentCache st) (Some (app_id app)) cacheKey with
  | Some cached =>
      (setIsLoading false (setLlmContent (fun _ => cached) st3), None)
  | None => internalHandleLlmRequest newHistory MAX_HISTORY_LENGTH None st3
  end.

(** [handleInteraction]. The media branches only call [setLlmContent],
    [setIsLoading] and [setError] (and [handleCloseAppView] after an
    installation), at times that depend on remote calls: those calls are
    events of their own, see [Event]. *)
Definition handleInteraction (interactionData : InteractionData)
    (st : AppState) : AppState * option GenRequest :=
  if is_media_action interactionData then (st, None)
  else if String.eqb (id interactionData) "app_close_button"
  then (handleCloseAppView st, None)
  else
    let previous := llmContent st in
    let newHistory :=
      interactionData
        :: slice0 (interactionHistory st) (MAX_HISTORY_LENGTH - 1) in
    let st1 := setInteractionHistory newHistory st in
    let newPath :=
      match activeApp st with
      | Some _ => currentAppPath st ++ [id interactionData]
      | None => [id interactionData]
      end in
    let st2 := setCurrentAppPath newPath st1 in
    let cacheKey := cacheKeyOf newPath in
    let st3 := setError None (setLlmContent (fun _ => EmptyString) st2) in
    match cache_read (appContentCache st) (activeAppId st) cacheKey with
    | Some cached =>
        (setIsLoading false (setLlmContent (fun _ => cached) st3), None)
    | None =>
        internalHandleLlmRequest newHistory MAX_HISTORY_LENGTH
          (Some previous) st3
    end.

(** What the event loop can run. [gen] names the generation (the call of
    [internalHandleLlmRequest]) a stream callback belongs to; the
    callbacks themselves do not look at it. *)
Inductive Event : Type :=
| AppOpen (app : AppDefinition)
| Interaction (interactionData : InteractionData)
| ExitToDesktop
| Fragment (gen : nat) (chunk : string)
| StreamThrew (gen : nat)
| StreamSettled (gen : nat)
| MediaContent (update : string -> string)
| MediaLoading (loading : bool)
| MediaError (err : option string).

Definition handle (e : Event) (st : AppState)
  : AppState * option GenRequest :=
  match e with
  | AppOpen app => handleAppOpen app st
  | Interaction d => handleInteraction d st
  | ExitToDesktop => (handleCloseAppView st, None)
  | Fragment _ chunk => (onChunk chunk st, None)
  | StreamThrew _ => (onStreamThrow st, None)
  | StreamSettled _ => (onStreamFinally st, None)
  | MediaContent f => (setLlmContent f st, None)
  | MediaLoading b => (setIsLoading b st, None)
  | MediaError e => (setError e st, None)
  end.

(** One task of the event loop, then the render and its effect. *)
Definition step (st : AppState) (e : Event) : AppState :=
  cacheEffect (fst (handle e st)).

Definition run (es : list Event) (st : AppState) : AppState :=
  fold_left step es st.

(** The callbacks of one generation whose stream yields [fragments] and
    then ends. *)
Definition generation (gen : nat) (fragments : list string) : list Event :=
  map (Fragment gen) fragments ++ [StreamSettled gen].

End App.

(** *** The contracts as the specification words them *)

(** Rounding to the nearest integer, halves upward. *)
Definition spec_round (q : Q) : Z := Qfloor (q + (1 # 2)).

Definition spec_clip16 (n : Z) : Z := Z.max (-32768) (Z.min 32767 n).

(** "round(s * 32768) clipped to the 16-bit signed range" *)
Definition spec_pcm (q : Q) : Z := spec_clip16 (spec_round (q * 32768)).

(** The citations of a response stream in arrival order. *)
Definition citations (response : list GenerateContentResponse)
  : list WebSource :=
  flat_map (fun chunk =>
              match groundingChunks chunk with
              | Some l => omap web l
              | None => []
              end) response.

(** The title of the first citation of [u]. *)
Definition first_seen (u : string) (cites : list WebSource) : option string :=
  title <$> find (fun w => String.eqb (uri w) u) cites.

(** The title of the last citation of [u]. *)
Definition last_seen (u : string) (cites : list WebSource) : option string :=
  first_seen u (rev cites).

(** *** Predicates and sample data of the statements *)

(** The range of a [Uint8Array] element. *)
Definition is_byte (b : Z) : Prop := (0 <= b < 256)%Z.

(** The check that the [k]-th character of the alphabet decodes to [k]
    and is neither the padding character nor whitespace. *)
Definition b64_digit_ok (k : nat) : bool :=
  match b64_value (b64_char (Z.of_nat k)) with
  | Some m => (m =? Z.of_nat k)%Z
  | None => false
  end && negb (Ascii.eqb (b64_char (Z.of_nat k)) "=")
  && negb (is_ascii_whitespace (b64_char (Z.of_nat k))).

(** What one message does to the cursor and to the device. A truthy payload
    that decodes while the output context is set is handed to the device
    with the cursor as requested start, so that it starts playing at
    max(device clock, cursor), and the cursor becomes that start plus the
    buffer's duration, a binary64 sum. Any other message schedules nothing
    and leaves the cursor. *)
Definition handled (m : Inbound) (k : Tick) : Prop :=
  match scheduled k with
  | Some e =>
      outputOpen m = true
      /\ (exists base64,
             audioData m = Some base64 /\ truthy base64 = true
             /\ decodeInbound base64 = Some (buffer e))
      /\ when e = cursor_before k
      /\ clock e = currentTime m
      /\ playback_start e = Qmax (currentTime m) (cursor_before k)
      /\ cursor_after k
         = add64 (Qmax (currentTime m) (cursor_before k)) (duration (buffer e))
  | None =>
      cursor_after k = cursor_before k
      /\ (outputOpen m = false
          \/ truthy_opt (audioData m) = false
          \/ exists base64,
               audioData m = Some base64 /\ decodeInbound base64 = None)
  end.

(** Neither the requested nor the effective playback intervals of two
    consecutive buffers overlap, the end of an interval being the
    binary64 sum of its start and the buffer's duration. *)
Definition back_to_back (a b : Scheduled) : Prop :=
  (add64 (playback_start a) (duration (buffer a)) <= playback_start b)%Q
  /\ (add64 (when a) (duration (buffer a)) <= when b)%Q.

(** One [allGroundingChunks.set(chunkInfo.web.uri, chunkInfo.web.title)]. *)
Definition set_source (m : list (string * string)) (w : WebSource)
  : list (string * string) := Map_set (uri w) (title w) m.

(** A stream whose two fragments cite one URI under two titles. *)
Definition two_titles : ResponseStream :=
  {| delivered :=
       [ {| text := Some "<p>a</p>"%string;
            groundingChunks :=
              Some [ {| web := Some {| uri := "https://example.org/";
                                       title := "First" |} |} ] |};
         {| text := Some "<p>b</p>"%string;
            groundingChunks :=
              Some [ {| web := Some {| uri := "https://example.org/";
                                       title := "Second" |} |} ] |} ];
     failure := None |}.

(** A click on a button of generated content. *)
Definition a_click : InteractionData :=
  {| id := "search_button";
     type := "generic_click";
     value := None;
     elementType := "button";
     elementText := "Search";
     appContext := Some "web_browser_app"%string |}.

(** No entry of the cache is the empty string. *)
Definition cache_nonempty (m : gmap string string) : Prop :=
  map_Forall (fun _ v => truthy v = true) m.

(** The interactions that reach the standard branch of
    [handleInteraction]. *)
Definition is_click (d : InteractionData) : Prop :=
  is_media_action d = false /\ String.eqb (id d) "app_close_button" = false.

(** The events that leave the active app open. *)
Definition stays_in_app (e : Event) : bool :=
  match e with
  | AppOpen _ => false
  | ExitToDesktop => false
  | Interaction d => negb (String.eqb (id d) "app_close_button")
  | _ => true
  end.

(** Two entries of the app list. *)
Definition calendar_app : AppDefinition :=
  {| app_id := "calendar_app";
     app_name := "Calendar";
     icon := "C";
     description := "A calendar";
     color := "#e0e0e0" |}.

(** A stream that delivers one text fragment and then fails. *)
Definition broken_stream : ResponseStream :=
  {| delivered :=
       [ {| text := Some "<h1>Cal"%string; groundingChunks := None |} ];
     failure := Some (ErrorObject "network down") |}.

(** Opening the calendar from the initial state and letting the generator
    answer with [broken_stream]. *)
Definition failed_visit : AppState :=
  run 10
    (AppOpen calendar_app
       :: generation 0
            (streamAppContent (fun s => s) true
               [initialInteraction calendar_app] 10 None broken_stream))
    initial_state.

Definition task_handoff_app : AppDefinition :=
  {| app_id := "task_handoff_app";
     app_name := "Task Handoff";
     icon := "T";
     description := "An agent";
     color := "#e0e0e0" |}.

(** *** The rest of the generator and of the component *)

(** The tool configuration of [streamAppContent]: [config.tools]. *)
Inductive Tool : Type := googleSearch.

Definition isTaskHandoffAgentActive (currentInteraction : InteractionData)
  : bool :=
  bool_decide (appContext currentInteraction = Some "task_handoff_app"%string)
  && negb (String.eqb (type currentInteraction) "app_open").

Definition isWebBrowserActive (currentInteraction : InteractionData) : bool :=
  bool_decide (appContext currentInteraction = Some "web_browser_app"%string)
  && negb (String.eqb (type currentInteraction) "app_open").

(** [config.tools] for a non-empty history ([None]: the key is not set);
    [currentInteraction] is [interactionHistory[0]]. *)
Definition config_tools (interactionHistory : list InteractionData)
  : option (list Tool) :=
  match interactionHistory with
  | [] => None
  | currentInteraction :: _ =>
      if isTaskHandoffAgentActive currentInteraction
         || isWebBrowserActive currentInteraction
      then Some [googleSearch]
      else None
  end.

(** The text fragments the [for await] loop yields: [chunk.text] of every
    delivered element for which it is truthy. *)
Definition texts (response : list GenerateContentResponse) : list string :=
  flat_map (fun chunk =>
              match text chunk with
              | Some t => if truthy t then [t] else []
              | None => []
              end) response.

(** The strings of a list in the order of their first occurrences. *)
Fixpoint distinct (l : list string) : list string :=
  match l with
  | [] => []
  | x :: l' => x :: List.filter (fun y => negb (String.eqb y x)) (distinct l')
  end.

(** Whether the string is an element of the list. *)
Definition mem (u : string) (l : list string) : bool :=
  existsb (String.eqb u) l.

(** Whether the character occurs in the string. *)
Fixpoint occurs (c : ascii) (s : string) : bool :=
  match s with
  | EmptyString => false
  | String c' s' => Ascii.eqb c' c || occurs c s'
  end.

(** The path [handleInteraction] computes for a click. *)
Definition newPath (st : AppState) (interactionData : InteractionData)
  : list string :=
  match activeApp st with
  | Some _ => currentAppPath st ++ [id interactionData]
  | None => [id interactionData]
  end.

(** While an app is open, the path starts with the app's id and the history
    lists the identifiers of the path, newest first, cut at [H]. *)
Definition tracked (H : Z) (st : AppState) : Prop :=
  forall a, activeApp st = Some a ->
    (exists rest, currentAppPath st = app_id a :: rest)
    /\ map id (interactionHistory st)
       = firstn (Z.to_nat H) (rev (currentAppPath st)).

(** The buffer that a message makes the callback play, if any: the
    decoded payload, when it is truthy and the output context is set. *)
Definition payload (m : Inbound) : option AudioBuffer :=
  if truthy_opt (audioData m) && outputOpen m then
    match audioData m with
    | Some base64 => decodeInbound base64
    | None => None
    end
  else None.

(** That buffer with the reading of the device clock. *)
Definition played (m : Inbound) : option (Q * AudioBuffer) :=
  match payload m with
  | Some audioBuffer => Some (currentTime m, audioBuffer)
  | None => None
  end.

(** The sum of the durations of buffers as the program adds them: one
    after the other onto [c], in binary64. *)
Definition total_duration (c : Q) (p : list AudioBuffer) : Q :=
  fold_left (fun acc audioBuffer => add64 acc (duration audioBuffer)) p c.

(** The value of [nextStartTime] after the session. *)
Definition final_cursor (t : list Tick) (nextStartTime : Q) : Q :=
  List.last (map cursor_after t) nextStartTime.

(** A buffer whose requested start has not passed when it is handed over. *)
Definition on_time (e : Scheduled) : Prop := (clock e <= when e)%Q.

(** The exact time at which a buffer that is played to its end stops. *)
Definition playback_end (e : Scheduled) : Q :=
  (playback_start e + seconds (buffer e))%Q.

(** *** The click listener of the generated content ([GeneratedContent.tsx]) *)

(** What the listener reads of an element: its tag name, its [dataset]
    entries, its [innerText] and, for a form control, its [value]. *)
Record Element : Type :=
  { tagName : string;
    interactionId : option string;
    interactionType : option string;
    interactionValue : option string;
    valueFrom : option string;
    innerText : string;
    controlValue : option string }.

(** The [while] loop: the first element, from the target upward and below
    the container, that has a truthy [data-interaction-id]. *)
Fixpoint nearest (chain : list Element) : option Element :=
  match chain with
  | [] => None
  | el :: parents =>
      if truthy_opt (interactionId el) then Some el else nearest parents
  end.

(** [s.startsWith('{')] *)
Definition startsWith_brace (s : string) : bool :=
  match s with
  | String c _ => Ascii.eqb c "{"
  | EmptyString => false
  end.

(** [a || b] on possibly-undefined strings, then [|| ''] *)
Definition text_or_value (el : Element) : string :=
  if truthy (innerText el) then innerText el
  else match controlValue el with
       | Some v => v
       | None => EmptyString
       end.

Section Click.

(** The platform's [String.prototype.trim] and [toLowerCase]. *)
Variable trim : string -> string.
Variable toLowerCase : string -> string.

(** [document.getElementById(id)] as the listener uses it: [None] when
    there is no such element, and otherwise the [value] of the element,
    which is [undefined] ([None]) for an element that is not a form
    control. *)
Variable getElementById : string -> option (option string).

(** The [try] block of the JSON case: the stringified values of the inputs
    named by the map, [None] when [JSON.parse] throws. *)
Variable valuesOf : string -> option string.

(** The value sent with the interaction. *)
Definition resolveValue (el : Element) : option string :=
  match valueFrom el with
  | Some from =>
      if truthy from then
        if startsWith_brace (trim from) then
          match valuesOf from with
          | Some v => Some v
          | None => interactionValue el
          end
        else
          match getElementById from with
          | Some inputElement_value => inputElement_value
          | None => interactionValue el
          end
      else interactionValue el
  | None => interactionValue el
  end.

(** [handleClick]: [chain] is the event target followed by its ancestors
    below the container; the result is the argument of [onInteract], if it
    is called. *)
Definition handleClick (appContextProp : option string)
    (chain : list Element) : option InteractionData :=
  match chain with
  | [] => None
  | target :: _ =>
      if (String.eqb (tagName target) "INPUT"
          || String.eqb (tagName target) "TEXTAREA")
         && negb (truthy_opt (interactionId target))
      then None
      else
        match nearest chain with
        | None => None
        | Some el =>
            Some {| id := match interactionId el with
                          | Some i => i
                          | None => EmptyString
                          end;
                    type := match interactionType el with
                            | Some t => if truthy t then t else "generic_click"
                            | None => "generic_click"
                            end;
                    value := resolveValue el;
                    elementType := toLowerCase (tagName el);
                    elementText :=
                      String.substring 0 75 (trim (text_or_value el));
                    appContext := appContextProp |}
        end
  end.

End Click.

(** A stream whose fragments cite three URIs, one of them twice. *)
Definition three_sources : ResponseStream :=
  {| delivered :=
       [ {| text := Some "<p>a</p>"%string;
            groundingChunks :=
              Some [ {| web := Some {| uri := "https://b.example/";
                                       title := "B" |} |};
                     {| web := Some {| uri := "https://a.example/";
                                       title := "A" |} |} ] |};
         {| text := None;
            groundingChunks :=
              Some [ {| web := Some {| uri := "https://b.example/";
                                       title := "B again" |} |};
                     {| web := None |};
                     {| web := Some {| uri := "https://c.example/";
                                       title := "<C>" |} |} ] |} ];
     failure := None |}.

(** The browser app of the app list. *)
Definition web_browser_app : AppDefinition :=
  {| app_id := "web_browser_app";
     app_name := "Web";
     icon := "W";
     description := "A browser";
     color := "#e0e0e0" |}.

(** The range of a decoded sample. *)
Definition normalized (x : Q) : Prop := (-1 <= x)%Q /\ (x < 1)%Q.

(** The range of an [Int16Array] element. *)
Definition is_int16 (v : Z) : Prop := (-32768 <= v <= 32767)%Z.

(** A button inside a paragraph, and a text input inside a button. *)
Definition a_button : Element :=
  {| tagName := "BUTTON";
     interactionId := Some "search_button"%string;
     interactionType := None;
     interactionValue := None;
     valueFrom := None;
     innerText := "Search";
     controlValue := None |}.

Definition a_span : Element :=
  {| tagName := "SPAN";
     interactionId := None;
     interactionType := None;
     interactionValue := None;
     valueFrom := None;
     innerText := "Search";
     controlValue := None |}.

Definition an_input : Element :=
  {| tagName := "INPUT";
     interactionId := None;
     interactionType := None;
     interactionValue := None;
     valueFrom := None;
     innerText := EmptyString;
     controlValue := Some "typed"%string |}.

(** The elements of a chain that have no truthy [data-interaction-id]. *)
Definition inert (el : Element) : Prop :=
  truthy_opt (interactionId el) = false.

(** A stream that ends normally without text and without citations. *)
Definition silent_stream : ResponseStream :=
  {| delivered := [ {| text := None; groundingChunks := None |};
                    {| text := Some EmptyString; groundingChunks := Some [] |} ];
     failure := None |}.

(** The check that [round64] and [add64] give, step by step, the values of
    the Standard Library's binary64 division and addition on the running
    sum of the durations of buffers of [ns] frames at 24 kHz. *)
Fixpoint sums_agree (ns : list Z) (q : Q) (f : spec_float) : bool :=
  match ns with
  | [] => true
  | n :: rest =>
      let d := round64 (n # 24000) in
      let df := SFdiv64 (SF_of_Z n) (SF_of_Z 24000) in
      Qeq_bool d (SF2Q df)
      && Qeq_bool (add64 q d) (SF2Q (SFadd64 f df))
      && sums_agree rest (add64 q d) (SFadd64 f df)
  end.

(** Payloads of 2, 1 and 3 frames of silence received at device time [t],
    and a message without audio. *)
Definition frames2 (t : Q) : Inbound :=
  {| audioData := Some "AAAAAA=="%string; outputOpen := true;
     currentTime := t |}.

Definition frames1 (t : Q) : Inbound :=
  {| audioData := Some "AAA="%string; outputOpen := true; currentTime := t |}.

Definition frames3 (t : Q) : Inbound :=
  {| audioData := Some "AAAAAAAA"%string; outputOpen := true;
     currentTime := t |}.

Definition no_audio (t : Q) : Inbound :=
  {| audioData := None; outputOpen := true; currentTime := t |}.

(** Three payloads received at device times 5, 5 and 9. *)
Definition three_buffers : list Inbound := [frames2 5; frames1 5; frames3 9].

(** Two payloads with a message without audio in between, all received
    before the device clock has left 0. *)
Definition prompt_buffers : list Inbound := [frames2 0; no_audio 0; frames1 0].

(** Two frames of silence, and one. *)
Definition silence2 : AudioBuffer :=
  {| sampleRate := 24000; channels := [[0 # 32768; 0 # 32768]] |}.

Definition silence1 : AudioBuffer :=
  {| sampleRate := 24000; channels := [[0 # 32768]] |}.

(** ** Part II: properties *)

(** *** Arithmetic of the PCM conversion *)

Ltac euclid := Z.to_euclidean_division_equations; nia.

Lemma wrap16_range (n : Z) : (-32768 <= wrap16 n <= 32767)%Z.
Proof.
  unfold wrap16. destruct (Z.leb_spec 32768 (n mod 65536)); euclid.
Qed.

Lemma wrap16_id (v : Z) : (-32768 <= v <= 32767)%Z -> wrap16 v = v.
Proof.
  intros Hv. unfold wrap16.
  destruct (Z.leb_spec 32768 (v mod 65536)); euclid.
Qed.

Lemma trunc_close (q : Q) : (Qabs (q - inject_Z (trunc q)) < 1)%Q.
Proof.
  destruct q as [a b].
  unfold trunc, Qlt, Qabs, Qminus, Qplus, Qopp, inject_Z. simpl. euclid.
Qed.

Lemma trunc_scaled_range (q : Q) :
  (-1 <= q)%Q -> (q < 1)%Q -> (-32768 <= trunc (q * 32768) <= 32767)%Z.
Proof.
  destruct q as [a b]. unfold Qle, Qlt, trunc. simpl. intros H1 H2. euclid.
Qed.

Lemma trunc_sign (q : Q) :
  ((0 <= q)%Q -> (0 <= trunc q)%Z) /\ ((q <= 0)%Q -> (trunc q <= 0)%Z).
Proof.
  destruct q as [a b]. unfold Qle, trunc. simpl. split; intros H; euclid.
Qed.

Lemma trunc_near_round (q : Q) : (Z.abs (trunc q - spec_round q) <= 1)%Z.
Proof.
  destruct q as [a b]. unfold trunc, spec_round, Qfloor, Qplus. simpl. euclid.
Qed.

(** C3 (amended). For a finite sample [q] with [-1 <= q < 1] the encoder
    stores [q * 32768] truncated toward zero: the stored value lies in the
    signed 16-bit range, is less than one unit away from [q * 32768], has the
    sign of [q], and is at most one unit away from the rounded and clipped
    value of the specification. *)
Theorem pcm_encoder_in_range (q : Q) :
  (-1 <= q)%Q -> (q < 1)%Q ->
  int16_of_sample (Finite q) = trunc (q * 32768)
  /\ (-32768 <= int16_of_sample (Finite q) <= 32767)%Z
  /\ (Qabs (q * 32768 - inject_Z (int16_of_sample (Finite q))) < 1)%Q
  /\ ((0 <= q)%Q -> (0 <= int16_of_sample (Finite q))%Z)
  /\ ((q <= 0)%Q -> (int16_of_sample (Finite q) <= 0)%Z)
  /\ (Z.abs (int16_of_sample (Finite q) - spec_pcm q) <= 1)%Z.
Proof.
  intros Hlo Hhi.
  pose proof (trunc_scaled_range q Hlo Hhi) as Hr.
  assert (He : int16_of_sample (Finite q) = trunc (q * 32768)).
  { unfold int16_of_sample. simpl. now apply wrap16_id. }
  rewrite He. split; [reflexivity|]. split; [exact Hr|].
  split; [apply trunc_close|].
  destruct (trunc_sign (q * 32768)) as [Hpos Hneg].
  split; [|split].
  - intros H0. apply Hpos. revert H0.
    destruct q as [a b]. unfold Qle. simpl. lia.
  - intros H0. apply Hneg. revert H0.
    destruct q as [a b]. unfold Qle. simpl. lia.
  - pose proof (trunc_near_round (q * 32768)) as Hn.
    unfold spec_pcm, spec_clip16. lia.
Qed.

Lemma pcm_encoder_in_range_witness :
  (-1 <= 1 # 2)%Q /\ (1 # 2 < 1)%Q
  /\ int16_of_sample (Finite (1 # 2)) = trunc ((1 # 2) * 32768)
  /\ (-32768 <= int16_of_sample (Finite (1 # 2)) <= 32767)%Z
  /\ (Qabs ((1 # 2) * 32768 - inject_Z (int16_of_sample (Finite (1 # 2)))) < 1)%Q
  /\ ((0 <= 1 # 2)%Q -> (0 <= int16_of_sample (Finite (1 # 2)))%Z)
  /\ ((1 # 2 <= 0)%Q -> (int16_of_sample (Finite (1 # 2)) <= 0)%Z)
  /\ (Z.abs (int16_of_sample (Finite (1 # 2)) - spec_pcm (1 # 2)) <= 1)%Z.
Proof.
  split; [discriminate|]. split; [reflexivity|].
  apply (pcm_encoder_in_range (1 # 2)); [discriminate | reflexivity].
Defined.

(** C3, as stated, fails: a sample of exactly 1 is stored as -32768 where
    the clipped value is 32767, and a sample of 3/131072 (0.75 units) is
    stored as 0 where the rounded value is 1. *)
Lemma pcm_encoder_wraps_and_truncates :
  int16_of_sample (Finite 1) = (-32768)%Z
  /\ spec_pcm 1 = 32767%Z
  /\ int16_of_sample (Finite (3 # 131072)) = 0%Z
  /\ spec_pcm (3 # 131072) = 1%Z
  /\ ~ (forall q : Q, int16_of_sample (Finite q) = spec_pcm q).
Proof.
  repeat split; try reflexivity.
  intros H. specialize (H 1%Q). vm_compute in H. discriminate.
Qed.

(** *** Base64 and the byte views *)

Lemma b64_digits_ok : forallb b64_digit_ok (seq 0 64) = true.
Proof. vm_compute. reflexivity. Qed.

Lemma b64_value_char (n : Z) :
  (0 <= n < 64)%Z ->
  b64_value (b64_char n) = Some n
  /\ Ascii.eqb (b64_char n) "=" = false
  /\ is_ascii_whitespace (b64_char n) = false.
Proof.
  intros Hn.
  pose proof (proj1 (forallb_forall _ _) b64_digits_ok (Z.to_nat n)) as H.
  assert (Hin : In (Z.to_nat n) (seq 0 64)) by (apply in_seq; lia).
  specialize (H Hin). unfold b64_digit_ok in H.
  rewrite Z2Nat.id in H by lia.
  apply andb_prop in H as [H H3]. apply andb_prop in H as [H1 H2].
  destruct (b64_value (b64_char n)) as [m|]; [|discriminate].
  apply Z.eqb_eq in H1. subst m. split; [reflexivity|]. split.
  - now destruct (Ascii.eqb (b64_char n) "=").
  - now destruct (is_ascii_whitespace (b64_char n)).
Qed.

Lemma list_ind3 {A : Type} (P : list A -> Prop) :
  P [] -> (forall a, P [a]) -> (forall a b, P [a; b]) ->
  (forall a b c l, P l -> P (a :: b :: c :: l)) ->
  forall l, P l.
Proof.
  intros H0 H1 H2 H3.
  fix IH 1. intros [|a [|b [|c l]]].
  - exact H0.
  - apply H1.
  - apply H2.
  - apply H3, IH.
Qed.

(** The text [btoa] makes: the characters of a list of six-bit values that
    [octets] turns back into the bytes, then the padding. *)
Lemma btoa_shape (bs : list Z) :
  Forall is_byte bs ->
  exists (v : list Z) (pad : list ascii),
    list_ascii_of_string (btoa bs) = map b64_char v ++ pad
    /\ Forall (fun x => (0 <= x < 64)%Z) v
    /\ octets v = bs
    /\ (pad = [] /\ (length v mod 4 = 0)%nat
        \/ pad = ["="%char] /\ (length v mod 4 = 3)%nat
        \/ pad = ["="%char; "="%char] /\ (length v mod 4 = 2)%nat).
Proof.
  induction bs as [|a|a b|a b c l IH] using list_ind3; intros Hb.
  - exists [], []. repeat split; auto.
  - apply Forall_cons_1 in Hb as [Ha _]. unfold is_byte in Ha.
    exists [a / 4; a mod 4 * 16]%Z, ["="%char; "="%char].
    split; [reflexivity|]. split; [repeat constructor; euclid|].
    split; [cbn; f_equal; euclid|]. right. right. now split.
  - apply Forall_cons_1 in Hb as [Ha Hb].
    apply Forall_cons_1 in Hb as [Hb _]. unfold is_byte in Ha, Hb.
    exists [a / 4; a mod 4 * 16 + b / 16; b mod 16 * 4]%Z, ["="%char].
    split; [reflexivity|]. split; [repeat constructor; euclid|].
    split; [cbn; f_equal; [euclid|]; f_equal; euclid|].
    right. left. now split.
  - apply Forall_cons_1 in Hb as [Ha Hb].
    apply Forall_cons_1 in Hb as [Hb Hc].
    apply Forall_cons_1 in Hc as [Hc Hl]. unfold is_byte in Ha, Hb, Hc.
    destruct (IH Hl) as (v & pad & Hs & Hv & Ho & Hp).
    exists ((a / 4) :: (a mod 4 * 16 + b / 16) :: (b mod 16 * 4 + c / 64)
              :: (c mod 64) :: v)%Z, pad.
    split; [cbn [btoa list_ascii_of_string map app]; now rewrite Hs|].
    split; [repeat constructor; try euclid; exact Hv|].
    split.
    { cbn [octets]. rewrite Ho.
      f_equal; [euclid|]. f_equal; [euclid|]. f_equal. euclid. }
    assert (Hlen : forall n, (S (S (S (S n))) mod 4 = n mod 4)%nat).
    { intros n. replace (S (S (S (S n)))) with (n + 1 * 4)%nat by lia.
      apply Nat.Div0.mod_add. }
    cbn [length]. now rewrite Hlen.
Qed.

Lemma sextets_b64_char (v : list Z) :
  Forall (fun x => (0 <= x < 64)%Z) v -> sextets (map b64_char v) = Some v.
Proof.
  induction 1 as [|x v Hx Hv IH]; [reflexivity|].
  cbn [map sextets]. rewrite IH.
  now destruct (b64_value_char x Hx) as (-> & _).
Qed.

Lemma filter_b64_char (v : list Z) :
  Forall (fun x => (0 <= x < 64)%Z) v ->
  List.filter (fun c => negb (is_ascii_whitespace c)) (map b64_char v)
  = map b64_char v.
Proof.
  induction 1 as [|x v Hx Hv IH]; [reflexivity|].
  cbn [map List.filter].
  destruct (b64_value_char x Hx) as (_ & _ & ->). cbn [negb]. now rewrite IH.
Qed.

(** The first character from the end of a text without padding is not the
    padding character. *)
Lemma rev_b64_char (v : list Z) :
  Forall (fun x => (0 <= x < 64)%Z) v ->
  match rev (map b64_char v) with
  | c :: _ => Ascii.eqb c "=" = false
  | [] => v = []
  end.
Proof.
  intros Hv. destruct v as [|x v] using rev_ind; [reflexivity|].
  rewrite map_app, rev_app_distr. cbn [map rev app].
  apply Forall_app in Hv as [_ Hx]. apply Forall_cons_1 in Hx as [Hx _].
  now destruct (b64_value_char x Hx) as (_ & -> & _).
Qed.

Lemma atob_btoa (bs : list Z) : Forall is_byte bs -> atob (btoa bs) = Some bs.
Proof.
  intros Hb. destruct (btoa_shape bs Hb) as (v & pad & Hs & Hv & Ho & Hp).
  unfold atob. rewrite Hs.
  assert (Hf : List.filter (fun c => negb (is_ascii_whitespace c))
                 (map b64_char v ++ pad) = map b64_char v ++ pad).
  { rewrite List.filter_app, (filter_b64_char v Hv). f_equal.
    destruct Hp as [[-> _] | [[-> _] | [-> _]]]; reflexivity. }
  rewrite Hf.
  assert (Hr : remove_padding (map b64_char v ++ pad) = map b64_char v).
  { unfold remove_padding. rewrite length_app, length_map, rev_app_distr.
    pose proof (rev_b64_char v Hv) as Hlast.
    destruct Hp as [[-> Hm] | [[-> Hm] | [-> Hm]]]; cbn [length rev app].
    - rewrite Nat.add_0_r, Hm, app_nil_r. cbn [Nat.eqb].
      destruct (rev (map b64_char v)) as [|c1 [|c2 r]]; try reflexivity.
      now rewrite Hlast.
    - replace ((length v + 1) mod 4)%nat with 0%nat.
      2:{ rewrite Nat.Div0.add_mod, Hm. reflexivity. }
      cbn [Nat.eqb].
      destruct (rev (map b64_char v)) as [|c2 r] eqn:Hrev.
      { subst v. discriminate. }
      cbn [Ascii.eqb Bool.eqb andb]. rewrite Hlast.
      change (rev r ++ [c2]) with (rev (c2 :: r)).
      rewrite <- Hrev. apply rev_involutive.
    - replace ((length v + 2) mod 4)%nat with 0%nat.
      2:{ rewrite Nat.Div0.add_mod, Hm. reflexivity. }
      cbn [Nat.eqb]. cbn [Ascii.eqb Bool.eqb andb]. apply rev_involutive. }
  rewrite Hr, length_map.
  assert (Hne : (length v mod 4 =? 1)%nat = false).
  { destruct Hp as [[_ ->] | [[_ ->] | [_ ->]]]; reflexivity. }
  rewrite Hne, (sextets_b64_char v Hv). now rewrite Ho.
Qed.

Lemma int16_bytes_are_bytes (l : list Z) : Forall is_byte (Uint8_of_Int16 l).
Proof.
  induction l as [|v l IH]; [constructor|].
  unfold Uint8_of_Int16 in *. cbn [flat_map int16_bytes app].
  repeat constructor; [unfold is_byte; euclid ..| exact IH].
Qed.

Lemma Int16_of_Uint8_of_Int16 (l : list Z) :
  Forall (fun v => (-32768 <= v <= 32767)%Z) l ->
  Int16_of_Uint8 (Uint8_of_Int16 l) = Some l.
Proof.
  induction 1 as [|v l Hv Hl IH]; [reflexivity|].
  unfold Uint8_of_Int16 in *. cbn [flat_map int16_bytes app Int16_of_Uint8].
  rewrite IH. f_equal. f_equal.
  replace (v mod 65536 mod 256 + 256 * (v mod 65536 / 256))%Z
    with (v mod 65536)%Z by euclid.
  unfold wrap16. rewrite Z.mod_mod by lia.
  destruct (Z.leb_spec 32768 (v mod 65536)); euclid.
Qed.

Lemma pcm_int16_range (samples : list sample) :
  Forall (fun v => (-32768 <= v <= 32767)%Z) (pcm_int16 samples).
Proof.
  induction samples as [|s l IH]; [constructor|].
  cbn [pcm_int16 map]. constructor; [|exact IH].
  destruct s; unfold int16_of_sample; simpl; try lia. apply wrap16_range.
Qed.

Lemma channelData_mono (l : list Z) :
  channelData l 1 (length l) 0 = map (fun v => v # 32768) l.
Proof.
  unfold channelData.
  induction l as [|x l IH] using rev_ind; [reflexivity|].
  rewrite length_app, Nat.add_comm. cbn [length Nat.add].
  rewrite seq_S, !map_app. cbn [map Nat.add]. f_equal.
  - rewrite <- IH. apply map_ext_in. intros i Hi. apply in_seq in Hi.
    rewrite Nat.mul_1_r, Nat.add_0_r. now rewrite app_nth1 by lia.
  - rewrite Nat.mul_1_r, Nat.add_0_r.
    rewrite app_nth2 by lia. now rewrite Nat.sub_diag.
Qed.

(** What the inbound path makes of an outbound frame: the stored 16-bit
    values, each divided by 32768. *)
Lemma decodeInbound_createPcmBlob (samples : list sample) :
  samples <> [] ->
  decodeInbound (data (createPcmBlob samples))
  = Some {| sampleRate := 24000;
            channels := [map (fun v => v # 32768) (pcm_int16 samples)] |}.
Proof.
  intros Hne. unfold decodeInbound, decode, createPcmBlob. cbn [data].
  rewrite atob_btoa by apply int16_bytes_are_bytes.
  unfold decodeAudioData.
  rewrite Int16_of_Uint8_of_Int16 by apply pcm_int16_range.
  rewrite Nat.div_1_r.
  assert (Hlen : length (pcm_int16 samples) <> 0%nat).
  { unfold pcm_int16. rewrite length_map. destruct samples; [congruence|discriminate]. }
  destruct (Nat.eqb_spec (length (pcm_int16 samples)) 0) as [E|_]; [congruence|].
  cbn [Nat.eqb orb seq map]. now rewrite channelData_mono.
Qed.

Lemma dequantize_close (q : Q) :
  (Qabs ((trunc (q * 32768) # 32768) - q) <= 1 # 32768)%Q.
Proof.
  destruct q as [a b].
  unfold trunc, Qle, Qabs, Qminus, Qplus, Qopp, Qmult. simpl. euclid.
Qed.

Lemma int16_of_finite_sample (q : Q) :
  (-1 <= q)%Q -> (q < 1)%Q -> int16_of_sample (Finite q) = trunc (q * 32768).
Proof.
  intros Hlo Hhi. unfold int16_of_sample. simpl.
  apply wrap16_id. now apply trunc_scaled_range.
Qed.

(** C8 (amended). A non-empty array of finite samples, each in [-1, 1), that
    is encoded by [createPcmBlob] and decoded by [decode] and
    [decodeAudioData] at one channel comes back with the same length and
    with every sample within 1/32768 of the original. *)
Theorem pcm_round_trip (qs : list Q) :
  qs <> [] ->
  Forall (fun q => (-1 <= q)%Q /\ (q < 1)%Q) qs ->
  exists ch : list Q,
    decodeInbound (data (createPcmBlob (map Finite qs)))
    = Some {| sampleRate := 24000; channels := [ch] |}
    /\ Forall2 (fun q d => (Qabs (d - q) <= 1 # 32768)%Q) qs ch.
Proof.
  intros Hne Hr.
  exists (map (fun v => v # 32768) (pcm_int16 (map Finite qs))). split.
  - apply decodeInbound_createPcmBlob. destruct qs; [congruence|discriminate].
  - clear Hne. induction Hr as [|q l [Hlo Hhi] Hl IH]; [constructor|].
    unfold pcm_int16 in *. cbn [map]. constructor; [|exact IH].
    rewrite (int16_of_finite_sample q Hlo Hhi).
    apply dequantize_close.
Qed.

Lemma pcm_round_trip_witness :
  [1 # 2; -1; 0]%Q <> []
  /\ Forall (fun q => (-1 <= q)%Q /\ (q < 1)%Q) [1 # 2; -1; 0]%Q
  /\ exists ch : list Q,
       decodeInbound (data (createPcmBlob (map Finite [1 # 2; -1; 0]%Q)))
       = Some {| sampleRate := 24000; channels := [ch] |}
       /\ Forall2 (fun q d => (Qabs (d - q) <= 1 # 32768)%Q) [1 # 2; -1; 0]%Q ch.
Proof.
  assert (Hr : Forall (fun q => (-1 <= q)%Q /\ (q < 1)%Q) [1 # 2; -1; 0]%Q).
  { repeat constructor; discriminate. }
  split; [discriminate|]. split; [exact Hr|].
  apply (pcm_round_trip [1 # 2; -1; 0]%Q); [discriminate | exact Hr].
Defined.

(** C8, as stated, fails at full scale: the one-sample array [1] lies in
    [-1, 1] and comes back as [-1], two units away. (The empty array does
    not come back at all: [createBuffer] rejects a buffer of zero frames.) *)
Lemma full_scale_sample_comes_back_negated :
  (-1 <= 1)%Q /\ (1 <= 1)%Q
  /\ decodeInbound (data (createPcmBlob [Finite 1]))
     = Some {| sampleRate := 24000; channels := [[-32768 # 32768]] |}
  /\ ~ (Qabs ((-32768 # 32768) - 1) <= 1 # 32768)%Q
  /\ decodeInbound (data (createPcmBlob [])) = None.
Proof.
  split; [discriminate|]. split; [discriminate|]. split; [reflexivity|].
  split; [|reflexivity].
  intros H. vm_compute in H. apply H. reflexivity.
Qed.

(** *** Binary64 rounding *)

Lemma pow2_pos (e : Z) : (0 < 2 ^ e)%Q.
Proof. apply Qpower_0_lt. reflexivity. Qed.

Lemma pow2_plus (a b : Z) : (2 ^ (a + b) == 2 ^ a * 2 ^ b)%Q.
Proof. apply Qpower_plus. discriminate. Qed.

Lemma pow2_le (a b : Z) : (a <= b)%Z -> (2 ^ a <= 2 ^ b)%Q.
Proof. intros H. apply Qpower_le_compat_l; [exact H | discriminate]. Qed.

Lemma pow2_lt_inv (a b : Z) : (2 ^ a < 2 ^ b)%Q -> (a < b)%Z.
Proof. intros H. apply (Qpower_lt_compat_l_inv 2); [exact H | reflexivity]. Qed.

Lemma pow2_Z (n : Z) : (0 <= n)%Z -> (inject_Z (2 ^ n) == 2 ^ n)%Q.
Proof. intros H. now rewrite Zpower_Qpower. Qed.

Lemma Q_as_fraction (x : Q) : (x * inject_Z (Z.pos (Qden x)) == inject_Z (Qnum x))%Q.
Proof. destruct x as [n d]. unfold Qeq, Qmult, inject_Z. simpl. lia. Qed.

Lemma Qnum_pos (x : Q) : (0 < x)%Q -> (0 < Qnum x)%Z.
Proof. destruct x as [n d]. unfold Qlt. simpl. lia. Qed.

Lemma ilog2_spec (x : Q) :
  (0 < x)%Q -> (2 ^ ilog2 x <= x)%Q /\ (x < 2 ^ (ilog2 x + 1))%Q.
Proof.
  intros Hx. unfold ilog2.
  pose proof (Qnum_pos x Hx) as Hn.
  pose proof (Q_as_fraction x) as Hf.
  set (a := Z.log2 (Qnum x)) in *. set (b := Z.log2 (Z.pos (Qden x))) in *.
  assert (Ha0 : (0 <= a)%Z) by apply Z.log2_nonneg.
  assert (Hb0 : (0 <= b)%Z) by apply Z.log2_nonneg.
  destruct (Z.log2_spec (Qnum x) Hn) as [Ha1 Ha2].
  destruct (Z.log2_spec (Z.pos (Qden x)) eq_refl) as [Hb1 Hb2].
  fold a in Ha1, Ha2. fold b in Hb1, Hb2.
  assert (Qa1 : (2 ^ a <= inject_Z (Qnum x))%Q).
  { rewrite <- pow2_Z by exact Ha0. rewrite <- Zle_Qle. exact Ha1. }
  assert (Qa2 : (inject_Z (Qnum x) < 2 ^ (a + 1))%Q).
  { rewrite <- pow2_Z by lia. rewrite <- Zlt_Qlt. replace (a + 1)%Z with (Z.succ a) by lia. exact Ha2. }
  assert (Qb1 : (2 ^ b <= inject_Z (Z.pos (Qden x)))%Q).
  { rewrite <- pow2_Z by exact Hb0. rewrite <- Zle_Qle. exact Hb1. }
  assert (Qb2 : (inject_Z (Z.pos (Qden x)) < 2 ^ (b + 1))%Q).
  { rewrite <- pow2_Z by lia. rewrite <- Zlt_Qlt. replace (b + 1)%Z with (Z.succ b) by lia. exact Hb2. }
  pose proof (pow2_pos b) as Pb. pose proof (pow2_pos (b + 1)) as Pb1.
  destruct (Qle_bool (2 ^ (a - b)) x) eqn:E.
  - apply Qle_bool_iff in E. split; [exact E|].
    apply Qmult_lt_r with (2 ^ b)%Q; [exact Pb|].
    rewrite <- pow2_plus. replace (a - b + 1 + b)%Z with (a + 1)%Z by lia.
    apply Qle_lt_trans with (x * inject_Z (Z.pos (Qden x)))%Q.
    + apply Qmult_le_l; [exact Hx | exact Qb1].
    + rewrite Hf. exact Qa2.
  - assert (E' : (x < 2 ^ (a - b))%Q).
    { apply Qnot_le_lt. intros H. apply Qle_bool_iff in H. congruence. }
    split.
    + apply Qmult_le_r with (2 ^ (b + 1))%Q; [exact Pb1|].
      rewrite <- pow2_plus. replace (a - b - 1 + (b + 1))%Z with a by lia.
      apply Qle_trans with (inject_Z (Qnum x)); [exact Qa1|].
      rewrite <- Hf. apply Qmult_le_l; [exact Hx|]. now apply Qlt_le_weak.
    + now replace (a - b - 1 + 1)%Z with (a - b)%Z by lia.
Qed.

Lemma ilog2_lt (x : Q) (e : Z) : (0 < x)%Q -> (x < 2 ^ e)%Q -> (ilog2 x < e)%Z.
Proof.
  intros Hx H. apply pow2_lt_inv.
  apply Qle_lt_trans with x; [apply ilog2_spec, Hx | exact H].
Qed.

Lemma ilog2_ge (x : Q) (e : Z) : (2 ^ e <= x)%Q -> (e <= ilog2 x)%Z.
Proof.
  intros H.
  assert (Hx : (0 < x)%Q) by (apply Qlt_le_trans with (2 ^ e)%Q; [apply pow2_pos | exact H]).
  assert (e < ilog2 x + 1)%Z; [|lia].
  apply pow2_lt_inv. apply Qle_lt_trans with x; [exact H | apply ilog2_spec, Hx].
Qed.

Lemma ilog2_mono (x y : Q) : (0 < x)%Q -> (x <= y)%Q -> (ilog2 x <= ilog2 y)%Z.
Proof.
  intros Hx Hxy. apply ilog2_ge.
  apply Qle_trans with x; [apply ilog2_spec, Hx | exact Hxy].
Qed.

Lemma exponent_mono (x y : Q) : (0 < x)%Q -> (x <= y)%Q -> (exponent x <= exponent y)%Z.
Proof. intros Hx Hxy. unfold exponent. pose proof (ilog2_mono x y Hx Hxy). lia. Qed.

(* rne *)

Lemma rne_bounds (q : Q) : (Qfloor q <= rne q <= Qfloor q + 1)%Z.
Proof.
  unfold rne. destruct (q - inject_Z (Qfloor q) ?= 1 # 2)%Q; [destruct (Z.even _)|..]; lia.
Qed.

Lemma rne_comp (q q' : Q) : (q == q')%Q -> rne q = rne q'.
Proof.
  intros H. unfold rne. rewrite (Qfloor_comp q q' H).
  assert (E : (q - inject_Z (Qfloor q') == q' - inject_Z (Qfloor q'))%Q) by (rewrite H; reflexivity).
  now rewrite (Qcompare_comp _ _ E (1 # 2) (1 # 2) (Qeq_refl _)).
Qed.

Lemma rne_Z (z : Z) : rne (inject_Z z) = z.
Proof.
  unfold rne. rewrite Qfloor_Z.
  assert (E : (inject_Z z - inject_Z z ?= 1 # 2)%Q = Lt).
  { rewrite <- Qlt_alt. generalize (inject_Z z). intros t. lra. }
  now rewrite E.
Qed.

Lemma rne_mono (q1 q2 : Q) : (q1 <= q2)%Q -> (rne q1 <= rne q2)%Z.
Proof.
  intros H. pose proof (Qfloor_resp_le q1 q2 H) as Hf.
  pose proof (rne_bounds q1) as B1. pose proof (rne_bounds q2) as B2.
  destruct (Z.eq_dec (Qfloor q1) (Qfloor q2)) as [E|NE]; [|lia].
  unfold rne in *. rewrite E in *.
  destruct (q1 - inject_Z (Qfloor q2) ?= 1 # 2)%Q eqn:C1;
  destruct (q2 - inject_Z (Qfloor q2) ?= 1 # 2)%Q eqn:C2;
  try rewrite <- Qeq_alt in C1; try rewrite <- Qlt_alt in C1; try rewrite <- Qgt_alt in C1;
  try rewrite <- Qeq_alt in C2; try rewrite <- Qlt_alt in C2; try rewrite <- Qgt_alt in C2;
  try destruct (Z.even (Qfloor q2)); try lia; exfalso; lra.
Qed.

Lemma rne_close (q : Q) : (Qabs (inject_Z (rne q) - q) <= 1 # 2)%Q.
Proof.
  pose proof (Qfloor_le q) as H1. pose proof (Qlt_floor q) as H2.
  rewrite inject_Z_plus in H2.
  unfold rne.
  destruct (q - inject_Z (Qfloor q) ?= 1 # 2)%Q eqn:C;
  try rewrite <- Qeq_alt in C; try rewrite <- Qlt_alt in C; try rewrite <- Qgt_alt in C;
  try destruct (Z.even (Qfloor q)); try rewrite inject_Z_plus;
  apply Qabs_Qle_condition; split; change (inject_Z 1) with 1%Q in *; lra.
Qed.

Lemma rne_nonneg (q : Q) : (0 <= q)%Q -> (0 <= rne q)%Z.
Proof. intros H. rewrite <- (rne_Z 0). now apply rne_mono. Qed.

Lemma rne_le_Z (q : Q) (N : Z) : (q <= inject_Z N)%Q -> (rne q <= N)%Z.
Proof. intros H. rewrite <- (rne_Z N). now apply rne_mono. Qed.

Lemma rne_ge_Z (q : Q) (N : Z) : (inject_Z N <= q)%Q -> (N <= rne q)%Z.
Proof. intros H. rewrite <- (rne_Z N) at 1. now apply rne_mono. Qed.

Lemma Qdiv_le_mono (x y c : Q) : (0 < c)%Q -> (x <= y)%Q -> (x / c <= y / c)%Q.
Proof.
  intros Hc H. unfold Qdiv. apply Qmult_le_compat_r; [exact H|].
  apply Qinv_le_0_compat. now apply Qlt_le_weak.
Qed.

Lemma pow2_div (a b : Z) : (2 ^ a / 2 ^ b == 2 ^ (a - b))%Q.
Proof. symmetry. apply Qpower_minus. discriminate. Qed.

Lemma pow2_nonzero (e : Z) : ~ (2 ^ e == 0)%Q.
Proof. pose proof (pow2_pos e). lra. Qed.

Lemma rnd_zero (x : Q) : (x == 0)%Q -> (rnd x == 0)%Q.
Proof.
  intros H. unfold rnd. set (e := exponent x).
  assert (E : (x / 2 ^ e == inject_Z 0)%Q).
  { rewrite H. unfold Qdiv. change (inject_Z 0) with 0%Q. ring. }
  rewrite (rne_comp _ _ E), rne_Z. change (inject_Z 0) with 0%Q. ring.
Qed.

Lemma rnd_nonneg (x : Q) : (0 <= x)%Q -> (0 <= rnd x)%Q.
Proof.
  intros H. unfold rnd. apply Qmult_le_0_compat.
  - change 0%Q with (inject_Z 0). rewrite <- Zle_Qle. apply rne_nonneg.
    apply Qle_shift_div_l; [apply pow2_pos|]. lra.
  - apply Qlt_le_weak, pow2_pos.
Qed.

Lemma exponent_ge (x : Q) : (-1074 <= exponent x)%Z /\ (ilog2 x - 52 <= exponent x)%Z.
Proof. unfold exponent. lia. Qed.

(** The scaled significand is below 2^53. *)
Lemma scaled_lt (x : Q) :
  (0 < x)%Q -> (x / 2 ^ exponent x < inject_Z (2 ^ 53))%Q.
Proof.
  intros Hx. apply Qlt_shift_div_r; [apply pow2_pos|].
  rewrite pow2_Z by lia. rewrite <- pow2_plus.
  apply Qlt_le_trans with (2 ^ (ilog2 x + 1))%Q; [apply ilog2_spec, Hx|].
  apply pow2_le. pose proof (exponent_ge x). lia.
Qed.

Lemma rnd_mono (x y : Q) : (0 <= x)%Q -> (x <= y)%Q -> (rnd x <= rnd y)%Q.
Proof.
  intros Hx Hxy.
  destruct (Qeq_dec x 0) as [Hz|Hnz].
  { rewrite (rnd_zero x Hz). apply rnd_nonneg. lra. }
  assert (Hpos : (0 < x)%Q) by lra.
  pose proof (exponent_mono x y Hpos Hxy) as He.
  destruct (Z.eq_dec (exponent x) (exponent y)) as [E|NE].
  - unfold rnd. rewrite E. apply Qmult_le_compat_r.
    + rewrite <- Zle_Qle. apply rne_mono, Qdiv_le_mono; [apply pow2_pos | exact Hxy].
    + apply Qlt_le_weak, pow2_pos.
  - assert (Hy : (0 < y)%Q) by lra.
    destruct (ilog2_spec x Hpos) as [_ Hxu].
    destruct (ilog2_spec y Hy) as [Hyl _].
    pose proof (exponent_ge x) as [Hx1 Hx2].
    assert (Ey : exponent y = (ilog2 y - 52)%Z) by (unfold exponent in *; lia).
    assert (Hl : (ilog2 x + 1 <= ilog2 y)%Z) by (unfold exponent in *; lia).
    apply Qle_trans with (2 ^ ilog2 y)%Q.
    + unfold rnd.
      assert (HN : (rne (x / 2 ^ exponent x) <= 2 ^ (ilog2 y - exponent x))%Z).
      { apply rne_le_Z. rewrite pow2_Z by lia. rewrite <- pow2_div.
        apply Qdiv_le_mono; [apply pow2_pos|].
        apply Qle_trans with (2 ^ (ilog2 x + 1))%Q; [lra | now apply pow2_le]. }
      apply Qle_trans with (inject_Z (2 ^ (ilog2 y - exponent x)) * 2 ^ exponent x)%Q.
      * apply Qmult_le_compat_r; [now rewrite <- Zle_Qle | apply Qlt_le_weak, pow2_pos].
      * rewrite pow2_Z by lia. rewrite <- pow2_plus.
        replace (ilog2 y - exponent x + exponent x)%Z with (ilog2 y) by lia.
        apply Qle_refl.
    + unfold rnd. rewrite Ey.
      assert (HN : (2 ^ 52 <= rne (y / 2 ^ (ilog2 y - 52)))%Z).
      { apply rne_ge_Z. rewrite pow2_Z by lia.
        apply Qle_shift_div_l; [apply pow2_pos|].
        rewrite <- pow2_plus. replace (52 + (ilog2 y - 52))%Z with (ilog2 y) by lia.
        exact Hyl. }
      apply Qle_trans with (inject_Z (2 ^ 52) * 2 ^ (ilog2 y - 52))%Q.
      * rewrite pow2_Z by lia. rewrite <- pow2_plus.
        replace (52 + (ilog2 y - 52))%Z with (ilog2 y) by lia. apply Qle_refl.
      * apply Qmult_le_compat_r; [now rewrite <- Zle_Qle | apply Qlt_le_weak, pow2_pos].
Qed.

(** A value with a significand below 2^53 and an exponent of at least
    -1074 is its own rounding. *)
Lemma rnd_fixed (N e : Z) (x : Q) :
  (0 <= N < 2 ^ 53)%Z -> (-1074 <= e)%Z ->
  (x == inject_Z N * 2 ^ e)%Q -> (rnd x == x)%Q.
Proof.
  intros HN He Hx.
  destruct (Z.eq_dec N 0%Z) as [->|Hnz].
  { assert (Hz : (x == 0)%Q) by (rewrite Hx; change (inject_Z 0) with 0%Q; ring).
    rewrite (rnd_zero x Hz). now symmetry. }
  pose proof (pow2_pos e) as Pe.
  assert (Hpos : (0 < x)%Q).
  { rewrite Hx. apply Qmult_lt_0_compat; [|exact Pe].
    change 0%Q with (inject_Z 0). rewrite <- Zlt_Qlt. lia. }
  assert (Hlt : (x < 2 ^ (e + 53))%Q).
  { rewrite Hx, Z.add_comm, pow2_plus. apply Qmult_lt_compat_r; [exact Pe|].
    rewrite <- pow2_Z by lia. rewrite <- Zlt_Qlt. lia. }
  pose proof (ilog2_lt x _ Hpos Hlt) as Hl.
  assert (He' : (-1074 <= exponent x <= e)%Z) by (unfold exponent; lia).
  unfold rnd. set (e' := exponent x) in *. clearbody e'.
  assert (E : (x / 2 ^ e' == inject_Z (N * 2 ^ (e - e')))%Q).
  { rewrite inject_Z_mult, pow2_Z by lia. rewrite <- pow2_div, Hx.
    field. apply pow2_nonzero. }
  rewrite (rne_comp _ _ E), rne_Z.
  rewrite inject_Z_mult, pow2_Z by lia. rewrite Hx, <- pow2_div.
  field. apply pow2_nonzero.
Qed.

Lemma rnd_idempotent (x : Q) : (0 <= x)%Q -> (rnd (rnd x) == rnd x)%Q.
Proof.
  intros Hx.
  destruct (Qeq_dec x 0) as [Hz|Hnz].
  { pose proof (rnd_zero x Hz) as H1.
    rewrite (rnd_zero _ H1). now symmetry. }
  assert (Hpos : (0 < x)%Q) by lra.
  pose proof (exponent_ge x) as [He _].
  assert (HN : (0 <= rne (x / 2 ^ exponent x) <= 2 ^ 53)%Z).
  { split.
    - apply rne_nonneg. apply Qle_shift_div_l; [apply pow2_pos | lra].
    - apply rne_le_Z, Qlt_le_weak, scaled_lt, Hpos. }
  destruct (Z.eq_dec (rne (x / 2 ^ exponent x)) (2 ^ 53)%Z) as [E|NE].
  - apply (rnd_fixed (2 ^ 52)%Z (exponent x + 1)%Z); [lia | lia |].
    unfold rnd. rewrite E, pow2_plus.
    change (inject_Z (2 ^ 53)) with (inject_Z (2 ^ 52) * 2)%Q at 1.
    change (2 ^ 1)%Q with 2%Q. ring.
  - apply (rnd_fixed (rne (x / 2 ^ exponent x)) (exponent x)); [lia | lia |].
    reflexivity.
Qed.

Lemma rnd_comp (x y : Q) : (0 <= x)%Q -> (x == y)%Q -> (rnd x == rnd y)%Q.
Proof.
  intros Hx E. apply Qle_antisym; apply rnd_mono; lra.
Qed.

Lemma round64_nonneg (x : Q) : (0 <= x)%Q -> round64 x = rnd x.
Proof.
  intros H. unfold round64.
  destruct (Qle_bool 0 x) eqn:E; [reflexivity|].
  apply Qle_bool_iff in H. congruence.
Qed.

Lemma round64_neg (x : Q) : (x < 0)%Q -> round64 x = (- rnd (- x))%Q.
Proof.
  intros H. unfold round64.
  destruct (Qle_bool 0 x) eqn:E; [|reflexivity].
  apply Qle_bool_iff in E. lra.
Qed.

Lemma round64_mono (x y : Q) : (x <= y)%Q -> (round64 x <= round64 y)%Q.
Proof.
  intros H.
  destruct (Qlt_le_dec x 0) as [Hx|Hx], (Qlt_le_dec y 0) as [Hy|Hy].
  - rewrite (round64_neg x Hx), (round64_neg y Hy).
    assert (rnd (- y) <= rnd (- x))%Q by (apply rnd_mono; lra). lra.
  - rewrite (round64_neg x Hx), (round64_nonneg y Hy).
    assert (0 <= rnd (- x))%Q by (apply rnd_nonneg; lra).
    assert (0 <= rnd y)%Q by (apply rnd_nonneg; lra). lra.
  - lra.
  - rewrite (round64_nonneg x Hx), (round64_nonneg y Hy). now apply rnd_mono.
Qed.

#[global] Instance round64_comp : Proper (Qeq ==> Qeq) round64.
Proof.
  intros x y E. apply Qle_antisym; apply round64_mono; lra.
Qed.

Lemma round64_idempotent (x : Q) : (round64 (round64 x) == round64 x)%Q.
Proof.
  destruct (Qlt_le_dec x 0) as [Hx|Hx].
  - rewrite (round64_neg x Hx).
    assert (Hr : (0 <= rnd (- x))%Q) by (apply rnd_nonneg; lra).
    destruct (Qeq_dec (rnd (- x)) 0) as [Hz|Hnz].
    + assert (E : (- rnd (- x) == 0)%Q) by lra.
      rewrite E. rewrite round64_nonneg by lra. apply rnd_zero. reflexivity.
    + rewrite round64_neg by lra.
      assert (E : (rnd (- - rnd (- x)) == rnd (rnd (- x)))%Q).
      { apply rnd_comp; [lra | ring]. }
      rewrite E, rnd_idempotent by lra. reflexivity.
  - rewrite (round64_nonneg x Hx).
    rewrite round64_nonneg by now apply rnd_nonneg.
    now apply rnd_idempotent.
Qed.

Lemma round64_0 : (round64 0 == 0)%Q.
Proof. rewrite round64_nonneg by lra. now apply rnd_zero. Qed.

Lemma round64_sign (x : Q) : (0 <= x)%Q -> (0 <= round64 x)%Q.
Proof. intros H. rewrite round64_nonneg by exact H. now apply rnd_nonneg. Qed.

(** A normal value is rounded with a relative error of at most 2^-53. *)
Lemma round64_error (x : Q) :
  (2 ^ (-1022) <= x)%Q -> (Qabs (round64 x - x) <= x * 2 ^ (-53))%Q.
Proof.
  intros Hn.
  assert (Hpos : (0 < x)%Q) by (pose proof (pow2_pos (-1022)); lra).
  rewrite round64_nonneg by lra.
  pose proof (ilog2_ge x _ Hn) as Hl.
  assert (Ee : exponent x = (ilog2 x - 52)%Z) by (unfold exponent; lia).
  destruct (ilog2_spec x Hpos) as [Hlo _].
  pose proof (rne_close (x / 2 ^ exponent x)) as Hc.
  pose proof (pow2_pos (exponent x)) as Pe.
  unfold rnd.
  set (N := inject_Z (rne (x / 2 ^ exponent x))) in *.
  assert (E : (N * 2 ^ exponent x - x == (N - x / 2 ^ exponent x) * 2 ^ exponent x)%Q).
  { field. apply pow2_nonzero. }
  rewrite E, Qabs_Qmult, (Qabs_pos (2 ^ exponent x)) by lra.
  apply Qle_trans with ((1 # 2) * 2 ^ exponent x)%Q.
  - apply Qmult_le_compat_r; [exact Hc | lra].
  - rewrite Ee.
    assert (P : (2 ^ (ilog2 x - 52) == 2 ^ ilog2 x * 2 ^ (-53) * 2)%Q).
    { replace (ilog2 x - 52)%Z with (ilog2 x + (-53) + 1)%Z by lia.
      rewrite !pow2_plus. change (2 ^ 1)%Q with 2%Q. ring. }
    rewrite P. pose proof (pow2_pos (-53)) as P53.
    assert (2 ^ ilog2 x * 2 ^ (-53) <= x * 2 ^ (-53))%Q
      by (apply Qmult_le_compat_r; lra).
    lra.
Qed.

Lemma round64_pow2 (e : Z) : (-1074 <= e)%Z -> binary64 (2 ^ e).
Proof.
  intros He. unfold binary64.
  rewrite round64_nonneg by apply Qlt_le_weak, pow2_pos.
  apply (rnd_fixed 1 e); [lia | exact He |].
  change (inject_Z 1) with 1%Q. ring.
Qed.

Lemma round64_ge_pow2 (e : Z) (x : Q) :
  (-1074 <= e)%Z -> (2 ^ e <= x)%Q -> (2 ^ e <= round64 x)%Q.
Proof.
  intros He H. pose proof (round64_pow2 e He) as E. unfold binary64 in E.
  pose proof (round64_mono _ _ H). lra.
Qed.

Lemma round64_lt_pow2 (e : Z) (x : Q) :
  (-1074 <= e)%Z -> (round64 x < 2 ^ e)%Q -> (x < 2 ^ e)%Q.
Proof.
  intros He H. apply Qnot_le_lt. intros Hle.
  pose proof (round64_ge_pow2 e x He Hle). lra.
Qed.

(** Adding a duration, or anything up to 2^969, to a time that is at most
    the largest finite number gives at most that number. *)
Lemma add64_stays_finite (x d : Q) :
  (x <= max64)%Q -> (d <= 2 ^ 969)%Q -> (add64 x d <= max64)%Q.
Proof.
  intros Hx Hd. unfold add64.
  apply Qle_trans with (round64 (max64 + 2 ^ 969)); [apply round64_mono; lra|].
  apply Qle_bool_iff. vm_compute. reflexivity.
Qed.

(** [round64] agrees with binary64 division and addition as the Standard
    Library specifies them on the durations of buffers of 1 to 1000 frames
    at 24 kHz and on their running sums from 0, from 123456789 and from
    2^53. *)
Example round64_agrees_with_binary64 :
  sums_agree (map Z.of_nat (seq 1 1000)) 0 (SF_of_Z 0) = true
  /\ sums_agree (map Z.of_nat (seq 1 1000)) 123456789 (SF_of_Z 123456789)
     = true
  /\ sums_agree (map Z.of_nat (seq 1 1000)) 9007199254740992
       (SF_of_Z 9007199254740992) = true.
Proof. split; [|split]; vm_compute; reflexivity. Qed.

(** *** The playback cursor *)

Lemma duration_nonneg (b : AudioBuffer) : (0 <= duration b)%Q.
Proof. apply round64_sign. unfold seconds, Qle. simpl. lia. Qed.

(** One call of the callback. *)
Lemma onmessage_step (m : Inbound) (c : Q) :
  match onmessage m c with
  | (c', Some e) =>
      when e = c /\ clock e = currentTime m
      /\ c' = add64 (playback_start e) (duration (buffer e))
      /\ exists base64, decodeInbound base64 = Some (buffer e)
  | (c', None) => c' = c
  end.
Proof.
  unfold onmessage.
  destruct (truthy_opt (audioData m) && outputOpen m); [|reflexivity].
  destruct (audioData m) as [b64|]; [|reflexivity].
  destruct (decodeInbound b64) as [buf|] eqn:Hd; [|reflexivity].
  repeat split. now exists b64.
Qed.

Lemma onmessage_handled (m : Inbound) (c : Q) :
  handled m {| cursor_before := c;
               scheduled := snd (onmessage m c);
               cursor_after := fst (onmessage m c) |}.
Proof.
  unfold handled, onmessage. cbn [scheduled cursor_before cursor_after].
  destruct (truthy_opt (audioData m)) eqn:Ht; cbn [andb fst snd].
  2:{ split; [reflexivity|]. right. now left. }
  destruct (outputOpen m) eqn:Ho.
  2:{ split; [reflexivity|]. now left. }
  destruct (audioData m) as [base64|] eqn:Ha; [|discriminate].
  destruct (decodeInbound base64) as [audioBuffer|] eqn:Hd; cbn [fst snd].
  - cbn [when clock buffer]. split; [reflexivity|].
    split; [exists base64; auto|]. repeat split.
  - split; [reflexivity|]. right. right. now exists base64.
Qed.

(** The cursor holds a binary64 number, and a call of the callback does
    not decrease it. *)
Lemma onmessage_cursor (m : Inbound) (c : Q) :
  binary64 c ->
  (c <= fst (onmessage m c))%Q /\ binary64 (fst (onmessage m c)).
Proof.
  intros Hc. unfold onmessage.
  destruct (truthy_opt (audioData m) && outputOpen m);
    [|split; [apply Qle_refl | exact Hc]].
  destruct (audioData m) as [b64|]; [|split; [apply Qle_refl | exact Hc]].
  destruct (decodeInbound b64) as [buf|];
    [|split; [apply Qle_refl | exact Hc]].
  cbn [fst]. unfold add64. split; [|apply round64_idempotent].
  apply Qle_trans with (round64 c); [unfold binary64 in Hc; lra|].
  apply round64_mono.
  pose proof (Q.le_max_r (currentTime m) c).
  pose proof (duration_nonneg buf). lra.
Qed.

Lemma session_handled (messages : list Inbound) (c : Q) :
  Forall2 handled messages (live_session messages c).
Proof.
  revert c. induction messages as [|m rest IH]; intros c; [constructor|].
  cbn [live_session]. pose proof (onmessage_handled m c) as H.
  destruct (onmessage m c) as [c' s]. cbn [fst snd] in H.
  constructor; [exact H | apply IH].
Qed.

Lemma session_cursor (messages : list Inbound) (c : Q) :
  binary64 c -> (0 <= c)%Q ->
  Forall (fun k => (0 <= cursor_before k <= cursor_after k)%Q)
    (live_session messages c).
Proof.
  revert c. induction messages as [|m rest IH]; intros c Hb Hc; [constructor|].
  cbn [live_session].
  destruct (onmessage_cursor m c Hb) as [Hle Hb'].
  destruct (onmessage m c) as [c' s]. cbn [fst] in *.
  constructor; [cbn; split; assumption|]. apply IH; [exact Hb'|]. lra.
Qed.

Lemma session_chain (messages : list Inbound) (c : Q) (i : nat) (j k : Tick) :
  live_session messages c !! i = Some j ->
  live_session messages c !! S i = Some k ->
  cursor_before k = cursor_after j.
Proof.
  revert c i. induction messages as [|m rest IH]; intros c i; [discriminate|].
  cbn [live_session]. destruct (onmessage m c) as [c' s].
  destruct i as [|i]; cbn.
  - intros [= <-]. destruct rest as [|m' rest']; [discriminate|].
    cbn [live_session]. destruct (onmessage m' c') as [c'' s'].
    cbn. now intros [= <-].
  - apply IH.
Qed.

Lemma session_first (messages : list Inbound) (c : Q) (k : Tick) :
  live_session messages c !! 0%nat = Some k -> cursor_before k = c.
Proof.
  destruct messages as [|m rest]; [discriminate|].
  cbn [live_session]. destruct (onmessage m c) as [c' s].
  cbn. now intros [= <-].
Qed.

Lemma playlist_cons (k : Tick) (t : list Tick) :
  playlist (k :: t)
  = match scheduled k with
    | Some e => e :: playlist t
    | None => playlist t
    end.
Proof. unfold playlist. cbn. now destruct (scheduled k). Qed.

(** The first buffer of a session is requested at the initial cursor. *)
Lemma playlist_head (messages : list Inbound) (c : Q) (b : Scheduled)
    (l : list Scheduled) :
  playlist (live_session messages c) = b :: l -> when b = c.
Proof.
  revert c. induction messages as [|m rest IH]; intros c; [discriminate|].
  cbn [live_session].
  pose proof (onmessage_step m c) as Hs.
  destruct (onmessage m c) as [c' s].
  rewrite playlist_cons. cbn [scheduled].
  destruct s as [e|].
  - destruct Hs as (Hw & _). now intros [= <- _].
  - subst c'. apply IH.
Qed.

(** Every later buffer is requested at the binary64 sum of the previous
    buffer's playback start and duration, whatever was received in
    between. *)
Lemma playlist_next (messages : list Inbound) (c : Q) (i : nat)
    (a b : Scheduled) :
  playlist (live_session messages c) !! i = Some a ->
  playlist (live_session messages c) !! S i = Some b ->
  when b = add64 (playback_start a) (duration (buffer a)).
Proof.
  revert c i. induction messages as [|m rest IH]; intros c i; [discriminate|].
  cbn [live_session].
  pose proof (onmessage_step m c) as Hs.
  destruct (onmessage m c) as [c' s].
  rewrite playlist_cons. cbn [scheduled].
  destruct s as [e|]; [|apply IH].
  destruct i as [|i]; [|apply IH].
  destruct (playlist (live_session rest c')) as [|b' l] eqn:Hp;
    [discriminate|].
  intros [= ->] [= ->].
  rewrite (playlist_head rest c' b l Hp). apply Hs.
Qed.

(** Every scheduled buffer is a decoded payload and is requested at a
    non-negative time, as [start] requires. *)
Lemma playlist_sound (messages : list Inbound) (c : Q) :
  binary64 c -> (0 <= c)%Q ->
  Forall (fun e => (0 <= when e)%Q
                   /\ exists base64, decodeInbound base64 = Some (buffer e))
    (playlist (live_session messages c)).
Proof.
  revert c. induction messages as [|m rest IH]; intros c Hb Hc; [constructor|].
  cbn [live_session].
  destruct (onmessage_cursor m c Hb) as [Hle Hb'].
  pose proof (onmessage_step m c) as Hs.
  destruct (onmessage m c) as [c' s]. cbn [fst] in *.
  assert (Hc' : (0 <= c')%Q) by lra.
  rewrite playlist_cons. cbn [scheduled].
  destruct s as [e|]; [|now apply IH].
  constructor; [|now apply IH].
  destruct Hs as (Hw & _ & _ & Hd). rewrite Hw. now split.
Qed.

Lemma channelData_length (d : list Z) (n fc c : nat) :
  length (channelData d n fc c) = fc.
Proof. unfold channelData. now rewrite length_map, length_seq. Qed.

(** What the inbound path decodes has at least one frame at 24 kHz, so at
    least 1/24000 s, and its binary64 duration is at least 2^-15 s. *)
Lemma decodeInbound_length (base64 : string) (audioBuffer : AudioBuffer) :
  decodeInbound base64 = Some audioBuffer ->
  ((1 # 24000) <= seconds audioBuffer)%Q
  /\ (2 ^ (-15) <= duration audioBuffer)%Q.
Proof.
  unfold decodeInbound. destruct (decode base64) as [bytes|]; [|discriminate].
  unfold decodeAudioData.
  destruct (Int16_of_Uint8 bytes) as [d|]; [|discriminate].
  rewrite Nat.div_1_r. cbn [Nat.eqb orb].
  destruct (Nat.eqb_spec (length d) 0) as [Hz|Hnz]; [discriminate|].
  intros [= <-].
  assert (Hs : ((1 # 24000)
                <= seconds {| sampleRate := 24000;
                              channels := map (channelData d 1 (length d))
                                              (seq 0 1) |})%Q).
  { unfold seconds, frames. cbn [channels sampleRate seq map].
    rewrite channelData_length. unfold Qle. cbn [Qnum Qden]. lia. }
  split; [exact Hs|].
  unfold duration. apply round64_ge_pow2; [lia|].
  apply Qle_trans with (1 # 24000)%Q; [|exact Hs].
  change (2 ^ (-15))%Q with (1 # 32768)%Q. unfold Qle. cbn. lia.
Qed.

(** The end of a buffer as the program computes it, against its exact end:
    two roundings, each with a relative error of at most 2^-53. *)
Lemma computed_end_error (p : Q) (base64 : string) (audioBuffer : AudioBuffer) :
  (0 <= p)%Q -> decodeInbound base64 = Some audioBuffer ->
  (Qabs (add64 p (duration audioBuffer) - (p + seconds audioBuffer))
   <= (p + seconds audioBuffer) * 2 ^ (-51))%Q.
Proof.
  intros Hp Hd.
  destruct (decodeInbound_length _ _ Hd) as [Hsec HD].
  unfold add64, duration in *.
  set (d := seconds audioBuffer) in *.
  assert (Hd1 : (2 ^ (-1022) <= d)%Q).
  { apply Qle_trans with (1 # 24000)%Q; [|exact Hsec].
    apply Qle_trans with (2 ^ (-15))%Q; [now apply pow2_le|].
    change (2 ^ (-15))%Q with (1 # 32768)%Q. unfold Qle. cbn. lia. }
  pose proof (round64_error d Hd1) as E1.
  assert (Hs1 : (2 ^ (-1022) <= p + round64 d)%Q).
  { apply Qle_trans with (2 ^ (-15))%Q; [now apply pow2_le | lra]. }
  pose proof (round64_error _ Hs1) as E2.
  apply Qabs_Qle_condition in E1 as [E1a E1b].
  apply Qabs_Qle_condition in E2 as [E2a E2b].
  pose proof (pow2_pos (-53)) as Hu.
  assert (Hu1 : (2 ^ (-53) <= 1)%Q)
    by (change (1%Q) with (2 ^ 0)%Q; now apply pow2_le).
  assert (H51 : (2 ^ (-51) == 4 * 2 ^ (-53))%Q) by reflexivity.
  rewrite H51. set (u := (2 ^ (-53))%Q) in *.
  set (D := round64 d) in *. set (S := round64 (p + D)) in *.
  assert (Hdu : (0 <= d * u)%Q) by (apply Qmult_le_0_compat; lra).
  assert (Hpu : (0 <= p * u)%Q) by (apply Qmult_le_0_compat; lra).
  assert (Huu : (u * (d * u) <= 1 * (d * u))%Q)
    by (apply Qmult_le_compat_r; [exact Hu1 | exact Hdu]).
  assert (HDu : (D * u <= 2 * (d * u))%Q).
  { apply Qle_trans with ((d + d * u) * u)%Q; [|lra].
    apply Qmult_le_compat_r; lra. }
  apply Qabs_Qle_condition. split; lra.
Qed.

Lemma binary64_0 : binary64 0.
Proof. exact round64_0. Qed.

(** C5. For every sequence of inbound messages processed in receipt order
    by a session, whose cursor starts at 0: every message that carries a
    payload that decodes while the output context is set, and no other, is
    handed to the device with the cursor as requested start, so that it
    starts playing at max(device clock, cursor), and the cursor becomes
    that start plus the buffer's duration; the cursor of a message is the
    cursor the previous message left; the cursor is never negative and
    never decreases; and each buffer is requested at the previous buffer's
    start plus the previous buffer's duration, and so starts no earlier.
    The sums are those of the program, binary64 additions; in exact
    arithmetic the requested start is within one part in 2^51 of the time
    at which the previous buffer stops. *)
Theorem playback_schedule (messages : list Inbound) :
  Forall2 handled messages (live_session messages 0)
  /\ (forall k, live_session messages 0 !! 0%nat = Some k ->
                cursor_before k = 0%Q)
  /\ (forall i j k, live_session messages 0 !! i = Some j ->
                    live_session messages 0 !! S i = Some k ->
                    cursor_before k = cursor_after j)
  /\ Forall (fun k => (0 <= cursor_before k <= cursor_after k)%Q)
       (live_session messages 0)
  /\ (forall i a b,
         playlist (live_session messages 0) !! i = Some a ->
         playlist (live_session messages 0) !! S i = Some b ->
         when b = add64 (playback_start a) (duration (buffer a))
         /\ back_to_back a b
         /\ (Qabs (when b - playback_end a)
             <= playback_end a * 2 ^ (-51))%Q).
Proof.
  split; [apply session_handled|].
  split; [intros k; apply session_first|].
  split; [intros i j k; apply session_chain|].
  split; [apply session_cursor; [apply binary64_0 | apply Qle_refl]|].
  intros i a b Ha Hb.
  pose proof (playlist_next messages 0 i a b Ha Hb) as Hw.
  assert (Hp : (when a <= playback_start a)%Q)
    by (unfold playback_start; apply Q.le_max_r).
  split; [exact Hw|]. split.
  - unfold back_to_back. rewrite <- Hw. split.
    + unfold playback_start. apply Q.le_max_r.
    + rewrite Hw. unfold add64. apply round64_mono. lra.
  - pose proof (playlist_sound messages 0 binary64_0 (Qle_refl 0)) as Hs.
    destruct (Forall_lookup_1 _ _ _ _ Hs Ha) as (Hwa & b64 & Hd).
    rewrite Hw. unfold playback_end.
    apply (computed_end_error _ b64); [lra | exact Hd].
Qed.

(** In exact arithmetic the roundings show. Of three buffers of 2, 1 and 3
    frames that all arrive at device time 5, the second is requested
    43/422212465065984000 s (1.0e-16 s) after the first stops, and the
    third 83/211106232532992000 s (3.9e-16 s) before the second stops. *)
Example roundings_of_three_buffers :
  match playlist (live_session [frames2 5; frames1 5; frames3 5] 0) with
  | [a; b; c] =>
      (when b - playback_end a == 43 # 422212465065984000)%Q
      /\ (playback_end b - when c == 83 # 211106232532992000)%Q
  | _ => False
  end.
Proof. vm_compute. split; reflexivity. Qed.

(** Three buffers of 2, 1 and 3 frames arriving at device times 5, 5 and
    9: they are requested at 0, at 5.000083333333333 (the number
    5 + 2/24000) and at 5.000125 (the number 5.000083333333333 + 1/24000),
    and start playing at 5, at 5.000083333333333 and at 9; the cursor ends
    at 9.000125. *)
Example playback_three_buffers :
  Forall2 (fun e t => (when e == fst t)%Q /\ (playback_start e == snd t)%Q)
    (playlist (live_session three_buffers 0))
    [ (0, 5);
      (5629593359205357 # 1125899906842624,
       5629593359205357 # 1125899906842624);
      (5629640271701475 # 1125899906842624, 9) ]%Q
  /\ (final_cursor (live_session three_buffers 0) 0
      == 2533309974767993 # 281474976710656)%Q.
Proof. split; [vm_compute; repeat constructor | vm_compute; reflexivity]. Qed.

(** *** The streaming generator *)

(** C6 (amended). With an empty history [streamAppContent] throws nothing
    and yields exactly one fragment: the "No interaction data provided"
    block (the configuration-error block when no API key is set). Its caller
    [internalHandleLlmRequest] does not get that far: on an empty history it
    only records the message "No interaction data to process." and opens no
    stream. *)
Theorem empty_history_is_reported (encodeURI : string -> string)
    (API_KEY : bool) (maxLen : Z) (previous : option string)
    (response : ResponseStream) (st : AppState) :
  streamAppContent encodeURI API_KEY [] maxLen previous response
  = [if API_KEY then no_interaction_block else config_error_block]
  /\ internalHandleLlmRequest [] maxLen previous st
     = (setError (Some "No interaction data to process."%string) st, None)
  /\ llmContent (fst (internalHandleLlmRequest [] maxLen previous st))
     = llmContent st.
Proof.
  split; [now destruct API_KEY|]. split; reflexivity.
Qed.

(** C6, as stated, fails: started on an empty history the generator
    delivers one fragment, not zero. *)
Lemma empty_history_yields_a_fragment :
  streamAppContent (fun u => u) true [] 10 None
    {| delivered := []; failure := None |}
  = [no_interaction_block]
  /\ length (streamAppContent (fun u => u) true [] 10 None
               {| delivered := []; failure := None |}) <> 0%nat.
Proof. split; [reflexivity | discriminate]. Qed.

(** The map of cited sources. *)

Lemma collect_fold (g : option (list GroundingChunk))
    (m : list (string * string)) :
  collect g m
  = fold_left set_source
      (match g with Some l => omap web l | None => [] end) m.
Proof.
  destruct g as [l|]; [|reflexivity]. cbn [collect].
  revert m. induction l as [|c l IH]; intros m; [reflexivity|].
  cbn [fold_left]. rewrite IH.
  change (omap web (c :: l))
    with (match web c with Some w => w :: omap web l | None => omap web l end).
  now destruct (web c).
Qed.

Lemma consume_sources (response : list GenerateContentResponse)
    (m : list (string * string)) :
  snd (consume response m) = fold_left set_source (citations response) m.
Proof.
  revert m. induction response as [|c rest IH]; intros m; [reflexivity|].
  cbn [consume citations flat_map].
  specialize (IH (collect (groundingChunks c) m)).
  destruct (consume rest (collect (groundingChunks c) m)) as [ys m'].
  cbn [snd] in *. rewrite IH, collect_fold, fold_left_app. reflexivity.
Qed.

Lemma Map_get_set (k k' v : string) (m : list (string * string)) :
  Map_get k' (Map_set k v m)
  = if String.eqb k k' then Some v else Map_get k' m.
Proof.
  unfold Map_get. induction m as [|[k0 v0] m IH]; cbn [Map_set find fst].
  - now destruct (String.eqb k k').
  - destruct (String.eqb_spec k0 k) as [->|Hne]; cbn [find fst].
    + now destruct (String.eqb k k').
    + destruct (String.eqb_spec k0 k') as [->|Hne'].
      * destruct (String.eqb_spec k k'); [congruence|reflexivity].
      * exact IH.
Qed.

Lemma Map_set_In (k v k' : string) (m : list (string * string)) :
  In k' (map fst (Map_set k v m)) <-> k' = k \/ In k' (map fst m).
Proof.
  induction m as [|[k0 v0] m IH]; cbn [Map_set map fst In].
  - intuition.
  - destruct (String.eqb_spec k0 k) as [->|Hne]; cbn [map fst In].
    + intuition.
    + rewrite IH. intuition.
Qed.

Lemma Map_set_NoDup (k v : string) (m : list (string * string)) :
  List.NoDup (map fst m) -> List.NoDup (map fst (Map_set k v m)).
Proof.
  induction m as [|[k0 v0] m IH]; cbn [Map_set map fst]; intros Hnd.
  - repeat constructor. intros [].
  - apply List.NoDup_cons_iff in Hnd as [Hnin Hnd].
    destruct (String.eqb_spec k0 k) as [->|Hne]; cbn [map fst].
    + now constructor.
    + constructor; [|now apply IH].
      rewrite Map_set_In. intros [E|E]; [congruence | contradiction].
Qed.

Lemma sources_NoDup (cites : list WebSource) (m : list (string * string)) :
  List.NoDup (map fst m) ->
  List.NoDup (map fst (fold_left set_source cites m)).
Proof.
  revert m. induction cites as [|w cites IH]; intros m Hnd; [exact Hnd|].
  cbn [fold_left]. apply IH, Map_set_NoDup, Hnd.
Qed.

Lemma first_seen_app (u : string) (l1 l2 : list WebSource) :
  first_seen u (l1 ++ l2)
  = match first_seen u l1 with
    | Some t => Some t
    | None => first_seen u l2
    end.
Proof.
  unfold first_seen. induction l1 as [|w l1 IH]; [reflexivity|].
  cbn [app find]. now destruct (String.eqb (uri w) u).
Qed.

Lemma last_seen_cons (u : string) (w : WebSource) (cites : list WebSource) :
  last_seen u (w :: cites)
  = match last_seen u cites with
    | Some t => Some t
    | None => if String.eqb (uri w) u then Some (title w) else None
    end.
Proof.
  unfold last_seen. cbn [rev]. rewrite first_seen_app.
  destruct (first_seen u (rev cites)); [reflexivity|].
  unfold first_seen. cbn [find]. now destruct (String.eqb (uri w) u).
Qed.

(** After the loop the map holds, for each cited URI, the title of its last
    citation. *)
Lemma sources_get (u : string) (cites : list WebSource)
    (m : list (string * string)) :
  Map_get u (fold_left set_source cites m)
  = match last_seen u cites with
    | Some t => Some t
    | None => Map_get u m
    end.
Proof.
  revert m. induction cites as [|w cites IH]; intros m; [reflexivity|].
  cbn [fold_left]. rewrite IH, last_seen_cons.
  destruct (last_seen u cites); [reflexivity|].
  unfold set_source. rewrite Map_get_set.
  now destruct (String.eqb (uri w) u).
Qed.

Lemma Map_get_split (u t : string) (m : list (string * string)) :
  List.NoDup (map fst m) -> Map_get u m = Some t ->
  exists m1 m2, m = m1 ++ (u, t) :: m2
                /\ ~ In u (map fst m1) /\ ~ In u (map fst m2).
Proof.
  unfold Map_get.
  induction m as [|[k0 v0] m IH]; cbn [find map fst]; intros Hnd Hget;
    [discriminate|].
  apply List.NoDup_cons_iff in Hnd as [Hnin Hnd].
  destruct (String.eqb_spec k0 u) as [->|Hne].
  - injection Hget as ->. exists [], m. repeat split; auto.
  - destruct (IH Hnd Hget) as (m1 & m2 & -> & H1 & H2).
    exists ((k0, v0) :: m1), m2. repeat split; auto.
    cbn [map fst In]. intros [E|E]; [congruence | contradiction].
Qed.

Lemma append_nil_r (s : string) : s +:+ EmptyString = s.
Proof.
  induction s as [|c s IH]; [reflexivity|].
  change (String c s +:+ EmptyString) with (String c (s +:+ EmptyString)).
  now rewrite IH.
Qed.

Lemma append_assoc (s t r : string) : (s +:+ t) +:+ r = s +:+ (t +:+ r).
Proof.
  induction s as [|c s IH]; [reflexivity|].
  change (String c ((s +:+ t) +:+ r) = String c (s +:+ (t +:+ r))).
  now rewrite IH.
Qed.

Lemma concat_nosep_cons (x : string) (l : list string) :
  String.concat EmptyString (x :: l) = x +:+ String.concat EmptyString l.
Proof.
  destruct l as [|y l]; cbn [String.concat].
  - now rewrite append_nil_r.
  - reflexivity.
Qed.

Lemma concat_nosep_app (l1 l2 : list string) :
  String.concat EmptyString (l1 ++ l2)
  = String.concat EmptyString l1 +:+ String.concat EmptyString l2.
Proof.
  induction l1 as [|x l1 IH]; [reflexivity|].
  cbn [app]. rewrite !concat_nosep_cons, IH.
  now rewrite append_assoc.
Qed.

(** C4 (amended). When the stream of a non-empty history ends normally and
    the URI [u] was cited by some fragment, the last title it was cited
    with being [t], then the last fragment yielded is the sources block, the
    block has exactly one entry for [u], and that entry is rendered from
    [t]: the title shown for a URI cited with several titles is the
    last-seen one. *)
Theorem citation_dedup_last_title (encodeURI : string -> string)
    (history : list InteractionData) (maxLen : Z) (previous : option string)
    (response : ResponseStream) (u t : string) :
  history <> [] ->
  failure response = None ->
  last_seen u (citations (delivered response)) = Some t ->
  exists (ys : list string) (m1 m2 : list (string * string)),
    streamAppContent encodeURI true history maxLen previous response
    = ys ++ [sourcesHtml encodeURI (m1 ++ (u, t) :: m2)]
    /\ ~ In u (map fst m1)
    /\ ~ In u (map fst m2)
    /\ sourcesHtml encodeURI (m1 ++ (u, t) :: m2)
       = sources_header
         +:+ String.concat EmptyString (map (source_item encodeURI) m1)
         +:+ source_item encodeURI (u, t)
         +:+ String.concat EmptyString (map (source_item encodeURI) m2)
         +:+ sources_footer.
Proof.
  intros Hne Hok Hlast.
  unfold streamAppContent. cbn [negb].
  destruct history as [|d history]; [congruence|]. cbn [length Nat.eqb].
  pose proof (consume_sources (delivered response) []) as Hm.
  destruct (consume (delivered response) []) as [ys m]. cbn [snd] in Hm.
  rewrite Hok.
  assert (Hget : Map_get u m = Some t).
  { rewrite Hm, sources_get, Hlast. reflexivity. }
  assert (Hnd : List.NoDup (map fst m)).
  { rewrite Hm. apply sources_NoDup. constructor. }
  destruct (Map_get_split u t m Hnd Hget) as (m1 & m2 & -> & H1 & H2).
  exists ys, m1, m2.
  replace (0 <? length (m1 ++ (u, t) :: m2))%nat with true.
  2:{ symmetry. apply Nat.ltb_lt. rewrite length_app. cbn [length]. lia. }
  repeat split; auto.
  unfold sourcesHtml. rewrite map_app. cbn [map].
  rewrite concat_nosep_app, concat_nosep_cons.
  now rewrite !append_assoc.
Qed.

Lemma citation_dedup_last_title_witness :
  [a_click] <> []
  /\ failure two_titles = None
  /\ last_seen "https://example.org/" (citations (delivered two_titles))
     = Some "Second"%string
  /\ exists (ys : list string) (m1 m2 : list (string * string)),
       streamAppContent (fun s => s) true [a_click] 10 None two_titles
       = ys ++ [sourcesHtml (fun s => s)
                  (m1 ++ ("https://example.org/"%string, "Second"%string) :: m2)]
       /\ ~ In "https://example.org/"%string (map fst m1)
       /\ ~ In "https://example.org/"%string (map fst m2)
       /\ sourcesHtml (fun s => s)
            (m1 ++ ("https://example.org/"%string, "Second"%string) :: m2)
          = sources_header
            +:+ String.concat EmptyString (map (source_item (fun s => s)) m1)
            +:+ source_item (fun s => s)
                  ("https://example.org/"%string, "Second"%string)
            +:+ String.concat EmptyString (map (source_item (fun s => s)) m2)
            +:+ sources_footer.
Proof.
  split; [discriminate|]. split; [reflexivity|]. split; [reflexivity|].
  apply (citation_dedup_last_title (fun s => s) [a_click] 10 None two_titles);
    [discriminate | reflexivity | reflexivity].
Defined.

(** C4, as stated, fails: two fragments cite the same URI, first as "First"
    and then as "Second"; the sources block has one entry for it, rendered
    with "Second". *)
Lemma citation_title_is_not_first_seen :
  first_seen "https://example.org/" (citations (delivered two_titles))
  = Some "First"%string
  /\ streamAppContent (fun s => s) true [a_click] 10 None two_titles
     = [ "<p>a</p>"%string; "<p>b</p>"%string;
         sourcesHtml (fun s => s)
           [("https://example.org/"%string, "Second"%string)] ]
  /\ sourcesHtml (fun s => s) [("https://example.org/"%string, "Second"%string)]
     <> sourcesHtml (fun s => s) [("https://example.org/"%string, "First"%string)].
Proof.
  split; [reflexivity|]. split; [reflexivity|].
  apply String.eqb_neq. vm_compute. reflexivity.
Qed.

(** *** The application state machine *)

Lemma cacheEffect_fields (st : AppState) :
  activeApp (cacheEffect st) = activeApp st
  /\ llmContent (cacheEffect st) = llmContent st
  /\ isLoading (cacheEffect st) = isLoading st
  /\ error (cacheEffect st) = error st
  /\ interactionHistory (cacheEffect st) = interactionHistory st
  /\ currentAppPath (cacheEffect st) = currentAppPath st.
Proof.
  unfold cacheEffect.
  destruct (is_task_handoff (activeAppId st)); [repeat split|].
  destruct (negb (isLoading st) && (0 <? length (currentAppPath st))%nat
            && truthy (llmContent st)); [|repeat split].
  case_bool_decide; repeat split.
Qed.

(** The effect either leaves the cache alone or stores the current,
    non-empty content under the current path key, and only once loading has
    finished. *)
Lemma cacheEffect_cache (st : AppState) :
  appContentCache (cacheEffect st) = appContentCache st
  \/ (isLoading st = false
      /\ truthy (llmContent st) = true
      /\ currentAppPath st <> []
      /\ is_task_handoff (activeAppId st) = false
      /\ appContentCache (cacheEffect st)
         = <[cacheKeyOf (currentAppPath st) := llmContent st]>
             (appContentCache st)).
Proof.
  unfold cacheEffect.
  destruct (is_task_handoff (activeAppId st)) eqn:Hth; [now left|].
  destruct (isLoading st) eqn:Hl; cbn [negb andb]; [now left|].
  destruct (currentAppPath st) as [|p path] eqn:Hp; cbn [length Nat.ltb Nat.leb];
    [now left|].
  destruct (truthy (llmContent st)) eqn:Ht; cbn [andb]; [|now left].
  case_bool_decide; [now left|]. right. repeat split; auto.
Qed.

Lemma cacheEffect_loading (st : AppState) :
  isLoading st = true -> cacheEffect st = st.
Proof.
  intros Hl. unfold cacheEffect. rewrite Hl. cbn [negb andb].
  now destruct (is_task_handoff (activeAppId st)).
Qed.

Lemma cacheEffect_stateless (st : AppState) :
  is_task_handoff (activeAppId st) = true -> cacheEffect st = st.
Proof. intros Hth. unfold cacheEffect. now rewrite Hth. Qed.

(** When the effect fires, the entry of the current path key is the current
    content. *)
Lemma cacheEffect_writes (st : AppState) :
  isLoading st = false -> truthy (llmContent st) = true ->
  currentAppPath st <> [] -> is_task_handoff (activeAppId st) = false ->
  appContentCache (cacheEffect st)
  = <[cacheKeyOf (currentAppPath st) := llmContent st]> (appContentCache st).
Proof.
  intros Hl Ht Hp Hth. unfold cacheEffect. rewrite Hth, Hl, Ht.
  destruct (currentAppPath st) as [|p path] eqn:E; [congruence|].
  cbn [negb andb length Nat.ltb Nat.leb].
  case_bool_decide as Hc; cbn [appContentCache setAppContentCache];
    [|reflexivity].
  symmetry. now apply insert_id.
Qed.

(** Running the effect again changes nothing: one run per task is the
    whole effect of the renders that follow it. *)
Lemma cacheEffect_idempotent (st : AppState) :
  cacheEffect (cacheEffect st) = cacheEffect st.
Proof.
  destruct (cacheEffect_cache st) as [Hsame | (Hl & Ht & Hp & Hth & Hins)].
  - assert (E : cacheEffect st = st).
    { revert Hsame. unfold cacheEffect.
      destruct (is_task_handoff (activeAppId st)); [reflexivity|].
      destruct (negb (isLoading st) && (0 <? length (currentAppPath st))%nat
                && truthy (llmContent st)); [|reflexivity].
      case_bool_decide as Hc; [reflexivity|].
      cbn [appContentCache setAppContentCache]. intros Hsame.
      exfalso. apply Hc. rewrite <- Hsame. apply lookup_insert_eq. }
    now rewrite !E.
  - destruct (cacheEffect_fields st) as (Fa & Fc & Fl & _ & _ & Fp).
    unfold cacheEffect at 1. unfold activeAppId at 1.
    rewrite Fa, Fl, Fp, Fc. fold (activeAppId st).
    rewrite Hth, Hl, Ht.
    destruct (currentAppPath st) as [|p path] eqn:E; [congruence|].
    cbn [negb andb length Nat.ltb Nat.leb].
    rewrite bool_decide_eq_true_2; [reflexivity|].
    rewrite Hins. apply lookup_insert_eq.
Qed.

(** No handler writes the cache. *)
Lemma handle_cache (H : Z) (e : Event) (st : AppState) :
  appContentCache (fst (handle H e st)) = appContentCache st.
Proof.
  destruct e; cbn [handle fst]; try reflexivity.
  - unfold handleAppOpen.
    destruct (cache_read _ _ _); [reflexivity|].
    unfold internalHandleLlmRequest. now cbn.
  - unfold handleInteraction.
    destruct (is_media_action interactionData); [reflexivity|].
    destruct (String.eqb (id interactionData) "app_close_button");
      [reflexivity|].
    destruct (cache_read _ _ _); [reflexivity|].
    unfold internalHandleLlmRequest. now cbn.
Qed.

Lemma step_cache (H : Z) (st : AppState) (e : Event) :
  appContentCache (step H st e) = appContentCache st
  \/ (isLoading (step H st e) = false
      /\ truthy (llmContent (step H st e)) = true
      /\ appContentCache (step H st e)
         = <[cacheKeyOf (currentAppPath (step H st e))
             := llmContent (step H st e)]> (appContentCache st)).
Proof.
  unfold step.
  destruct (cacheEffect_fields (fst (handle H e st)))
    as (_ & Hc & Hl & _ & _ & Hp).
  rewrite Hc, Hl, Hp.
  destruct (cacheEffect_cache (fst (handle H e st)))
    as [Heq | (H1 & H2 & H3 & H4 & H5)].
  - left. now rewrite Heq, handle_cache.
  - right. rewrite H5, handle_cache. auto.
Qed.

Lemma step_cache_nonempty (H : Z) (st : AppState) (e : Event) :
  cache_nonempty (appContentCache st) ->
  cache_nonempty (appContentCache (step H st e)).
Proof.
  intros Hok.
  destruct (step_cache H st e) as [-> | (_ & Ht & ->)]; [exact Hok|].
  now apply map_Forall_insert_2.
Qed.

Lemma step_cache_keeps (H : Z) (st : AppState) (e : Event) (k : string) :
  is_Some (appContentCache st !! k) ->
  is_Some (appContentCache (step H st e) !! k).
Proof.
  intros Hk.
  destruct (step_cache H st e) as [-> | (_ & _ & ->)]; [exact Hk|].
  rewrite lookup_insert. case_decide; [eauto | exact Hk].
Qed.

(** C10. Every value stored in the content cache is a non-empty string:
    one task of the event loop either leaves the cache as it is or stores
    the current content, which is then non-empty and no longer loading;
    so, along every run from a cache without empty values, the cache has no
    empty value and every key that had an entry still has one. *)
Theorem cache_holds_no_empty_string (H : Z) (es : list Event) (st : AppState) :
  cache_nonempty (appContentCache st) ->
  (forall e,
      appContentCache (step H st e) = appContentCache st
      \/ (isLoading (step H st e) = false
          /\ truthy (llmContent (step H st e)) = true
          /\ appContentCache (step H st e)
             = <[cacheKeyOf (currentAppPath (step H st e))
                 := llmContent (step H st e)]> (appContentCache st)))
  /\ cache_nonempty (appContentCache (run H es st))
  /\ (forall k, is_Some (appContentCache st !! k) ->
                is_Some (appContentCache (run H es st) !! k)).
Proof.
  intros Hok. split; [intros e; apply step_cache|].
  revert st Hok. unfold run.
  induction es as [|e es IH]; intros st Hok; cbn [fold_left].
  - split; [exact Hok | auto].
  - destruct (IH (step H st e) (step_cache_nonempty H st e Hok)) as [I1 I2].
    split; [exact I1|]. intros k Hk. apply I2. now apply step_cache_keeps.
Qed.

(** *** The history window *)

Lemma slice0_firstn {A : Type} (l : list A) (e : Z) :
  (0 <= e)%Z -> slice0 l e = firstn (Z.to_nat e) l.
Proof.
  intros He. unfold slice0.
  destruct (Z.ltb_spec e 0) as [Hlt|_]; [lia|].
  destruct (Z.le_ge_cases e (Z.of_nat (length l))) as [Hle|Hge].
  - now rewrite Z.min_l by exact Hle.
  - rewrite Z.min_r by exact Hge. rewrite Nat2Z.id.
    rewrite firstn_all. symmetry. apply firstn_all2. lia.
Qed.

Lemma prepend_slice {A : Type} (x : A) (l : list A) (H : Z) :
  (1 <= H)%Z -> x :: slice0 l (H - 1) = firstn (Z.to_nat H) (x :: l).
Proof.
  intros HH. rewrite slice0_firstn by lia.
  replace (Z.to_nat H) with (S (Z.to_nat (H - 1))) by lia. reflexivity.
Qed.

Lemma firstn_app_firstn {A : Type} (n m : nat) (a b : list A) :
  (n <= m)%nat -> firstn n (a ++ firstn m b) = firstn n (a ++ b).
Proof.
  revert n. induction a as [|x a IH]; intros n Hnm; cbn [app].
  - rewrite List.firstn_firstn. now rewrite Nat.min_l by exact Hnm.
  - destruct n as [|n]; [reflexivity|]. cbn [firstn]. f_equal.
    apply IH. lia.
Qed.

Lemma step_history (H : Z) (st : AppState) (e : Event) :
  interactionHistory (step H st e)
  = match e with
    | AppOpen app => [initialInteraction app]
    | Interaction d =>
        if is_media_action d then interactionHistory st
        else if String.eqb (id d) "app_close_button" then []
        else d :: slice0 (interactionHistory st) (H - 1)
    | ExitToDesktop => []
    | _ => interactionHistory st
    end.
Proof.
  unfold step.
  destruct (cacheEffect_fields (fst (handle H e st)))
    as (_ & _ & _ & _ & -> & _).
  destruct e; cbn [handle fst]; try reflexivity.
  - unfold handleAppOpen.
    destruct (cache_read _ _ _); [reflexivity|].
    unfold internalHandleLlmRequest. now cbn.
  - unfold handleInteraction.
    destruct (is_media_action interactionData); [reflexivity|].
    destruct (String.eqb (id interactionData) "app_close_button");
      [reflexivity|].
    destruct (cache_read _ _ _); [reflexivity|].
    unfold internalHandleLlmRequest. now cbn.
Qed.

Lemma step_history_bound (H : Z) (st : AppState) (e : Event) :
  (1 <= H)%Z ->
  (Z.of_nat (length (interactionHistory st)) <= H)%Z ->
  (Z.of_nat (length (interactionHistory (step H st e))) <= H)%Z.
Proof.
  intros HH Hb. rewrite step_history.
  destruct e; try (cbn [length]; lia).
  destruct (is_media_action interactionData); [exact Hb|].
  destruct (String.eqb _ _); [cbn [length]; lia|].
  rewrite prepend_slice by exact HH. rewrite length_firstn. lia.
Qed.

(** C9. With a maximum [H >= 1], along every run of the event loop the
    history holds at most [H] records; opening an app resets it to the
    single app-open record; a click puts its record in front and keeps the
    first [H] records; hence after any sequence of clicks the history is
    the clicks, most recent first, followed by the older records, cut at
    [H]. *)
Theorem history_window (H : Z) (es : list Event) (st : AppState) :
  (1 <= H)%Z ->
  (Z.of_nat (length (interactionHistory st)) <= H)%Z ->
  (Z.of_nat (length (interactionHistory (run H es st))) <= H)%Z
  /\ (forall app,
         interactionHistory (step H st (AppOpen app))
         = [initialInteraction app])
  /\ (forall d, is_click d ->
         interactionHistory (step H st (Interaction d))
         = firstn (Z.to_nat H) (d :: interactionHistory st))
  /\ (forall ds, Forall is_click ds ->
         interactionHistory (run H (map Interaction ds) st)
         = firstn (Z.to_nat H) (rev ds ++ interactionHistory st)).
Proof.
  intros HH Hb.
  assert (Hclick : forall s d, is_click d ->
             interactionHistory (step H s (Interaction d))
             = firstn (Z.to_nat H) (d :: interactionHistory s)).
  { intros s d [Hm Hc]. rewrite step_history, Hm, Hc.
    now apply prepend_slice. }
  split; [|split; [|split]].
  - clear Hclick. revert st Hb. unfold run.
    induction es as [|e es IH]; intros st Hb; cbn [fold_left]; [exact Hb|].
    apply IH. now apply step_history_bound.
  - intros app. now rewrite step_history.
  - intros d. apply Hclick.
  - intros ds Hds. revert st Hb. unfold run.
    induction Hds as [|d ds Hd Hds IH]; intros st Hb;
      cbn [map fold_left rev app].
    + symmetry. apply firstn_all2. lia.
    + rewrite IH by now apply step_history_bound.
      rewrite (Hclick st d Hd).
      rewrite firstn_app_firstn by lia.
      now rewrite <- app_assoc.
Qed.

(** With a maximum of 0 the bound fails: [slice(0, -1)] only drops the last
    record. *)
Example zero_maximum_breaks_the_bound :
  length (interactionHistory (run 0 [Interaction a_click] initial_state))
  = 1%nat.
Proof. reflexivity. Qed.

(** *** The stateless app *)

Lemma step_activeApp (H : Z) (st : AppState) (e : Event) :
  stays_in_app e = true -> activeApp (step H st e) = activeApp st.
Proof.
  intros Hs. unfold step.
  destruct (cacheEffect_fields (fst (handle H e st))) as (-> & _).
  destruct e; cbn [handle fst]; try reflexivity; try discriminate.
  cbn [stays_in_app] in Hs. unfold handleInteraction.
  destruct (is_media_action interactionData); [reflexivity|].
  destruct (String.eqb (id interactionData) "app_close_button");
    [discriminate|].
  destruct (cache_read _ _ _); [reflexivity|].
  unfold internalHandleLlmRequest. now cbn.
Qed.

Lemma step_stateless (H : Z) (st : AppState) (e : Event) :
  is_task_handoff (activeAppId (step H st e)) = true ->
  appContentCache (step H st e) = appContentCache st.
Proof.
  unfold step. intros Hth.
  assert (Hid : activeAppId (cacheEffect (fst (handle H e st)))
                = activeAppId (fst (handle H e st))).
  { unfold activeAppId.
    now destruct (cacheEffect_fields (fst (handle H e st))) as (-> & _). }
  rewrite Hid in Hth.
  rewrite (cacheEffect_stateless _ Hth). apply handle_cache.
Qed.

(** C7. For [task_handoff_app]: the cache read misses for every key and
    every cache; the cache-write effect does nothing while it is the active
    app; opening it, and every click inside it, starts a generation on
    cleared content; and as long as it stays the active app no task of the
    event loop changes the cache. *)
Theorem task_handoff_is_stateless (H : Z) (st : AppState) :
  (forall cache cacheKey,
      cache_read cache (Some "task_handoff_app"%string) cacheKey = None)
  /\ (activeAppId st = Some "task_handoff_app"%string -> cacheEffect st = st)
  /\ (forall app, app_id app = "task_handoff_app"%string ->
        snd (handleAppOpen H app st)
        = Some {| historyForLlm := [initialInteraction app];
                  maxHistoryLength := H;
                  previousContent := None |}
        /\ llmContent (step H st (AppOpen app)) = EmptyString
        /\ isLoading (step H st (AppOpen app)) = true
        /\ appContentCache (step H st (AppOpen app)) = appContentCache st)
  /\ (forall d, activeAppId st = Some "task_handoff_app"%string ->
        is_click d ->
        snd (handleInteraction H d st)
        = Some {| historyForLlm :=
                    d :: slice0 (interactionHistory st) (H - 1);
                  maxHistoryLength := H;
                  previousContent := Some (llmContent st) |}
        /\ llmContent (step H st (Interaction d)) = EmptyString
        /\ isLoading (step H st (Interaction d)) = true)
  /\ (forall es, activeAppId st = Some "task_handoff_app"%string ->
        forallb stays_in_app es = true ->
        appContentCache (run H es st) = appContentCache st
        /\ activeApp (run H es st) = activeApp st).
Proof.
  assert (Hmiss : forall cache cacheKey,
             cache_read cache (Some "task_handoff_app"%string) cacheKey = None).
  { intros cache cacheKey. unfold cache_read.
    destruct (cache !! cacheKey) as [c|]; [|reflexivity].
    cbn. now rewrite andb_false_r. }
  split; [exact Hmiss|]. split; [|split; [|split]].
  - intros Hact. apply cacheEffect_stateless. now rewrite Hact.
  - intros app Happ.
    assert (Hh : handleAppOpen H app st
                 = internalHandleLlmRequest [initialInteraction app] H None
                     (setError None
                        (setLlmContent (fun _ => EmptyString)
                           (setActiveApp (Some app)
                              (setCurrentAppPath [app_id app]
                                 (setInteractionHistory
                                    [initialInteraction app] st)))))).
    { unfold handleAppOpen. now rewrite Happ, Hmiss. }
    unfold step. cbn [handle]. rewrite Hh.
    unfold internalHandleLlmRequest. cbn [length Nat.eqb fst snd].
    rewrite cacheEffect_loading by reflexivity.
    repeat split.
  - intros d Hact [Hm Hc].
    assert (Hh : handleInteraction H d st
                 = internalHandleLlmRequest
                     (d :: slice0 (interactionHistory st) (H - 1)) H
                     (Some (llmContent st))
                     (setError None
                        (setLlmContent (fun _ => EmptyString)
                           (setCurrentAppPath
                              (match activeApp st with
                               | Some _ => currentAppPath st ++ [id d]
                               | None => [id d]
                               end)
                              (setInteractionHistory
                                 (d :: slice0 (interactionHistory st) (H - 1))
                                 st))))).
    { unfold handleInteraction. now rewrite Hm, Hc, Hact, Hmiss. }
    unfold step. cbn [handle]. rewrite Hh.
    unfold internalHandleLlmRequest. cbn [length Nat.eqb fst snd].
    rewrite cacheEffect_loading by reflexivity.
    repeat split.
  - intros es Hact. revert st Hact. unfold run.
    induction es as [|e es IH]; intros st Hact Hes; cbn [fold_left];
      [split; reflexivity|].
    cbn [forallb] in Hes. apply andb_prop in Hes as [He Hes].
    pose proof (step_activeApp H st e He) as Hsame.
    assert (Hact' : activeAppId (step H st e) = Some "task_handoff_app"%string).
    { unfold activeAppId in *. now rewrite Hsame. }
    destruct (IH (step H st e) Hact' Hes) as [I1 I2].
    rewrite I1, I2. split; [|exact Hsame].
    apply step_stateless. now rewrite Hact'.
Qed.

(** *** One generation, from the handler to the end of its stream *)

Lemma truthy_append (s t : string) : truthy (s +:+ t) = truthy s || truthy t.
Proof. destruct s; reflexivity. Qed.

Lemma truthy_error_block (e : Thrown) : truthy (error_block e) = true.
Proof. reflexivity. Qed.

Lemma truthy_concat_last (ys : list string) (b : string) :
  truthy b = true -> truthy (String.concat EmptyString (ys ++ [b])) = true.
Proof.
  intros Hb. rewrite concat_nosep_app, truthy_append.
  rewrite concat_nosep_cons, truthy_append, Hb. cbn. apply orb_true_r.
Qed.

(** A handler that opens a stream leaves cleared content, the loading flag
    set, a non-empty path and a non-empty history for the generator. *)
Lemma handle_opens (H : Z) (ev : Event) (st : AppState) (req : GenRequest) :
  snd (handle H ev st) = Some req ->
  isLoading (fst (handle H ev st)) = true
  /\ llmContent (fst (handle H ev st)) = EmptyString
  /\ currentAppPath (fst (handle H ev st)) <> []
  /\ historyForLlm req <> [].
Proof.
  destruct ev; cbn [handle fst snd]; try discriminate.
  - unfold handleAppOpen.
    destruct (cache_read _ _ _); [discriminate|].
    unfold internalHandleLlmRequest. cbn. intros [= <-]. cbn.
    repeat split; discriminate.
  - unfold handleInteraction.
    destruct (is_media_action interactionData); [discriminate|].
    destruct (String.eqb (id interactionData) "app_close_button");
      [discriminate|].
    destruct (cache_read _ _ _); [discriminate|].
    unfold internalHandleLlmRequest. cbn. intros [= <-]. cbn.
    repeat split; try discriminate.
    destruct (activeApp st); [|discriminate].
    intros E. apply app_eq_nil in E as [_ E]. discriminate.
Qed.

Lemma run_app (H : Z) (es1 es2 : list Event) (st : AppState) :
  run H (es1 ++ es2) st = run H es2 (run H es1 st).
Proof. unfold run. apply fold_left_app. Qed.

(** While loading, delivered fragments are appended to the content and
    nothing else changes. *)
Lemma run_fragments (H : Z) (gen : nat) (fragments : list string)
    (st : AppState) :
  isLoading st = true ->
  run H (map (Fragment gen) fragments) st
  = setLlmContent
      (fun prev => prev +:+ String.concat EmptyString fragments) st.
Proof.
  revert st. induction fragments as [|c frs IH]; intros st Hl.
  - destruct st. unfold run, setLlmContent. cbn.
    now rewrite append_nil_r.
  - unfold run in *. cbn [map fold_left].
    assert (Hs : step H st (Fragment gen c) = onChunk c st).
    { unfold step. cbn [handle fst]. now apply cacheEffect_loading. }
    rewrite Hs, IH by exact Hl. rewrite concat_nosep_cons.
    unfold onChunk, setLlmContent.
    cbn [activeApp llmContent isLoading error interactionHistory
         appContentCache currentAppPath].
    now rewrite append_assoc.
Qed.

Lemma stream_failure_fragments (encodeURI : string -> string)
    (history : list InteractionData) (maxLen : Z) (previous : option string)
    (response : ResponseStream) (thrown : Thrown) :
  history <> [] -> failure response = Some thrown ->
  exists ys,
    streamAppContent encodeURI true history maxLen previous response
    = ys ++ [error_block thrown].
Proof.
  intros Hne Hf. unfold streamAppContent. cbn [negb].
  destruct history as [|d history]; [congruence|]. cbn [length Nat.eqb].
  destruct (consume (delivered response) []) as [ys m].
  rewrite Hf. now exists ys.
Qed.

(** C1 (amended). When a handler opens a generation for an app other than
    [task_handoff_app] and the stream fails, the fragments end with the
    error block, the content after the stream is the concatenation of the
    fragments, and the cache-write effect stores that content under the
    path key like any other finished generation: a later read of the key
    returns the captured failure. *)
Theorem failed_generation_is_cached (H : Z) (encodeURI : string -> string)
    (st : AppState) (ev : Event) (req : GenRequest) (gen : nat)
    (response : ResponseStream) (thrown : Thrown) :
  snd (handle H ev st) = Some req ->
  is_task_handoff (activeAppId (step H st ev)) = false ->
  failure response = Some thrown ->
  let fragments :=
    streamAppContent encodeURI true (historyForLlm req)
      (maxHistoryLength req) (previousContent req) response in
  let st' := run H (generation gen fragments) (step H st ev) in
  (exists ys, fragments = ys ++ [error_block thrown])
  /\ llmContent st' = String.concat EmptyString fragments
  /\ isLoading st' = false
  /\ appContentCache st'
     = <[cacheKeyOf (currentAppPath st') := llmContent st']>
         (appContentCache st)
  /\ cache_read (appContentCache st') (activeAppId st')
       (cacheKeyOf (currentAppPath st'))
     = Some (llmContent st').
Proof.
  intros Hreq Hth Hfail fragments st'.
  destruct (handle_opens H ev st req Hreq) as (Hl & Hc & Hp & Hh).
  assert (Hstep : step H st ev = fst (handle H ev st)).
  { unfold step. now apply cacheEffect_loading. }
  destruct (stream_failure_fragments encodeURI (historyForLlm req)
              (maxHistoryLength req) (previousContent req) response thrown
              Hh Hfail) as [ys Hys].
  fold fragments in Hys.
  set (s2 := setIsLoading false
               (setLlmContent
                  (fun prev => prev +:+ String.concat EmptyString fragments)
                  (fst (handle H ev st)))).
  assert (Hst' : st' = cacheEffect s2).
  { unfold st', generation. rewrite run_app, Hstep.
    rewrite run_fragments by exact Hl. reflexivity. }
  assert (Hcontent : llmContent s2 = String.concat EmptyString fragments).
  { unfold s2. cbn. now rewrite Hc. }
  assert (Htruthy : truthy (llmContent s2) = true).
  { rewrite Hcontent, Hys. apply truthy_concat_last, truthy_error_block. }
  assert (Hth2 : is_task_handoff (activeAppId s2) = false).
  { rewrite Hstep in Hth. exact Hth. }
  destruct (cacheEffect_fields s2) as (Fa & Fc & Fl & _ & _ & Fp).
  assert (Hcache : appContentCache st'
                   = <[cacheKeyOf (currentAppPath st') := llmContent st']>
                       (appContentCache st)).
  { rewrite Hst', Fp, Fc.
    rewrite cacheEffect_writes; [|reflexivity|exact Htruthy|exact Hp|exact Hth2].
    unfold s2. cbn [appContentCache setIsLoading setLlmContent].
    now rewrite handle_cache. }
  split; [now exists ys|]. split; [now rewrite Hst', Fc|].
  split; [now rewrite Hst', Fl|]. split; [exact Hcache|].
  unfold cache_read. rewrite Hcache, lookup_insert_eq.
  assert (Hid : activeAppId st' = activeAppId s2).
  { unfold activeAppId. now rewrite Hst', Fa. }
  rewrite Hid, Hth2. rewrite Hst', Fc, Htruthy. reflexivity.
Qed.

Lemma failed_generation_is_cached_witness :
  snd (handle 10 (AppOpen calendar_app) initial_state)
  = Some {| historyForLlm := [initialInteraction calendar_app];
            maxHistoryLength := 10;
            previousContent := None |}
  /\ is_task_handoff
       (activeAppId (step 10 initial_state (AppOpen calendar_app))) = false
  /\ failure broken_stream = Some (ErrorObject "network down")
  /\ cache_read (appContentCache failed_visit) (activeAppId failed_visit)
       (cacheKeyOf (currentAppPath failed_visit))
     = Some (llmContent failed_visit).
Proof.
  split; [reflexivity|]. split; [reflexivity|]. split; [reflexivity|].
  apply (failed_generation_is_cached 10 (fun s => s) initial_state
           (AppOpen calendar_app)
           {| historyForLlm := [initialInteraction calendar_app];
              maxHistoryLength := 10;
              previousContent := None |}
           0%nat broken_stream (ErrorObject "network down"));
    reflexivity.
Defined.

(** C1, as stated, fails: the calendar has no cache entry; its generation
    fails after one fragment; afterwards the entry of its path key is the
    partial content followed by the error block, and opening the calendar
    again serves that entry without a new generation. *)
Lemma failed_generation_poisons_cache :
  appContentCache initial_state !! "calendar_app"%string = None
  /\ appContentCache failed_visit !! "calendar_app"%string
     = Some ("<h1>Cal" +:+ error_block (ErrorObject "network down"))
  /\ appContentCache failed_visit !! "calendar_app"%string
     <> appContentCache initial_state !! "calendar_app"%string
  /\ snd (handleAppOpen 10 calendar_app failed_visit) = None
  /\ llmContent (step 10 failed_visit (AppOpen calendar_app))
     = "<h1>Cal" +:+ error_block (ErrorObject "network down").
Proof.
  assert (E : appContentCache failed_visit !! "calendar_app"%string
              = Some ("<h1>Cal" +:+ error_block (ErrorObject "network down")))
    by (vm_compute; reflexivity).
  split; [reflexivity|]. split; [exact E|]. split.
  - rewrite E. discriminate.
  - split; vm_compute; reflexivity.
Qed.

(** C2 (amended). A fragment is appended to the current content whatever
    generation it belongs to: when a handler has just opened a new
    generation and cleared the content, a fragment of an older stream that
    arrives next becomes the content. *)
Theorem stale_fragments_are_appended (H : Z) (st : AppState) (gen : nat)
    (chunk : string) :
  llmContent (step H st (Fragment gen chunk)) = llmContent st +:+ chunk
  /\ (forall ev req, snd (handle H ev st) = Some req ->
        llmContent (step H st ev) = EmptyString
        /\ llmContent (run H [ev; Fragment gen chunk] st) = chunk).
Proof.
  assert (Hfrag : forall s, llmContent (step H s (Fragment gen chunk))
                            = llmContent s +:+ chunk).
  { intros s. unfold step.
    now destruct (cacheEffect_fields (fst (handle H (Fragment gen chunk) s)))
      as (_ & -> & _). }
  split; [apply Hfrag|].
  intros ev req Hreq.
  destruct (handle_opens H ev st req Hreq) as (Hl & Hc & _).
  assert (Hstep : llmContent (step H st ev) = EmptyString).
  { unfold step. rewrite cacheEffect_loading by exact Hl. exact Hc. }
  split; [exact Hstep|].
  unfold run. cbn [fold_left]. now rewrite Hfrag, Hstep.
Qed.

Lemma stale_fragments_are_appended_witness :
  snd (handle 10 (Interaction a_click)
         (run 10 [AppOpen calendar_app; Fragment 0 "<p>old"] initial_state))
  = Some {| historyForLlm := [a_click; initialInteraction calendar_app];
            maxHistoryLength := 10;
            previousContent := Some "<p>old"%string |}
  /\ llmContent
       (run 10 [Interaction a_click; Fragment 0 "</p>"]
          (run 10 [AppOpen calendar_app; Fragment 0 "<p>old"] initial_state))
     = "</p>"%string.
Proof.
  split; [reflexivity|].
  apply (proj2 (stale_fragments_are_appended 10
                  (run 10 [AppOpen calendar_app; Fragment 0 "<p>old"]
                     initial_state) 0%nat "</p>")
           (Interaction a_click)
           {| historyForLlm := [a_click; initialInteraction calendar_app];
              maxHistoryLength := 10;
              previousContent := Some "<p>old"%string |}).
  reflexivity.
Defined.

(** C2, as stated, fails: generation 0 is in flight when a click opens
    generation 1 and clears the content; the next fragment of generation 0
    changes the content, which then holds fragments of both generations. *)
Lemma superseded_stream_still_writes :
  llmContent
    (run 10 [AppOpen calendar_app; Fragment 0 "<p>old"; Interaction a_click]
       initial_state) = EmptyString
  /\ llmContent
       (run 10 [AppOpen calendar_app; Fragment 0 "<p>old"; Interaction a_click;
                Fragment 0 "</p>"] initial_state) = "</p>"%string
  /\ llmContent
       (run 10 [AppOpen calendar_app; Fragment 0 "<p>old"; Interaction a_click;
                Fragment 0 "</p>"; Fragment 1 "<h1>new</h1>"] initial_state)
     = "</p><h1>new</h1>"%string
  /\ llmContent
       (run 10 [AppOpen calendar_app; Fragment 0 "<p>old"; Interaction a_click;
                Fragment 0 "</p>"] initial_state)
     <> llmContent
          (run 10 [AppOpen calendar_app; Fragment 0 "<p>old";
                   Interaction a_click] initial_state).
Proof.
  split; [reflexivity|]. split; [reflexivity|]. split; [reflexivity|].
  discriminate.
Qed.

Lemma cache_holds_no_empty_string_witness :
  cache_nonempty (appContentCache initial_state)
  /\ cache_nonempty
       (appContentCache
          (run 10 (AppOpen calendar_app
                     :: generation 0 ["<h1>"; "Calendar"; "</h1>"]%string)
             initial_state))
  /\ appContentCache
       (run 10 (AppOpen calendar_app
                  :: generation 0 ["<h1>"; "Calendar"; "</h1>"]%string)
          initial_state) !! "calendar_app"%string
     = Some "<h1>Calendar</h1>"%string.
Proof.
  assert (H0 : cache_nonempty (appContentCache initial_state))
    by apply map_Forall_empty.
  split; [exact H0|]. split; [|vm_compute; reflexivity].
  apply (cache_holds_no_empty_string 10
           (AppOpen calendar_app
              :: generation 0 ["<h1>"; "Calendar"; "</h1>"]%string)
           initial_state H0).
Defined.

Lemma history_window_witness :
  (1 <= 10)%Z
  /\ (Z.of_nat (length (interactionHistory initial_state)) <= 10)%Z
  /\ (Z.of_nat
        (length
           (interactionHistory
              (run 10 [AppOpen calendar_app; Interaction a_click]
                 initial_state))) <= 10)%Z.
Proof.
  split; [lia|]. split; [cbn; lia|].
  apply (history_window 10 [AppOpen calendar_app; Interaction a_click]
           initial_state); [lia | cbn; lia].
Defined.

Lemma task_handoff_is_stateless_witness :
  activeAppId (step 10 initial_state (AppOpen task_handoff_app))
  = Some "task_handoff_app"%string
  /\ forallb stays_in_app (generation 0 ["<p>plan</p>"%string]) = true
  /\ appContentCache
       (run 10 (generation 0 ["<p>plan</p>"%string])
          (step 10 initial_state (AppOpen task_handoff_app)))
     = appContentCache (step 10 initial_state (AppOpen task_handoff_app)).
Proof.
  split; [reflexivity|]. split; [reflexivity|].
  apply (proj2 (proj2 (proj2 (proj2
           (task_handoff_is_stateless 10
              (step 10 initial_state (AppOpen task_handoff_app))))))
           (generation 0 ["<p>plan</p>"%string]));
    reflexivity.
Defined.

(** ** Part III: further properties of the modelled code *)

(** *** Streaming into the content *)

(** X1. While a generation is loading, the fragments delivered by its
    stream are appended to the content in arrival order and the cache is
    not touched; the state after the stream has ended depends only on the
    concatenation of the fragments, not on where they were cut. *)
Theorem fragments_accumulate (H : Z) (gen : nat) (frs frs' : list string)
    (st : AppState) :
  isLoading st = true ->
  llmContent (run H (map (Fragment gen) frs) st)
  = llmContent st +:+ String.concat EmptyString frs
  /\ appContentCache (run H (map (Fragment gen) frs) st) = appContentCache st
  /\ isLoading (run H (map (Fragment gen) frs) st) = true
  /\ (String.concat EmptyString frs = String.concat EmptyString frs' ->
      run H (generation gen frs) st = run H (generation gen frs') st).
Proof.
  intros Hl. rewrite (run_fragments H gen frs st Hl).
  split; [reflexivity|]. split; [reflexivity|]. split; [exact Hl|].
  intros Heq. unfold generation. rewrite !run_app.
  rewrite (run_fragments H gen frs st Hl), (run_fragments H gen frs' st Hl).
  now rewrite Heq.
Qed.

Lemma fragments_accumulate_witness :
  isLoading (step 10 initial_state (AppOpen calendar_app)) = true
  /\ llmContent
       (run 10 (map (Fragment 0) ["<div>"; "hello"; "</div>"]%string)
          (step 10 initial_state (AppOpen calendar_app)))
     = llmContent (step 10 initial_state (AppOpen calendar_app))
       +:+ String.concat EmptyString ["<div>"; "hello"; "</div>"]%string.
Proof.
  split; [reflexivity|].
  apply (fragments_accumulate 10 0%nat ["<div>"; "hello"; "</div>"]%string
           ["<div>hello</div>"%string]
           (step 10 initial_state (AppOpen calendar_app))).
  reflexivity.
Defined.

(** *** The cache *)

Lemma cacheKeyOf_singleton (x : string) : cacheKeyOf [x] = x.
Proof. reflexivity. Qed.

Lemma cache_read_Some (cache : gmap string string) (appId : option string)
    (k c : string) :
  cache_read cache appId k = Some c <->
  cache !! k = Some c /\ truthy c = true /\ is_task_handoff appId = false.
Proof.
  unfold cache_read. destruct (cache !! k) as [v|]; [|split; [discriminate|]].
  - destruct (truthy v) eqn:Ht; destruct (is_task_handoff appId) eqn:Hth;
      cbn [andb negb]; split.
    all: try discriminate.
    all: try (intros [= <-]; auto).
    all: try (intros ([= <-] & H1 & H2); congruence).
  - intros (H0 & _). discriminate.
Qed.

(** X4. One task of the event loop changes the cache at most at the key of
    the path current after it: every other entry is as before. *)
Theorem cache_write_is_local (H : Z) (st : AppState) (e : Event) (k : string) :
  k <> cacheKeyOf (currentAppPath (step H st e)) ->
  appContentCache (step H st e) !! k = appContentCache st !! k.
Proof.
  intros Hk.
  destruct (step_cache H st e) as [-> | (_ & _ & ->)]; [reflexivity|].
  now rewrite lookup_insert_ne.
Qed.

Lemma cache_write_is_local_witness :
  "notes_app"%string
  <> cacheKeyOf (currentAppPath
                   (step 10 (step 10 initial_state (AppOpen calendar_app))
                      (StreamSettled 0)))
  /\ appContentCache
       (step 10 (step 10 initial_state (AppOpen calendar_app))
          (StreamSettled 0)) !! "notes_app"%string
     = appContentCache (step 10 initial_state (AppOpen calendar_app))
         !! "notes_app"%string.
Proof.
  split; [discriminate|].
  apply (cache_write_is_local 10 (step 10 initial_state (AppOpen calendar_app))
           (StreamSettled 0) "notes_app"%string).
  discriminate.
Defined.

(** X2. For an app other than [task_handoff_app] whose key misses the
    cache, opening it issues one generation seeded with the single app-open
    record; when the stream has delivered fragments with non-empty
    concatenation and ended, that concatenation is the entry of the key
    [app.id]; the entry survives closing the app, and opening the app again
    shows it at once, without a generation and without a cache write. *)
Theorem generated_screen_is_replayed (H : Z) (st : AppState)
    (app : AppDefinition) (gen : nat) (fragments : list string) :
  is_task_handoff (Some (app_id app)) = false ->
  cache_read (appContentCache st) (Some (app_id app)) (app_id app) = None ->
  truthy (String.concat EmptyString fragments) = true ->
  let st1 := run H (AppOpen app :: generation gen fragments) st in
  let st2 := step H st1 ExitToDesktop in
  snd (handleAppOpen H app st)
  = Some {| historyForLlm := [initialInteraction app];
            maxHistoryLength := H;
            previousContent := None |}
  /\ llmContent st1 = String.concat EmptyString fragments
  /\ appContentCache st1
     = <[app_id app := String.concat EmptyString fragments]>
         (appContentCache st)
  /\ appContentCache st2 = appContentCache st1
  /\ snd (handleAppOpen H app st2) = None
  /\ llmContent (step H st2 (AppOpen app))
     = String.concat EmptyString fragments
  /\ isLoading (step H st2 (AppOpen app)) = false
  /\ appContentCache (step H st2 (AppOpen app)) = appContentCache st1.
Proof.
  intros Hth Hmiss Ht st1 st2.
  set (content := String.concat EmptyString fragments) in *.
  set (s0 := setError None
               (setIsLoading true
                  (setError None
                     (setLlmContent (fun _ => EmptyString)
                        (setActiveApp (Some app)
                           (setCurrentAppPath [app_id app]
                              (setInteractionHistory
                                 [initialInteraction app] st))))))).
  assert (Hopen : handleAppOpen H app st
                  = (s0, Some {| historyForLlm := [initialInteraction app];
                                 maxHistoryLength := H;
                                 previousContent := None |})).
  { unfold handleAppOpen. rewrite cacheKeyOf_singleton, Hmiss. reflexivity. }
  assert (Hs0 : step H st (AppOpen app) = s0).
  { unfold step. cbn [handle]. rewrite Hopen. cbn [fst].
    now apply cacheEffect_loading. }
  set (s1 := setIsLoading false
               (setLlmContent (fun prev => prev +:+ content) s0)).
  assert (Hst1 : st1 = cacheEffect s1).
  { unfold st1. change (AppOpen app :: generation gen fragments)
      with ([AppOpen app] ++ generation gen fragments).
    rewrite run_app. unfold run at 2. cbn [fold_left]. rewrite Hs0.
    unfold generation. rewrite run_app, run_fragments by reflexivity.
    reflexivity. }
  destruct (cacheEffect_fields s1) as (Fa & Fc & Fl & Fe & Fh & Fp).
  assert (Hc1 : llmContent st1 = content) by (rewrite Hst1, Fc; reflexivity).
  assert (Hcache1 : appContentCache st1
                    = <[app_id app := content]> (appContentCache st)).
  { rewrite Hst1.
    rewrite cacheEffect_writes;
      [reflexivity | reflexivity | exact Ht | discriminate | exact Hth]. }
  assert (Hst2 : st2 = setAppContentCache (fun _ => appContentCache st1)
                        initial_state) by reflexivity.
  clearbody st2 st1.
  assert (Hhit : cache_read (appContentCache st2) (Some (app_id app))
                   (app_id app) = Some content).
  { apply cache_read_Some. rewrite Hst2. cbn.
    rewrite Hcache1, lookup_insert_eq. auto. }
  assert (Hreopen : handleAppOpen H app st2
                    = (setIsLoading false
                         (setLlmContent (fun _ => content)
                            (setError None
                               (setLlmContent (fun _ => EmptyString)
                                  (setActiveApp (Some app)
                                     (setCurrentAppPath [app_id app]
                                        (setInteractionHistory
                                           [initialInteraction app] st2)))))),
                       None)).
  { unfold handleAppOpen. rewrite cacheKeyOf_singleton, Hhit. reflexivity. }
  split; [now rewrite Hopen|]. split; [exact Hc1|]. split; [exact Hcache1|].
  split; [now rewrite Hst2|]. split; [now rewrite Hreopen|].
  unfold step. cbn [handle]. rewrite Hreopen. cbn [fst].
  match goal with |- context [cacheEffect ?s] => set (s3 := s) end.
  assert (Hc3 : appContentCache s3 = appContentCache st1).
  { unfold s3. cbn. now rewrite Hst2. }
  assert (Hp3 : currentAppPath s3 = [app_id app]) by reflexivity.
  assert (Hl3 : llmContent s3 = content) by reflexivity.
  destruct (cacheEffect_fields s3) as (_ & -> & -> & _).
  split; [exact Hl3|]. split; [reflexivity|].
  destruct (cacheEffect_cache s3) as [-> | (_ & _ & _ & _ & ->)];
    [exact Hc3|].
  rewrite Hp3, Hl3, Hc3, cacheKeyOf_singleton, Hcache1.
  now rewrite insert_insert_eq.
Qed.

Lemma generated_screen_is_replayed_witness :
  is_task_handoff (Some (app_id calendar_app)) = false
  /\ cache_read (appContentCache initial_state) (Some (app_id calendar_app))
       (app_id calendar_app) = None
  /\ truthy (String.concat EmptyString ["<h1>"; "Calendar"; "</h1>"]%string)
     = true
  /\ llmContent
       (step 10
          (step 10
             (run 10 (AppOpen calendar_app
                        :: generation 0 ["<h1>"; "Calendar"; "</h1>"]%string)
                initial_state)
             ExitToDesktop)
          (AppOpen calendar_app))
     = String.concat EmptyString ["<h1>"; "Calendar"; "</h1>"]%string.
Proof.
  split; [reflexivity|]. split; [reflexivity|]. split; [reflexivity|].
  apply (generated_screen_is_replayed 10 initial_state calendar_app 0%nat
           ["<h1>"; "Calendar"; "</h1>"]%string);
    reflexivity.
Defined.

(** X3. A click whose new path key has a non-empty cache entry, in an app
    other than [task_handoff_app], is served from the cache: no generation
    is opened, the content becomes the entry, loading is off, the error is
    cleared, the path is extended and the cache is not written. *)
Theorem cached_click_is_served (H : Z) (st : AppState) (d : InteractionData)
    (cached : string) :
  is_click d ->
  cache_read (appContentCache st) (activeAppId st) (cacheKeyOf (newPath st d))
  = Some cached ->
  snd (handleInteraction H d st) = None
  /\ llmContent (step H st (Interaction d)) = cached
  /\ isLoading (step H st (Interaction d)) = false
  /\ error (step H st (Interaction d)) = None
  /\ currentAppPath (step H st (Interaction d)) = newPath st d
  /\ appContentCache (step H st (Interaction d)) = appContentCache st.
Proof.
  intros [Hm Hc] Hhit.
  pose proof (proj1 (cache_read_Some _ _ _ _) Hhit) as (Hlook & Ht & Hth).
  assert (Hh : handleInteraction H d st
               = (setIsLoading false
                    (setLlmContent (fun _ => cached)
                       (setError None
                          (setLlmContent (fun _ => EmptyString)
                             (setCurrentAppPath (newPath st d)
                                (setInteractionHistory
                                   (d :: slice0 (interactionHistory st) (H - 1))
                                   st))))),
                  None)).
  { unfold handleInteraction. rewrite Hm, Hc.
    fold (newPath st d). now rewrite Hhit. }
  split; [now rewrite Hh|].
  unfold step. cbn [handle]. rewrite Hh. cbn [fst].
  match goal with |- context [cacheEffect ?s] => set (s1 := s) end.
  destruct (cacheEffect_fields s1) as (_ & -> & -> & -> & _ & ->).
  repeat (split; [reflexivity|]).
  destruct (cacheEffect_cache s1) as [-> | (_ & _ & _ & _ & ->)];
    [reflexivity|].
  change (<[cacheKeyOf (newPath st d) := cached]> (appContentCache st)
          = appContentCache st).
  now apply insert_id.
Qed.

Lemma cached_click_is_served_witness :
  is_click a_click
  /\ cache_read
       (appContentCache
          (run 10 (AppOpen calendar_app :: Interaction a_click
                     :: generation 1 ["<p>found</p>"%string] ++ [AppOpen calendar_app])
             initial_state))
       (Some "calendar_app"%string)
       "calendar_app__search_button"%string
     = Some "<p>found</p>"%string
  /\ llmContent
       (step 10
          (run 10 (AppOpen calendar_app :: Interaction a_click
                     :: generation 1 ["<p>found</p>"%string] ++ [AppOpen calendar_app])
             initial_state)
          (Interaction a_click))
     = "<p>found</p>"%string.
Proof.
  split; [split; reflexivity|]. split; [vm_compute; reflexivity|].
  apply (cached_click_is_served 10
           (run 10 (AppOpen calendar_app :: Interaction a_click
                      :: generation 1 ["<p>found</p>"%string] ++ [AppOpen calendar_app])
              initial_state)
           a_click "<p>found</p>"%string);
    [split; reflexivity | vm_compute; reflexivity].
Defined.

(** *** Path and history *)

Lemma step_path (H : Z) (st : AppState) (e : Event) :
  currentAppPath (step H st e)
  = match e with
    | AppOpen app => [app_id app]
    | Interaction d =>
        if is_media_action d then currentAppPath st
        else if String.eqb (id d) "app_close_button" then []
        else newPath st d
    | ExitToDesktop => []
    | _ => currentAppPath st
    end.
Proof.
  unfold step.
  destruct (cacheEffect_fields (fst (handle H e st)))
    as (_ & _ & _ & _ & _ & ->).
  destruct e; cbn [handle fst]; try reflexivity.
  - unfold handleAppOpen.
    destruct (cache_read _ _ _); [reflexivity|].
    unfold internalHandleLlmRequest. now cbn.
  - unfold handleInteraction.
    destruct (is_media_action interactionData); [reflexivity|].
    destruct (String.eqb (id interactionData) "app_close_button");
      [reflexivity|].
    destruct (cache_read _ _ _); [reflexivity|].
    unfold internalHandleLlmRequest. now cbn.
Qed.

Lemma step_active (H : Z) (st : AppState) (e : Event) :
  activeApp (step H st e)
  = match e with
    | AppOpen app => Some app
    | Interaction d =>
        if is_media_action d then activeApp st
        else if String.eqb (id d) "app_close_button" then None
        else activeApp st
    | ExitToDesktop => None
    | _ => activeApp st
    end.
Proof.
  unfold step.
  destruct (cacheEffect_fields (fst (handle H e st))) as (-> & _).
  destruct e; cbn [handle fst]; try reflexivity.
  - unfold handleAppOpen.
    destruct (cache_read _ _ _); [reflexivity|].
    unfold internalHandleLlmRequest. now cbn.
  - unfold handleInteraction.
    destruct (is_media_action interactionData); [reflexivity|].
    destruct (String.eqb (id interactionData) "app_close_button");
      [reflexivity|].
    destruct (cache_read _ _ _); [reflexivity|].
    unfold internalHandleLlmRequest. now cbn.
Qed.

Lemma step_tracked (H : Z) (st : AppState) (e : Event) :
  (1 <= H)%Z -> tracked H st -> tracked H (step H st e).
Proof.
  intros HH Htr a. rewrite step_active, step_path, step_history.
  destruct e; try apply Htr; try discriminate.
  - intros [= <-]. split; [now exists []|].
    cbn -[Z.to_nat firstn].
    replace (Z.to_nat H) with (S (Z.to_nat (H - 1))) by lia.
    cbn [firstn]. now rewrite firstn_nil.
  - destruct (is_media_action interactionData); [apply Htr|].
    destruct (String.eqb (id interactionData) "app_close_button");
      [discriminate|].
    intros Hact. destruct (Htr a Hact) as ([rest Hp] & Hh).
    unfold newPath. rewrite Hact. split.
    + exists (rest ++ [id interactionData]). now rewrite Hp.
    + rewrite prepend_slice by exact HH.
      rewrite <- firstn_map. cbn [map]. rewrite Hh.
      rewrite rev_app_distr. cbn [rev app].
      change (id interactionData :: firstn (Z.to_nat H) (rev (currentAppPath st)))
        with ([id interactionData]
                ++ firstn (Z.to_nat H) (rev (currentAppPath st))).
      now rewrite firstn_app_firstn by lia.
Qed.

(** X5. With a maximum [H >= 1], in every state reached from the initial
    one: while an app is open, the interaction path starts with the id of
    that app, and the identifiers of the history records are the elements of
    the path, newest first, cut at [H]. *)
Theorem path_and_history_agree (H : Z) (es : list Event) :
  (1 <= H)%Z -> tracked H (run H es initial_state).
Proof.
  intros HH.
  assert (Hinit : tracked H initial_state) by (intros a; discriminate).
  revert Hinit. generalize initial_state. unfold run.
  induction es as [|e es IH]; intros st Htr; cbn [fold_left]; [exact Htr|].
  apply IH. now apply step_tracked.
Qed.

Lemma path_and_history_agree_witness :
  (1 <= 2)%Z
  /\ currentAppPath
       (run 2 [AppOpen calendar_app; Interaction a_click; Interaction a_click]
          initial_state)
     = ["calendar_app"; "search_button"; "search_button"]%string
  /\ map id
       (interactionHistory
          (run 2 [AppOpen calendar_app; Interaction a_click; Interaction a_click]
             initial_state))
     = firstn (Z.to_nat 2)
         (rev (currentAppPath
                 (run 2 [AppOpen calendar_app; Interaction a_click;
                         Interaction a_click] initial_state))).
Proof.
  split; [lia|]. split; [reflexivity|].
  apply (path_and_history_agree 2
           [AppOpen calendar_app; Interaction a_click; Interaction a_click]
           ltac:(lia) calendar_app).
  reflexivity.
Defined.

(** X6. Every generation a handler opens is seeded with the history the
    handler has just stored: it is not empty, its first record is the
    triggering interaction, and with [H >= 1] it has at most [H] records;
    the maximum passed is [H]; the previous content passed is [null] for an
    app opening and the content shown before the click otherwise. *)
Theorem request_is_seeded (H : Z) (ev : Event) (st : AppState)
    (req : GenRequest) :
  (1 <= H)%Z ->
  snd (handle H ev st) = Some req ->
  historyForLlm req = interactionHistory (step H st ev)
  /\ maxHistoryLength req = H
  /\ (Z.of_nat (length (historyForLlm req)) <= H)%Z
  /\ match ev with
     | AppOpen app =>
         historyForLlm req = [initialInteraction app]
         /\ previousContent req = None
     | Interaction d =>
         is_click d
         /\ hd_error (historyForLlm req) = Some d
         /\ previousContent req = Some (llmContent st)
     | _ => False
     end.
Proof.
  intros HH Hreq. rewrite step_history.
  destruct ev; cbn [handle snd] in Hreq; try discriminate.
  - unfold handleAppOpen in Hreq.
    destruct (cache_read _ _ _); [discriminate|].
    unfold internalHandleLlmRequest in Hreq. cbn in Hreq.
    injection Hreq as <-. cbn. repeat split; lia.
  - unfold handleInteraction in Hreq.
    destruct (is_media_action interactionData) eqn:Hm; [discriminate|].
    destruct (String.eqb (id interactionData) "app_close_button") eqn:Hc;
      [discriminate|].
    destruct (cache_read _ _ _); [discriminate|].
    unfold internalHandleLlmRequest in Hreq. cbn in Hreq.
    injection Hreq as <-.
    cbn [historyForLlm maxHistoryLength previousContent hd_error].
    repeat split; [|exact Hm|exact Hc].
    rewrite prepend_slice by exact HH. rewrite length_firstn. lia.
Qed.

Lemma request_is_seeded_witness :
  (1 <= 10)%Z
  /\ snd (handle 10 (AppOpen calendar_app) initial_state)
     = Some {| historyForLlm := [initialInteraction calendar_app];
               maxHistoryLength := 10;
               previousContent := None |}
  /\ (Z.of_nat (length [initialInteraction calendar_app]) <= 10)%Z.
Proof.
  split; [lia|]. split; [reflexivity|].
  apply (request_is_seeded 10 (AppOpen calendar_app) initial_state
           {| historyForLlm := [initialInteraction calendar_app];
              maxHistoryLength := 10;
              previousContent := None |});
    [lia | reflexivity].
Defined.

(** *** What the generator yields *)

Lemma consume_texts (response : list GenerateContentResponse)
    (m : list (string * string)) :
  fst (consume response m) = texts response.
Proof.
  revert m. induction response as [|c rest IH]; intros m; [reflexivity|].
  cbn [consume texts flat_map].
  specialize (IH (collect (groundingChunks c) m)).
  destruct (consume rest (collect (groundingChunks c) m)) as [ys m'].
  cbn [fst] in *. rewrite IH.
  destruct (text c) as [t|]; [|reflexivity]. now destruct (truthy t).
Qed.

Lemma texts_truthy (response : list GenerateContentResponse) :
  Forall (fun f => truthy f = true) (texts response).
Proof.
  induction response as [|c rest IH]; [constructor|].
  cbn [texts flat_map]. apply Forall_app. split; [|exact IH].
  destruct (text c) as [t|]; [|constructor].
  destruct (truthy t) eqn:Ht; repeat constructor. exact Ht.
Qed.

Lemma sources_nil (cites : list WebSource) :
  fold_left set_source cites [] = [] <-> cites = [].
Proof.
  split; [|now intros ->].
  destruct cites as [|w cites]; [reflexivity|]. intros Hnil. exfalso.
  pose proof (sources_get (uri w) (w :: cites) []) as Hget.
  rewrite Hnil, last_seen_cons in Hget. cbn [Map_get find fmap] in Hget.
  destruct (last_seen (uri w) cites); [discriminate|].
  now rewrite String.eqb_refl in Hget.
Qed.

Lemma streamAppContent_fragments (encodeURI : string -> string)
    (history : list InteractionData) (maxLen : Z) (previous : option string)
    (response : ResponseStream) :
  history <> [] ->
  streamAppContent encodeURI true history maxLen previous response
  = texts (delivered response)
    ++ match failure response with
       | Some e => [error_block e]
       | None =>
           match citations (delivered response) with
           | [] => []
           | _ :: _ =>
               [sourcesHtml encodeURI
                  (fold_left set_source (citations (delivered response)) [])]
           end
       end.
Proof.
  intros Hne. unfold streamAppContent. cbn [negb].
  destruct history as [|d history]; [congruence|]. cbn [length Nat.eqb].
  pose proof (consume_sources (delivered response) []) as Hm.
  pose proof (consume_texts (delivered response) []) as Hy.
  destruct (consume (delivered response) []) as [ys m].
  cbn [fst snd] in *. subst ys m.
  destruct (failure response) as [e|]; [reflexivity|].
  destruct (citations (delivered response)) as [|w cites] eqn:Hc.
  - cbn. now rewrite app_nil_r.
  - destruct (fold_left set_source (w :: cites) []) as [|entry m] eqn:Hf.
    + apply sources_nil in Hf. discriminate.
    + reflexivity.
Qed.

Lemma texts_length (response : list GenerateContentResponse) :
  (length (texts response) <= length response)%nat.
Proof.
  induction response as [|c rest IH]; [reflexivity|].
  cbn [texts flat_map]. rewrite length_app. fold (texts rest). cbn [length].
  destruct (text c) as [t|]; [destruct (truthy t)|]; cbn [length]; lia.
Qed.

(** X7. For a non-empty history and with an API key, the generator yields
    the non-empty texts of the delivered elements, in order, followed by one
    last fragment: the error block when the stream fails, the sources block
    when it ends normally and some element carried a web citation, nothing
    otherwise. So it yields at most one fragment more than the remote
    generator delivered elements. *)
Theorem stream_output (encodeURI : string -> string)
    (history : list InteractionData) (maxLen : Z) (previous : option string)
    (response : ResponseStream) :
  history <> [] ->
  streamAppContent encodeURI true history maxLen previous response
  = texts (delivered response)
    ++ match failure response with
       | Some e => [error_block e]
       | None =>
           match citations (delivered response) with
           | [] => []
           | _ :: _ =>
               [sourcesHtml encodeURI
                  (fold_left set_source (citations (delivered response)) [])]
           end
       end
  /\ (length (streamAppContent encodeURI true history maxLen previous
                response)
      <= S (length (delivered response)))%nat.
Proof.
  intros Hne.
  pose proof (streamAppContent_fragments encodeURI history maxLen previous
                response Hne) as Heq.
  split; [exact Heq|].
  rewrite Heq, length_app.
  pose proof (texts_length (delivered response)) as Hlen.
  destruct (failure response) as [e|]; [cbn [length]; lia|].
  destruct (citations (delivered response)); cbn [length]; lia.
Qed.

Lemma stream_output_witness :
  [a_click] <> []
  /\ streamAppContent (fun s => s) true [a_click] 10 None broken_stream
     = ["<h1>Cal"%string; error_block (ErrorObject "network down")].
Proof.
  split; [discriminate|].
  apply (stream_output (fun s => s) [a_click] 10 None broken_stream).
  discriminate.
Defined.

Lemma truthy_sourcesHtml (encodeURI : string -> string)
    (m : list (string * string)) : truthy (sourcesHtml encodeURI m) = true.
Proof. reflexivity. Qed.

(** X8. The generator never yields an empty fragment, whatever the API
    key, the history and the answer of the remote generator are; on a failed
    stream, and without an API key or history, it yields at least one
    fragment. *)
Theorem fragments_are_never_empty (encodeURI : string -> string)
    (API_KEY : bool) (history : list InteractionData) (maxLen : Z)
    (previous : option string) (response : ResponseStream) :
  Forall (fun f => truthy f = true)
    (streamAppContent encodeURI API_KEY history maxLen previous response)
  /\ (API_KEY = false \/ history = [] \/ failure response <> None ->
      streamAppContent encodeURI API_KEY history maxLen previous response
      <> []).
Proof.
  destruct API_KEY.
  2:{ split; [repeat constructor | discriminate]. }
  destruct history as [|d history].
  { split; [repeat constructor | discriminate]. }
  rewrite streamAppContent_fragments by discriminate. split.
  - apply Forall_app. split; [apply texts_truthy|].
    destruct (failure response) as [e|]; [repeat constructor|].
    destruct (citations (delivered response)); repeat constructor.
  - intros [Hk | [Hh | Hf]]; [discriminate | discriminate |].
    destruct (failure response) as [e|]; [|congruence].
    intros Habs. apply app_eq_nil in Habs as [_ Habs]. discriminate.
Qed.

(** *** The sources block *)

Lemma filter_filter_and {A : Type} (P Q : A -> bool) (l : list A) :
  List.filter P (List.filter Q l) = List.filter (fun x => Q x && P x) l.
Proof.
  induction l as [|x l IH]; [reflexivity|]. cbn [List.filter].
  destruct (Q x); cbn [List.filter andb]; [|exact IH].
  destruct (P x); now rewrite IH.
Qed.

Lemma filter_all {A : Type} (P : A -> bool) (l : list A) :
  (forall x, P x = true) -> List.filter P l = l.
Proof.
  intros HP. induction l as [|x l IH]; [reflexivity|].
  cbn [List.filter]. now rewrite HP, IH.
Qed.

Lemma mem_snoc (y u : string) (l : list string) :
  mem y (l ++ [u]) = mem y l || String.eqb y u.
Proof.
  unfold mem. rewrite existsb_app. cbn [existsb]. now rewrite orb_false_r.
Qed.

Lemma Map_set_keys (k v : string) (m : list (string * string)) :
  map fst (Map_set k v m)
  = if mem k (map fst m) then map fst m else map fst m ++ [k].
Proof.
  induction m as [|[k0 v0] m IH]; [reflexivity|].
  cbn [Map_set map fst]. unfold mem in *. cbn [existsb].
  rewrite (String.eqb_sym k k0).
  destruct (String.eqb k0 k) eqn:E; cbn [map fst orb].
  - apply String.eqb_eq in E. now subst.
  - rewrite IH. now destruct (existsb (String.eqb k) (map fst m)).
Qed.

Lemma sources_keys (cites : list WebSource) (m : list (string * string)) :
  map fst (fold_left set_source cites m)
  = map fst m
    ++ List.filter (fun u => negb (mem u (map fst m)))
         (distinct (map uri cites)).
Proof.
  revert m. induction cites as [|w cites IH]; intros m.
  - cbn. now rewrite app_nil_r.
  - cbn [fold_left map distinct]. rewrite IH. unfold set_source.
    rewrite Map_set_keys. cbn [List.filter].
    destruct (mem (uri w) (map fst m)) eqn:Hin; cbn [negb].
    + f_equal. rewrite filter_filter_and. apply filter_ext. intros y.
      destruct (String.eqb_spec y (uri w)) as [->|Hne]; cbn [negb andb];
        [now rewrite Hin | reflexivity].
    + rewrite <- app_assoc. cbn [app]. f_equal. f_equal.
      rewrite filter_filter_and. apply filter_ext. intros y.
      rewrite mem_snoc.
      destruct (mem y (map fst m)), (String.eqb y (uri w)); reflexivity.
Qed.

Lemma Map_get_In (u t : string) (m : list (string * string)) :
  List.NoDup (map fst m) -> In (u, t) m -> Map_get u m = Some t.
Proof.
  unfold Map_get.
  induction m as [|[k0 v0] m IH]; cbn [find map fst In]; intros Hnd Hin;
    [contradiction|].
  apply List.NoDup_cons_iff in Hnd as [Hnin Hnd].
  destruct Hin as [[= -> ->] | Hin].
  - now rewrite String.eqb_refl.
  - destruct (String.eqb_spec k0 u) as [->|Hne]; [|now apply IH].
    exfalso. apply Hnin. apply in_map_iff. now exists (u, t).
Qed.

(** X9. When the stream of a non-empty history ends normally and at
    least one web citation was delivered, the last fragment is the sources
    block; it has one entry per distinct cited URI, the entries are in the
    order in which the URIs were first cited, and each entry carries the
    title of the last citation of its URI. *)
Theorem sources_in_first_citation_order (encodeURI : string -> string)
    (history : list InteractionData) (maxLen : Z) (previous : option string)
    (response : ResponseStream) :
  history <> [] ->
  failure response = None ->
  citations (delivered response) <> [] ->
  exists m : list (string * string),
    last (streamAppContent encodeURI true history maxLen previous response)
    = Some (sourcesHtml encodeURI m)
    /\ map fst m = distinct (map uri (citations (delivered response)))
    /\ List.NoDup (map fst m)
    /\ (forall u t, In (u, t) m ->
          last_seen u (citations (delivered response)) = Some t).
Proof.
  intros Hne Hok Hc.
  exists (fold_left set_source (citations (delivered response)) []).
  split; [|split; [|split]].
  - rewrite streamAppContent_fragments by exact Hne. rewrite Hok.
    destruct (citations (delivered response)) as [|w cites]; [congruence|].
    apply last_snoc.
  - rewrite sources_keys. cbn [map app]. now apply filter_all.
  - apply sources_NoDup. constructor.
  - intros u t Hin.
    assert (Hnd : List.NoDup
                    (map fst (fold_left set_source
                                (citations (delivered response)) [])))
      by (apply sources_NoDup; constructor).
    pose proof (Map_get_In u t _ Hnd Hin) as Hget.
    rewrite sources_get in Hget.
    now destruct (last_seen u (citations (delivered response))).
Qed.

Lemma sources_in_first_citation_order_witness :
  [a_click] <> []
  /\ failure three_sources = None
  /\ citations (delivered three_sources) <> []
  /\ exists m : list (string * string),
       last (streamAppContent (fun s => s) true [a_click] 10 None
               three_sources)
       = Some (sourcesHtml (fun s => s) m)
       /\ map fst m
          = ["https://b.example/"; "https://a.example/";
             "https://c.example/"]%string.
Proof.
  split; [discriminate|]. split; [reflexivity|]. split; [discriminate|].
  destruct (sources_in_first_citation_order (fun s => s) [a_click] 10 None
              three_sources)
    as (m & Hlast & Hkeys & _); [discriminate | reflexivity | discriminate |].
  exists m. split; [exact Hlast | exact Hkeys].
Defined.

Lemma occurs_append (c : ascii) (s t : string) :
  occurs c (s +:+ t) = occurs c s || occurs c t.
Proof.
  induction s as [|c' s IH]; [reflexivity|].
  change (String c' s +:+ t) with (String c' (s +:+ t)).
  cbn [occurs]. rewrite IH. now rewrite orb_assoc.
Qed.

Lemma replace_char_removes (c : ascii) (by_ s : string) :
  occurs c by_ = false -> occurs c (replace_char c by_ s) = false.
Proof.
  intros Hby. induction s as [|c' s IH]; [reflexivity|].
  cbn [replace_char]. destruct (Ascii.eqb c' c) eqn:E.
  - now rewrite occurs_append, Hby, IH.
  - cbn [occurs]. now rewrite E, IH.
Qed.

Lemma replace_char_keeps_out (c c0 : ascii) (by_ s : string) :
  occurs c0 by_ = false -> occurs c0 s = false ->
  occurs c0 (replace_char c by_ s) = false.
Proof.
  intros Hby. induction s as [|c' s IH]; [reflexivity|].
  cbn [occurs replace_char]. intros Hs.
  apply orb_false_elim in Hs as [Hc' Hs].
  destruct (Ascii.eqb c' c).
  - now rewrite occurs_append, Hby, IH.
  - cbn [occurs]. now rewrite Hc', IH.
Qed.

Lemma replace_char_absent (c : ascii) (by_ s : string) :
  occurs c s = false -> replace_char c by_ s = s.
Proof.
  induction s as [|c' s IH]; [reflexivity|].
  cbn [occurs replace_char]. intros Hs.
  apply orb_false_elim in Hs as [Hc' Hs]. now rewrite Hc', IH.
Qed.

(** X10. The title rendered in the sources block contains neither [<] nor
    [>], whatever the cited title is; a title without these characters is
    rendered as it is. *)
Theorem escaped_title_has_no_angle_bracket (t : string) :
  occurs "<" (escape_title t) = false
  /\ occurs ">" (escape_title t) = false
  /\ (occurs "<" t = false -> occurs ">" t = false -> escape_title t = t).
Proof.
  unfold escape_title. split; [|split].
  - apply replace_char_keeps_out; [reflexivity|].
    now apply replace_char_removes.
  - now apply replace_char_removes.
  - intros H1 H2. rewrite (replace_char_absent "<" _ t H1).
    now apply replace_char_absent.
Qed.

(** X11. The search tool is attached to a generation request exactly when
    the triggering interaction belongs to [task_handoff_app] or
    [web_browser_app] and is not an app opening; the request opened by
    [handleAppOpen] never carries it. *)
Theorem search_tool_only_after_first_screen (H : Z) (ev : Event)
    (st : AppState) (req : GenRequest) :
  snd (handle H ev st) = Some req ->
  match ev with
  | AppOpen _ => config_tools (historyForLlm req) = None
  | Interaction d =>
      config_tools (historyForLlm req)
      = if (bool_decide (appContext d = Some "task_handoff_app"%string)
            || bool_decide (appContext d = Some "web_browser_app"%string))
           && negb (String.eqb (type d) "app_open")
        then Some [googleSearch]
        else None
  | _ => False
  end.
Proof.
  intros Hreq.
  destruct ev; cbn [handle snd] in Hreq; try discriminate.
  - unfold handleAppOpen in Hreq.
    destruct (cache_read _ _ _); [discriminate|].
    unfold internalHandleLlmRequest in Hreq. cbn in Hreq.
    injection Hreq as <-.
    cbn [historyForLlm config_tools]. unfold isTaskHandoffAgentActive,
      isWebBrowserActive. cbn [type initialInteraction String.eqb Ascii.eqb].
    cbn. now rewrite !andb_false_r.
  - unfold handleInteraction in Hreq.
    destruct (is_media_action interactionData); [discriminate|].
    destruct (String.eqb (id interactionData) "app_close_button");
      [discriminate|].
    destruct (cache_read _ _ _); [discriminate|].
    unfold internalHandleLlmRequest in Hreq. cbn in Hreq.
    injection Hreq as <-.
    cbn [historyForLlm config_tools]. unfold isTaskHandoffAgentActive,
      isWebBrowserActive.
    destruct (bool_decide (appContext interactionData = Some "task_handoff_app"%string)),
      (bool_decide (appContext interactionData = Some "web_browser_app"%string)),
      (String.eqb (type interactionData) "app_open"); reflexivity.
Qed.

Lemma search_tool_only_after_first_screen_witness :
  snd (handle 10 (Interaction a_click)
         (step 10 initial_state (AppOpen web_browser_app)))
  = Some {| historyForLlm := [a_click; initialInteraction web_browser_app];
            maxHistoryLength := 10;
            previousContent := Some EmptyString |}
  /\ config_tools [a_click; initialInteraction web_browser_app]
     = Some [googleSearch].
Proof.
  split; [reflexivity|].
  apply (search_tool_only_after_first_screen 10 (Interaction a_click)
           (step 10 initial_state (AppOpen web_browser_app))
           {| historyForLlm := [a_click; initialInteraction web_browser_app];
              maxHistoryLength := 10;
              previousContent := Some EmptyString |}).
  reflexivity.
Defined.

(** *** Audio frames *)

Lemma Uint8_of_Int16_length (l : list Z) :
  length (Uint8_of_Int16 l) = (2 * length l)%nat.
Proof.
  induction l as [|v l IH]; [reflexivity|].
  unfold Uint8_of_Int16 in *. cbn [flat_map int16_bytes app length].
  rewrite IH. lia.
Qed.

(** X12. [decode] inverts the serialization of [createPcmBlob] for every
    sample array: the frame decodes to two bytes per sample, each in
    [0, 255], whose 16-bit view is the array of stored integers. *)
Theorem frame_decodes_to_its_bytes (samples : list sample) :
  exists bytes : list Z,
    decode (data (createPcmBlob samples)) = Some bytes
    /\ length bytes = (2 * length samples)%nat
    /\ Forall is_byte bytes
    /\ Int16_of_Uint8 bytes = Some (pcm_int16 samples)
    /\ mimeType (createPcmBlob samples) = "audio/pcm;rate=16000"%string.
Proof.
  exists (Uint8_of_Int16 (pcm_int16 samples)).
  split; [|split; [|split; [|split]]].
  - unfold decode, createPcmBlob. cbn [data].
    apply atob_btoa, int16_bytes_are_bytes.
  - rewrite Uint8_of_Int16_length. unfold pcm_int16. now rewrite length_map.
  - apply int16_bytes_are_bytes.
  - apply Int16_of_Uint8_of_Int16, pcm_int16_range.
  - reflexivity.
Qed.

Lemma int16_normalized (v : Z) : is_int16 v -> normalized (v # 32768).
Proof.
  unfold is_int16, normalized, Qle, Qlt. cbn. lia.
Qed.

(** X13. Every non-empty sample array, whatever its samples are, makes a
    frame that the inbound path decodes: one channel at 24 kHz with as many
    samples as the array, each the stored integer divided by 32768 and
    hence in [-1, 1); NaN and the infinities come back as 0. *)
Theorem every_frame_plays (samples : list sample) :
  samples <> [] ->
  decodeInbound (data (createPcmBlob samples))
  = Some {| sampleRate := 24000;
            channels := [map (fun s => int16_of_sample s # 32768) samples] |}
  /\ Forall normalized (map (fun s => int16_of_sample s # 32768) samples)
  /\ int16_of_sample NaN = 0%Z
  /\ (forall b, int16_of_sample (Infinite b) = 0%Z).
Proof.
  intros Hne. split; [|split; [|split; reflexivity]].
  - rewrite decodeInbound_createPcmBlob by exact Hne.
    unfold pcm_int16. now rewrite map_map.
  - pose proof (pcm_int16_range samples) as Hr. unfold pcm_int16 in Hr.
    clear Hne. induction samples as [|s l IH]; [constructor|].
    cbn [map] in *. apply Forall_cons_1 in Hr as [Hs Hl].
    constructor; [now apply int16_normalized | now apply IH].
Qed.

Lemma every_frame_plays_witness :
  [NaN; Finite 3; Infinite true] <> []
  /\ decodeInbound (data (createPcmBlob [NaN; Finite 3; Infinite true]))
     = Some {| sampleRate := 24000;
               channels := [map (fun s => int16_of_sample s # 32768)
                              [NaN; Finite 3; Infinite true]] |}.
Proof.
  split; [discriminate|].
  apply (every_frame_plays [NaN; Finite 3; Infinite true]). discriminate.
Defined.

Lemma list_ind2 {A : Type} (P : list A -> Prop) :
  P [] -> (forall a, P [a]) -> (forall a b l, P l -> P (a :: b :: l)) ->
  forall l, P l.
Proof.
  intros H0 H1 H2. fix IH 1. intros [|a [|b l]].
  - exact H0.
  - apply H1.
  - apply H2, IH.
Qed.

Lemma Int16_of_Uint8_spec (bytes : list Z) :
  match Int16_of_Uint8 bytes with
  | Some l =>
      length bytes = (2 * length l)%nat /\ Forall is_int16 l
  | None => Nat.Odd (length bytes)
  end.
Proof.
  induction bytes as [|a|a b l IH] using list_ind2.
  - cbn. split; [reflexivity | constructor].
  - cbn. now exists 0%nat.
  - cbn [Int16_of_Uint8].
    destruct (Int16_of_Uint8 l) as [tl|].
    + destruct IH as [Hlen Hr]. cbn [length] in *. split; [lia|].
      constructor; [apply wrap16_range | exact Hr].
    + destruct IH as [k Hk]. exists (S k). cbn [length] in *. lia.
Qed.

Lemma channelData_normalized (d : list Z) (n fc c : nat) :
  Forall is_int16 d -> Forall normalized (channelData d n fc c).
Proof.
  intros Hd. unfold channelData.
  induction (seq 0 fc) as [|i l IH]; [constructor|].
  cbn [map]. constructor; [|exact IH].
  apply int16_normalized.
  destruct (nth_in_or_default (i * n + c) d 0%Z) as [Hin | ->].
  - rewrite List.Forall_forall in Hd. now apply Hd.
  - unfold is_int16. lia.
Qed.

(** X14. Called with a sample rate and a number of channels that every
    platform supports, [decodeAudioData] succeeds exactly when the byte
    length is even and there are at least as many 16-bit values as
    channels. The buffer then has the requested rate and number of
    channels, each channel has (byte length / 2) / channels frames, every
    sample lies in [-1, 1), and the duration is positive. *)
Theorem decodeAudioData_shape (bytes : list Z) (rate : positive)
    (numChannels : nat) :
  (8000 <= Z.pos rate <= 96000)%Z ->
  (1 <= numChannels <= 32)%nat ->
  match decodeAudioData bytes rate numChannels with
  | Some audioBuffer =>
      Nat.Even (length bytes)
      /\ (numChannels <= length bytes / 2)%nat
      /\ sampleRate audioBuffer = rate
      /\ length (channels audioBuffer) = numChannels
      /\ Forall (fun ch => length ch = (length bytes / 2 / numChannels)%nat)
           (channels audioBuffer)
      /\ Forall (Forall normalized) (channels audioBuffer)
      /\ (0 < duration audioBuffer)%Q
  | None =>
      Nat.Odd (length bytes) \/ (length bytes / 2 < numChannels)%nat
  end.
Proof.
  intros Hrate Hch. unfold decodeAudioData.
  pose proof (Int16_of_Uint8_spec bytes) as Hv.
  destruct (Int16_of_Uint8 bytes) as [d|]; [|now left].
  destruct Hv as [Hlen Hr].
  assert (Hhalf : (length bytes / 2 = length d)%nat).
  { rewrite Hlen, Nat.mul_comm. now apply Nat.div_mul. }
  rewrite Hhalf.
  destruct (Nat.eqb_spec numChannels 0) as [->|Hn]; [lia|].
  destruct (Nat.eqb_spec (length d / numChannels) 0) as [Hz|Hfc];
    cbn [orb].
  { right. now apply Nat.div_small_iff in Hz. }
  assert (Hge : (numChannels <= length d)%nat).
  { destruct (Nat.le_gt_cases numChannels (length d)) as [Hle|Hgt];
      [exact Hle|].
    exfalso. apply Hfc. now apply Nat.div_small. }
  split; [exists (length d); lia|]. split; [exact Hge|].
  split; [reflexivity|]. cbn [channels sampleRate].
  split; [now rewrite length_map, length_seq|].
  split; [|split].
  - apply List.Forall_forall. intros ch Hin. apply in_map_iff in Hin.
    destruct Hin as (c & <- & _). apply channelData_length.
  - apply List.Forall_forall. intros ch Hin. apply in_map_iff in Hin.
    destruct Hin as (c & <- & _). now apply channelData_normalized.
  - apply Qlt_le_trans with (2 ^ (-17))%Q; [reflexivity|].
    unfold duration. apply round64_ge_pow2; [lia|].
    unfold seconds, frames. cbn [channels sampleRate].
    destruct numChannels as [|n]; [congruence|].
    cbn [seq map]. rewrite channelData_length.
    change (2 ^ (-17))%Q with (1 # 131072)%Q.
    unfold Qle. cbn [Qnum Qden]. lia.
Qed.

Lemma decodeAudioData_shape_witness :
  (8000 <= 24000 <= 96000)%Z
  /\ (1 <= 1 <= 32)%nat
  /\ match decodeAudioData [0; 128; 255; 127]%Z 24000 1 with
     | Some audioBuffer =>
         channels audioBuffer = [[-32768 # 32768; 32767 # 32768]]
         /\ (0 < duration audioBuffer)%Q
     | None => False
     end.
Proof.
  split; [lia|]. split; [lia|].
  pose proof (decodeAudioData_shape [0; 128; 255; 127]%Z 24000 1
                ltac:(lia) ltac:(lia)) as H.
  cbv beta iota delta [decodeAudioData Int16_of_Uint8] in H |- *.
  split; [reflexivity|]. apply H.
Defined.

(** *** The playback cursor, continued *)

(** The callback in terms of the payload. *)
Lemma onmessage_payload (m : Inbound) (c : Q) :
  onmessage m c
  = match payload m with
    | Some audioBuffer =>
        (add64 (Qmax (currentTime m) c) (duration audioBuffer),
         Some {| when := c; clock := currentTime m; buffer := audioBuffer |})
    | None => (c, None)
    end.
Proof.
  unfold onmessage, payload.
  destruct (truthy_opt (audioData m) && outputOpen m); [|reflexivity].
  destruct (audioData m) as [b64|]; [|reflexivity].
  now destruct (decodeInbound b64).
Qed.

Lemma payload_decoded (m : Inbound) (audioBuffer : AudioBuffer) :
  payload m = Some audioBuffer ->
  exists base64, decodeInbound base64 = Some audioBuffer.
Proof.
  unfold payload.
  destruct (truthy_opt (audioData m) && outputOpen m); [|discriminate].
  destruct (audioData m) as [b64|]; [|discriminate].
  intros H. now exists b64.
Qed.

(** The scheduled buffers are the payloads, in receipt order, each with
    the clock reading of its message. *)
Lemma playlist_played (messages : list Inbound) (c : Q) :
  map (fun e => (clock e, buffer e)) (playlist (live_session messages c))
  = omap played messages.
Proof.
  revert c. induction messages as [|m rest IH]; intros c; [reflexivity|].
  cbn [live_session]. rewrite onmessage_payload.
  change (omap played (m :: rest))
    with (match played m with
          | Some y => y :: omap played rest
          | None => omap played rest
          end).
  unfold played at 1.
  destruct (payload m) as [audioBuffer|]; rewrite playlist_cons;
    cbn [scheduled map clock buffer]; now rewrite IH.
Qed.

(** Below 2^38 seconds the computed end of a buffer is after its start:
    the duration, at least 2^-15 s, is not absorbed by the rounding. *)
Lemma computed_end_later (p : Q) (base64 : string) (audioBuffer : AudioBuffer) :
  (0 <= p)%Q -> decodeInbound base64 = Some audioBuffer ->
  (add64 p (duration audioBuffer) < 2 ^ 38)%Q ->
  (p < add64 p (duration audioBuffer))%Q.
Proof.
  intros Hp Hd Hlt.
  destruct (decodeInbound_length _ _ Hd) as [_ HD].
  unfold add64 in *.
  set (s := (p + duration audioBuffer)%Q) in *.
  assert (Hs38 : (s < 2 ^ 38)%Q) by (apply round64_lt_pow2; [lia | exact Hlt]).
  assert (Hn : (2 ^ (-1022) <= s)%Q).
  { apply Qle_trans with (2 ^ (-15))%Q; [now apply pow2_le|]. unfold s. lra. }
  pose proof (round64_error s Hn) as He.
  apply Qabs_Qle_condition in He as [He _].
  assert (Hu : (s * 2 ^ (-53) < 2 ^ (-15))%Q).
  { apply Qlt_le_trans with (2 ^ 38 * 2 ^ (-53))%Q.
    - apply Qmult_lt_compat_r; [apply pow2_pos | exact Hs38].
    - rewrite <- pow2_plus. apply pow2_le. lia. }
  set (v := (s * 2 ^ (-53))%Q) in *. unfold s in *. lra.
Qed.

(** X15. The buffers handed to the device are the payloads that decode, in
    receipt order, each with the clock reading of its message; and while
    the cursor is below 2^38 seconds, every buffer is requested strictly
    later than the previous buffer is requested and than the previous
    buffer starts playing: no two buffers are requested at the same
    time. *)
Theorem requested_starts_increase (messages : list Inbound) :
  map (fun e => (clock e, buffer e)) (playlist (live_session messages 0))
  = omap played messages
  /\ (forall i a b,
         playlist (live_session messages 0) !! i = Some a ->
         playlist (live_session messages 0) !! S i = Some b ->
         (when b < 2 ^ 38)%Q ->
         (when a < when b)%Q /\ (playback_start a < when b)%Q).
Proof.
  split; [apply playlist_played|]. intros i a b Ha Hb Hlt.
  pose proof (playlist_next messages 0 i a b Ha Hb) as Hw.
  pose proof (playlist_sound messages 0 binary64_0 (Qle_refl 0)) as Hs.
  destruct (Forall_lookup_1 _ _ _ _ Hs Ha) as (Hwa & b64 & Hd).
  assert (Hp : (when a <= playback_start a)%Q)
    by (unfold playback_start; apply Q.le_max_r).
  rewrite Hw in *.
  assert (playback_start a < add64 (playback_start a) (duration (buffer a)))%Q.
  { apply (computed_end_later _ b64); [lra | exact Hd | exact Hlt]. }
  split; lra.
Qed.

Lemma requested_starts_increase_witness :
  playlist (live_session three_buffers 0) !! 0%nat
  = Some {| when := 0; clock := 5; buffer := silence2 |}
  /\ (add64 (Qmax 5 0) (duration silence2) < 2 ^ 38)%Q
  /\ (0 < add64 (Qmax 5 0) (duration silence2))%Q
  /\ (Qmax 5 0 < add64 (Qmax 5 0) (duration silence2))%Q.
Proof.
  split; [reflexivity|]. split; [reflexivity|].
  apply (proj2 (requested_starts_increase three_buffers) 0%nat
           {| when := 0; clock := 5; buffer := silence2 |}
           {| when := add64 (Qmax 5 0) (duration silence2); clock := 5;
              buffer := silence1 |});
    reflexivity.
Defined.

(** Far beyond that, at 2^53 seconds, the sum of the cursor and a duration
    is the cursor: buffers are requested again and again at the same
    time. *)
Example cursor_stalls_at_large_times :
  Forall2 Qeq
    (map when
       (playlist
          (live_session
             [frames1 9007199254740992; frames1 9007199254740992;
              frames1 9007199254740992] 0)))
    [0; 9007199254740992; 9007199254740992]%Q.
Proof. vm_compute. repeat constructor. Qed.

Lemma last_default {A : Type} (l : list A) (a d d' : A) :
  List.last (a :: l) d = List.last (a :: l) d'.
Proof.
  revert a. induction l as [|y l IH]; intros a; [reflexivity|].
  change (List.last (y :: l) d = List.last (y :: l) d'). apply IH.
Qed.

Lemma final_cursor_cons (k : Tick) (t : list Tick) (c : Q) :
  final_cursor (k :: t) c = final_cursor t (cursor_after k).
Proof.
  unfold final_cursor. cbn [map].
  destruct (map cursor_after t) as [|y l]; [reflexivity|].
  change (List.last (y :: l) c = List.last (y :: l) (cursor_after k)).
  apply last_default.
Qed.

(** A session continues from the cursor the messages so far have left. *)
Lemma live_session_app (l1 l2 : list Inbound) (c : Q) :
  live_session (l1 ++ l2) c
  = live_session l1 c
      ++ live_session l2 (final_cursor (live_session l1 c) c).
Proof.
  revert c. induction l1 as [|m l1 IH]; intros c; [reflexivity|].
  cbn [app live_session]. destruct (onmessage m c) as [c' s].
  rewrite final_cursor_cons. cbn [cursor_after app]. now rewrite IH.
Qed.

Lemma playlist_app (t1 t2 : list Tick) :
  playlist (t1 ++ t2) = playlist t1 ++ playlist t2.
Proof.
  induction t1 as [|k t1 IH]; [reflexivity|].
  cbn [app]. rewrite !playlist_cons, IH. now destruct (scheduled k).
Qed.

(** The cursor at the end of a session is not below the cursor at its
    start. *)
Lemma final_cursor_ge (messages : list Inbound) (c : Q) :
  binary64 c -> (c <= final_cursor (live_session messages c) c)%Q.
Proof.
  revert c. induction messages as [|m rest IH]; intros c Hb; [apply Qle_refl|].
  cbn [live_session].
  destruct (onmessage_cursor m c Hb) as [Hle Hb'].
  destruct (onmessage m c) as [c' s]. cbn [fst] in *.
  rewrite final_cursor_cons. cbn [cursor_after].
  apply Qle_trans with c'; [exact Hle | now apply IH].
Qed.

(** Messages without a playable payload schedule nothing and leave the
    cursor. *)
Lemma live_session_gap (gap : list Inbound) (c : Q) :
  Forall (fun g => payload g = None) gap ->
  playlist (live_session gap c) = []
  /\ final_cursor (live_session gap c) c = c.
Proof.
  induction 1 as [|g gap Hg Hgap IH]; [now split|].
  cbn [live_session]. rewrite onmessage_payload, Hg.
  rewrite playlist_cons, final_cursor_cons. cbn [scheduled cursor_after].
  exact IH.
Qed.

(** X16. Of two messages with playable payloads, with any number of
    messages without one in between, anywhere in a session: both buffers
    are handed to the device, one after the other, and the second is
    requested, in exact arithmetic, within one part in 2^51 of the time at
    which the first stops, which is its playback start plus its length in
    seconds. The roundings of the duration and of the sum leave a gap or
    an overlap of at most that size. *)
Theorem requested_start_tracks_playback_end
    (before gap after : list Inbound) (m m' : Inbound)
    (audioBuffer audioBuffer' : AudioBuffer) :
  payload m = Some audioBuffer ->
  payload m' = Some audioBuffer' ->
  Forall (fun g => payload g = None) gap ->
  exists (earlier later : list Scheduled) (a b : Scheduled),
    playlist (live_session (before ++ m :: gap ++ m' :: after) 0)
    = earlier ++ a :: b :: later
    /\ buffer a = audioBuffer /\ clock a = currentTime m
    /\ buffer b = audioBuffer' /\ clock b = currentTime m'
    /\ (Qabs (when b - playback_end a) <= playback_end a * 2 ^ (-51))%Q.
Proof.
  intros Hm Hm' Hgap.
  set (c := final_cursor (live_session before 0) 0).
  assert (Hc : (0 <= c)%Q) by (apply final_cursor_ge, binary64_0).
  set (a := {| when := c; clock := currentTime m; buffer := audioBuffer |}).
  set (c' := add64 (Qmax (currentTime m) c) (duration audioBuffer)).
  set (b := {| when := c'; clock := currentTime m'; buffer := audioBuffer' |}).
  exists (playlist (live_session before 0)),
         (playlist
            (live_session after
               (add64 (Qmax (currentTime m') c') (duration audioBuffer')))),
         a, b.
  split.
  { rewrite live_session_app, playlist_app. fold c. f_equal.
    cbn [live_session]. rewrite onmessage_payload, Hm.
    rewrite playlist_cons. cbn [scheduled]. fold a c'. f_equal.
    rewrite live_session_app, playlist_app.
    destruct (live_session_gap gap c' Hgap) as [-> ->]. cbn [app].
    cbn [live_session]. rewrite onmessage_payload, Hm'.
    rewrite playlist_cons. cbn [scheduled]. reflexivity. }
  split; [reflexivity|]. split; [reflexivity|].
  split; [reflexivity|]. split; [reflexivity|].
  destruct (payload_decoded m audioBuffer Hm) as [b64 Hd].
  unfold playback_end, playback_start. cbn [when clock buffer]. unfold c'.
  apply (computed_end_error _ b64); [|exact Hd].
  pose proof (Q.le_max_r (currentTime m) c). lra.
Qed.

Lemma requested_start_tracks_playback_end_witness :
  payload (frames2 5) = Some silence2
  /\ payload (frames1 9) = Some silence1
  /\ Forall (fun g => payload g = None) [no_audio 7]
  /\ exists (earlier later : list Scheduled) (a b : Scheduled),
       playlist
         (live_session ([] ++ frames2 5 :: [no_audio 7] ++ frames1 9 :: []) 0)
       = earlier ++ a :: b :: later
       /\ buffer a = silence2 /\ clock a = 5%Q
       /\ buffer b = silence1 /\ clock b = 9%Q
       /\ (Qabs (when b - playback_end a) <= playback_end a * 2 ^ (-51))%Q.
Proof.
  assert (Hgap : Forall (fun g => payload g = None) [no_audio 7])
    by (repeat constructor).
  split; [reflexivity|]. split; [reflexivity|]. split; [exact Hgap|].
  apply (requested_start_tracks_playback_end [] [no_audio 7] []
           (frames2 5) (frames1 9) silence2 silence1);
    [reflexivity | reflexivity | exact Hgap].
Defined.

Lemma total_duration_mono (p : list AudioBuffer) (c c' : Q) :
  (c <= c')%Q -> (total_duration c p <= total_duration c' p)%Q.
Proof.
  revert c c'. induction p as [|e p IH]; intros c c' H; [exact H|].
  cbn [total_duration fold_left]. apply IH. unfold add64.
  apply round64_mono. lra.
Qed.

Lemma omap_payload_cons (m : Inbound) (rest : list Inbound) :
  omap payload (m :: rest)
  = match payload m with
    | Some audioBuffer => audioBuffer :: omap payload rest
    | None => omap payload rest
    end.
Proof. reflexivity. Qed.

(** With late buffers the cursor runs ahead of the sum of the durations. *)
Lemma cursor_at_least (messages : list Inbound) (c c0 : Q) :
  (c0 <= c)%Q ->
  (total_duration c0 (omap payload messages)
   <= final_cursor (live_session messages c) c)%Q.
Proof.
  revert c c0. induction messages as [|m rest IH]; intros c c0 H; [exact H|].
  cbn [live_session]. rewrite onmessage_payload, omap_payload_cons.
  destruct (payload m) as [audioBuffer|];
    rewrite final_cursor_cons; cbn [cursor_after]; [|now apply IH].
  cbn [total_duration fold_left]. apply IH. unfold add64.
  apply round64_mono.
  pose proof (Q.le_max_r (currentTime m) c). lra.
Qed.

Lemma cursor_exactly (messages : list Inbound) (c : Q) :
  Forall on_time (playlist (live_session messages c)) ->
  (final_cursor (live_session messages c) c
   == total_duration c (omap payload messages))%Q.
Proof.
  revert c. induction messages as [|m rest IH]; intros c.
  { intros _. reflexivity. }
  cbn [live_session]. rewrite onmessage_payload, omap_payload_cons.
  destruct (payload m) as [audioBuffer|];
    rewrite final_cursor_cons, playlist_cons; cbn [scheduled cursor_after];
    [|apply IH].
  intros Hall. apply Forall_cons_1 in Hall as [Hon Hall].
  rewrite (IH _ Hall). cbn [total_duration fold_left].
  unfold on_time in Hon. cbn [clock when] in Hon.
  assert (Hps : (Qmax (currentTime m) c == c)%Q) by now apply Q.max_r.
  apply Qle_antisym; apply total_duration_mono; unfold add64;
    apply round64_mono; lra.
Qed.

(** The cursor is at least the clock reading of every message that was
    played plus the duration of its buffer. *)
Lemma cursor_after_clock (messages : list Inbound) (c : Q) (m : Inbound)
    (audioBuffer : AudioBuffer) :
  binary64 c -> In m messages -> payload m = Some audioBuffer ->
  (add64 (currentTime m) (duration audioBuffer)
   <= final_cursor (live_session messages c) c)%Q.
Proof.
  revert c. induction messages as [|m0 rest IH]; intros c Hb Hin Hm;
    [destruct Hin|].
  cbn [live_session].
  destruct (onmessage_cursor m0 c Hb) as [Hle Hb'].
  pose proof (onmessage_payload m0 c) as Hs.
  destruct (onmessage m0 c) as [c' s]. cbn [fst] in *.
  rewrite final_cursor_cons. cbn [cursor_after].
  destruct Hin as [->|Hin]; [|now apply IH].
  rewrite Hm in Hs. injection Hs as -> _.
  apply Qle_trans
    with (add64 (Qmax (currentTime m) c) (duration audioBuffer)).
  - unfold add64. apply round64_mono.
    pose proof (Q.le_max_l (currentTime m) c). lra.
  - now apply final_cursor_ge.
Qed.

(** X17. After any session the cursor is at least the sum of the durations
    of the payloads that decode, added one after the other in binary64; it
    is at least the clock reading of every message that was played plus
    the duration of its buffer; and it is the sum of the durations when
    every buffer was handed over before its requested start had passed. *)
Theorem cursor_accumulates_durations (messages : list Inbound) :
  (total_duration 0 (omap payload messages)
   <= final_cursor (live_session messages 0) 0)%Q
  /\ (forall m audioBuffer,
         In m messages -> payload m = Some audioBuffer ->
         (add64 (currentTime m) (duration audioBuffer)
          <= final_cursor (live_session messages 0) 0)%Q)
  /\ (Forall on_time (playlist (live_session messages 0)) ->
      (final_cursor (live_session messages 0) 0
       == total_duration 0 (omap payload messages))%Q).
Proof.
  split; [apply cursor_at_least, Qle_refl|]. split.
  - intros m audioBuffer. apply cursor_after_clock, binary64_0.
  - apply cursor_exactly.
Qed.

Lemma cursor_accumulates_durations_witness :
  Forall on_time (playlist (live_session prompt_buffers 0))
  /\ (final_cursor (live_session prompt_buffers 0) 0
      == add64 (add64 0 (duration silence2)) (duration silence1))%Q
  /\ (0 < add64 (add64 0 (duration silence2)) (duration silence1))%Q.
Proof.
  assert (Hon : Forall on_time (playlist (live_session prompt_buffers 0))).
  { repeat constructor; unfold on_time; vm_compute; discriminate. }
  split; [exact Hon|].
  split;
    [apply (proj2 (proj2 (cursor_accumulates_durations prompt_buffers)) Hon)|].
  reflexivity.
Defined.

(** *** The click listener *)

Lemma substring_length (n : nat) (s : string) :
  (String.length (String.substring 0 n s) <= n)%nat.
Proof.
  revert s. induction n as [|n IH]; intros s.
  - destruct s; cbn; lia.
  - destruct s as [|c s]; cbn [String.substring String.length]; [lia|].
    specialize (IH s). lia.
Qed.

Lemma nearest_split (chain : list Element) (el : Element) :
  nearest chain = Some el ->
  truthy_opt (interactionId el) = true
  /\ exists before after,
       chain = before ++ el :: after /\ Forall inert before.
Proof.
  induction chain as [|x chain IH]; [discriminate|].
  cbn [nearest]. destruct (truthy_opt (interactionId x)) eqn:Hx.
  - intros [= <-]. split; [exact Hx|]. exists [], chain. now split.
  - intros Hn. destruct (IH Hn) as (Ht & before & after & -> & Hb).
    split; [exact Ht|]. exists (x :: before), after. split; [reflexivity|].
    now constructor.
Qed.

Lemma nearest_none (chain : list Element) :
  nearest chain = None <-> Forall inert chain.
Proof.
  induction chain as [|x chain IH]; [split; [constructor | reflexivity]|].
  cbn [nearest]. destruct (truthy_opt (interactionId x)) eqn:Hx.
  - split; [discriminate|]. intros Hall.
    apply Forall_cons_1 in Hall as [Hi _]. unfold inert in Hi. congruence.
  - rewrite IH. split; [now constructor|].
    intros Hall. now apply Forall_cons_1 in Hall as [_ Hall].
Qed.

(** X18. Every interaction the click listener reports has a non-empty
    identifier and a non-empty type, an element text of at most 75
    characters, and the app context the component was given; the identifier
    is that of the nearest element, from the click target upward, that has
    a non-empty [data-interaction-id], and the element type is that
    element's tag name. *)
Theorem reported_interaction (trim toLowerCase : string -> string)
    (getElementById : string -> option (option string))
    (valuesOf : string -> option string)
    (appContextProp : option string) (chain : list Element)
    (d : InteractionData) :
  handleClick trim toLowerCase getElementById valuesOf appContextProp chain
  = Some d ->
  truthy (id d) = true
  /\ truthy (type d) = true
  /\ (String.length (elementText d) <= 75)%nat
  /\ appContext d = appContextProp
  /\ exists before el after,
       chain = before ++ el :: after
       /\ Forall inert before
       /\ interactionId el = Some (id d)
       /\ elementType d = toLowerCase (tagName el).
Proof.
  unfold handleClick. destruct chain as [|target parents]; [discriminate|].
  destruct ((String.eqb (tagName target) "INPUT"
             || String.eqb (tagName target) "TEXTAREA")
            && negb (truthy_opt (interactionId target))); [discriminate|].
  destruct (nearest (target :: parents)) as [el|] eqn:Hn; [|discriminate].
  intros [= <-]. cbn [id type elementText appContext elementType].
  destruct (nearest_split _ _ Hn) as (Ht & before & after & Hc & Hb).
  destruct (interactionId el) as [i|] eqn:Hi; [|discriminate].
  cbn [truthy_opt] in Ht.
  split; [exact Ht|]. split.
  { destruct (interactionType el) as [t|]; [|reflexivity].
    now destruct (truthy t) eqn:E. }
  split; [apply substring_length|]. split; [reflexivity|].
  exists before, el, after. rewrite Hi. auto.
Qed.

Lemma reported_interaction_witness :
  handleClick (fun s => s) (fun s => s) (fun _ => None) (fun _ => None)
    (Some "web_browser_app"%string) [a_span; a_button]
  = Some {| id := "search_button";
            type := "generic_click";
            value := None;
            elementType := "BUTTON";
            elementText := "Search";
            appContext := Some "web_browser_app"%string |}
  /\ truthy "search_button" = true.
Proof.
  split; [reflexivity|].
  apply (reported_interaction (fun s => s) (fun s => s) (fun _ => None)
           (fun _ => None) (Some "web_browser_app"%string) [a_span; a_button]
           {| id := "search_button";
              type := "generic_click";
              value := None;
              elementType := "BUTTON";
              elementText := "Search";
              appContext := Some "web_browser_app"%string |}).
  reflexivity.
Defined.

(** X19. The click listener reports nothing when no element from the
    target up to the container has a non-empty [data-interaction-id], and
    nothing when the target is an [INPUT] or a [TEXTAREA] without one of its
    own, even if an ancestor has one; in every other case it reports an
    interaction. *)
Theorem ignored_clicks (trim toLowerCase : string -> string)
    (getElementById : string -> option (option string))
    (valuesOf : string -> option string)
    (appContextProp : option string) (target : Element)
    (parents : list Element) :
  (Forall inert (target :: parents) ->
   handleClick trim toLowerCase getElementById valuesOf appContextProp
     (target :: parents) = None)
  /\ (inert target ->
      tagName target = "INPUT"%string \/ tagName target = "TEXTAREA"%string ->
      handleClick trim toLowerCase getElementById valuesOf appContextProp
        (target :: parents) = None)
  /\ (~ Forall inert (target :: parents) ->
      ~ (inert target
         /\ (tagName target = "INPUT"%string
             \/ tagName target = "TEXTAREA"%string)) ->
      handleClick trim toLowerCase getElementById valuesOf appContextProp
        (target :: parents) <> None).
Proof.
  unfold handleClick. split; [|split].
  - intros Hall. apply nearest_none in Hall. rewrite Hall.
    now destruct (_ && _).
  - intros Hi Htag. unfold inert in Hi. rewrite Hi. cbn [negb].
    destruct Htag as [-> | ->]; reflexivity.
  - intros Hsome Hnot.
    destruct ((String.eqb (tagName target) "INPUT"
               || String.eqb (tagName target) "TEXTAREA")
              && negb (truthy_opt (interactionId target))) eqn:Hg.
    + exfalso. apply Hnot. apply andb_prop in Hg as [Htag Hi].
      split; [unfold inert; now destruct (truthy_opt (interactionId target))|].
      apply orb_prop in Htag as [E|E]; apply String.eqb_eq in E; auto.
    + destruct (nearest (target :: parents)) eqn:Hn; [discriminate|].
      exfalso. apply Hsome. now apply nearest_none.
Qed.

Lemma ignored_clicks_witness :
  inert an_input
  /\ (tagName an_input = "INPUT"%string \/ tagName an_input = "TEXTAREA"%string)
  /\ handleClick (fun s => s) (fun s => s) (fun _ => None) (fun _ => None)
       (Some "web_browser_app"%string) [an_input; a_button]
     = None.
Proof.
  split; [reflexivity|]. split; [now left|].
  apply (proj1 (proj2 (ignored_clicks (fun s => s) (fun s => s)
                         (fun _ => None) (fun _ => None)
                         (Some "web_browser_app"%string) an_input [a_button])));
    [reflexivity | now left].
Defined.

(** *** Streams that yield nothing, streams that throw *)

(** X20. When a handler has opened a generation and the stream ends
    normally without any non-empty text and without citations, the
    generator yields no fragment: the content stays empty, loading ends, and
    the cache is exactly as it was before the interaction. *)
Theorem empty_answer_is_not_cached (H : Z) (encodeURI : string -> string)
    (st : AppState) (ev : Event) (req : GenRequest) (gen : nat)
    (response : ResponseStream) :
  snd (handle H ev st) = Some req ->
  failure response = None ->
  texts (delivered response) = [] ->
  citations (delivered response) = [] ->
  let fragments :=
    streamAppContent encodeURI true (historyForLlm req)
      (maxHistoryLength req) (previousContent req) response in
  let st' := run H (generation gen fragments) (step H st ev) in
  fragments = []
  /\ llmContent st' = EmptyString
  /\ isLoading st' = false
  /\ appContentCache st' = appContentCache st.
Proof.
  intros Hreq Hok Htexts Hcites fragments st'.
  destruct (handle_opens H ev st req Hreq) as (Hl & Hc & Hp & Hh).
  assert (Hfr : fragments = []).
  { unfold fragments. rewrite streamAppContent_fragments by exact Hh.
    now rewrite Hok, Htexts, Hcites. }
  assert (Hstep : step H st ev = fst (handle H ev st)).
  { unfold step. now apply cacheEffect_loading. }
  assert (Hst' : st' = cacheEffect (setIsLoading false (fst (handle H ev st)))).
  { unfold st'. rewrite Hfr, Hstep. reflexivity. }
  split; [exact Hfr|].
  destruct (cacheEffect_fields (setIsLoading false (fst (handle H ev st))))
    as (_ & Fc & Fl & _).
  split; [now rewrite Hst', Fc|]. split; [now rewrite Hst', Fl|].
  rewrite Hst'.
  destruct (cacheEffect_cache (setIsLoading false (fst (handle H ev st))))
    as [-> | (_ & Ht & _)].
  - cbn [appContentCache setIsLoading]. apply handle_cache.
  - cbn [llmContent setIsLoading] in Ht. rewrite Hc in Ht. discriminate.
Qed.

Lemma empty_answer_is_not_cached_witness :
  snd (handle 10 (AppOpen calendar_app) initial_state)
  = Some {| historyForLlm := [initialInteraction calendar_app];
            maxHistoryLength := 10;
            previousContent := None |}
  /\ failure silent_stream = None
  /\ texts (delivered silent_stream) = []
  /\ citations (delivered silent_stream) = []
  /\ streamAppContent (fun s => s) true [initialInteraction calendar_app] 10
       None silent_stream = [].
Proof.
  split; [reflexivity|]. split; [reflexivity|]. split; [reflexivity|].
  split; [reflexivity|].
  apply (empty_answer_is_not_cached 10 (fun s => s) initial_state
           (AppOpen calendar_app)
           {| historyForLlm := [initialInteraction calendar_app];
              maxHistoryLength := 10;
              previousContent := None |}
           0%nat silent_stream);
    reflexivity.
Defined.

(** X21. When iterating the stream throws while a generation is loading,
    the [catch] and [finally] clauses replace the content by the "Error
    loading content." block, whatever had been streamed, set the error
    message and end loading; for an app other than [task_handoff_app] with
    a non-empty path, that block is then the cache entry of the path key. *)
Theorem thrown_stream_shows_error_block (H : Z) (gen : nat) (st : AppState) :
  isLoading st = true ->
  currentAppPath st <> [] ->
  is_task_handoff (activeAppId st) = false ->
  let st' := run H [StreamThrew gen; StreamSettled gen] st in
  llmContent st' = error_loading_block
  /\ error st' = Some "Failed to stream content from the API."%string
  /\ isLoading st' = false
  /\ currentAppPath st' = currentAppPath st
  /\ appContentCache st'
     = <[cacheKeyOf (currentAppPath st) := error_loading_block]>
         (appContentCache st).
Proof.
  intros Hl Hp Hth st'.
  assert (Hs1 : step H st (StreamThrew gen) = onStreamThrow st).
  { unfold step. cbn [handle fst]. now apply cacheEffect_loading. }
  assert (Hst' : st' = cacheEffect (setIsLoading false (onStreamThrow st))).
  { unfold st', run. cbn [fold_left]. now rewrite Hs1. }
  destruct (cacheEffect_fields (setIsLoading false (onStreamThrow st)))
    as (_ & Fc & Fl & Fe & _ & Fp).
  rewrite Hst'. rewrite Fc, Fl, Fe, Fp.
  repeat (split; [reflexivity|]).
  rewrite cacheEffect_writes;
    [reflexivity | reflexivity | reflexivity | exact Hp | exact Hth].
Qed.

Lemma thrown_stream_shows_error_block_witness :
  isLoading (step 10 initial_state (AppOpen calendar_app)) = true
  /\ currentAppPath (step 10 initial_state (AppOpen calendar_app)) <> []
  /\ is_task_handoff
       (activeAppId (step 10 initial_state (AppOpen calendar_app))) = false
  /\ llmContent
       (run 10 [StreamThrew 0; StreamSettled 0]
          (step 10 initial_state (AppOpen calendar_app)))
     = error_loading_block.
Proof.
  split; [reflexivity|]. split; [discriminate|]. split; [reflexivity|].
  apply (thrown_stream_shows_error_block 10 0%nat
           (step 10 initial_state (AppOpen calendar_app)));
    [reflexivity | discriminate | reflexivity].
Defined.
